(** * SweetPi: the session / credit scheduler of the claw machine

    A shallow embedding of [api/db.js] (the donations table and its
    accessors), [api/game.js] (the in-memory scheduler with its timers) and
    the force-end helper of [api/admin.js], followed by the properties of
    the scheduler that the design document states.

    Conventions of the embedding:
    - the [donations] table is a finite map from the primary key [id] to the
      columns the scheduler reads; the primary-key constraint is therefore
      built into the type. Equality of two tables or rows of [Db] is
      equality of these columns. The other columns ([updated_at], the
      payment id, the amounts, the session token) and the two unique
      indexes on them are in the module [Columns], with the writers of
      [db.js] on the whole rows; each function of [Db] that writes a row is
      such a writer seen on the columns of the scheduler, in the case that
      no unique index refuses the statement;
    - JavaScript numbers that hold counters, ids and millisecond timestamps
      are [Z]; [created_at] is the ISO timestamp, kept as milliseconds (ISO
      strings of one format order like the instants they denote). The
      numbers of the source are doubles: the arithmetic of [Z] is theirs on
      the integers from -2^53 to 2^53 ([Numbers.safe_int]), which is where
      the embedding computes as the code does; a request that carries a
      number with a fraction is not a request of the embedding;
    - the module-level variable [active] and the timers of the Node event
      loop are fields of an explicit [state]; every function of [game.js]
      is a function on [state];
    - calls to the GPIO driver and to the realtime broadcaster are appended
      to a log, newest first. *)

From Stdlib Require Import ZArith QArith Qround Lia.
From stdpp Require Import base option list sorting gmap strings fin_maps.

Local Open Scope Z_scope.

(* ===================================================================== *)
(** * The donations table ([api/db.js])                                   *)
(* ===================================================================== *)

Module Db.

(** [status TEXT]: created | waiting | active | done. *)
Inductive donation_status := Created | Waiting | Active | Done.

#[global] Instance donation_status_eq_dec : EqDecision donation_status.
Proof. solve_decision. Defined.

(** One row of [donations], without its key: [intent_id] and the columns
    that [listQueue] selects, which are the ones the scheduler reads. The
    other columns (payment id, email, amounts, session token, updated_at)
    are the record [Columns.rest]. [credits_pulsed] is the INTEGER column
    that holds 0 or 1. *)
Record donation := mkDonation {
  intent_id : string;
  name : string;
  credits_total : Z;
  credits_used : Z;
  credits_pulsed : bool;
  status : donation_status;
  created_at : Z;
}.

Abbreviation table := (gmap Z donation).

Definition with_status (s : donation_status) (r : donation) : donation :=
  mkDonation (intent_id r) (name r) (credits_total r) (credits_used r)
             (credits_pulsed r) s (created_at r).

Definition with_created_at (t : Z) (r : donation) : donation :=
  mkDonation (intent_id r) (name r) (credits_total r) (credits_used r)
             (credits_pulsed r) (status r) t.

Definition with_credits_total (n : Z) (r : donation) : donation :=
  mkDonation (intent_id r) (name r) n (credits_used r)
             (credits_pulsed r) (status r) (created_at r).

Definition with_credits_used (n : Z) (r : donation) : donation :=
  mkDonation (intent_id r) (name r) (credits_total r) n
             (credits_pulsed r) (status r) (created_at r).

Definition with_credits_pulsed (b : bool) (r : donation) : donation :=
  mkDonation (intent_id r) (name r) (credits_total r) (credits_used r)
             b (status r) (created_at r).

(** [SELECT * FROM donations WHERE id = ?] *)
Definition getDonationById (i : Z) (t : table) : option donation := t !! i.

(** [AUTOINCREMENT]: the new key is one more than the largest key that is
    or ever was in the table ([sq] is the counter of [sqlite_sequence]). *)
Definition max_key (t : table) : Z := map_fold (λ k _ acc, Z.max k acc) 0 t.

Definition fresh_key (sq : Z) (t : table) : Z := 1 + Z.max sq (max_key t).

Definition has_intent (iid : string) (r : donation) : bool :=
  bool_decide (intent_id r = iid).

(** [createIntent]: one INSERT with status 'created'. [iid] is the value
    drawn by [newIntentId]; the unique index on [intent_id] makes the
    INSERT fail (nothing is written) when the value is taken. The session
    token drawn with it, and the unique index on that, are in
    [Columns.createIntent_whole]. *)
Definition createIntent (iid nm : string) (now : Z) (sq : Z) (t : table)
  : Z * table :=
  if existsb (λ kr, has_intent iid kr.2) (map_to_list t) then (sq, t)
  else let k := fresh_key sq t in
       (k, <[k := mkDonation iid nm 0 0 false Created now]> t).

(** [markIntentPaid]: UPDATE ... WHERE intent_id = ?, as far as it writes
    the columns of [donation]; the payment id and the amount are in
    [Columns.markIntentPaid_whole]. *)
Definition markIntentPaid (iid : string) (creditsTotal now : Z) (t : table)
  : table :=
  (λ r, if has_intent iid r
        then with_created_at now (with_status Waiting (with_credits_total creditsTotal r))
        else r) <$> t.

(** [setDonationStatus]: UPDATE donations SET status = ? WHERE id = ? *)
Definition setDonationStatus (i : Z) (s : donation_status) (t : table) : table :=
  alter (with_status s) i t.

(** [requeueToEnd]: status 'waiting' and a fresh [created_at]. *)
Definition requeueToEnd (i : Z) (now : Z) (t : table) : table :=
  alter (λ r, with_created_at now (with_status Waiting r)) i t.

(** [markCreditsPulsed]: SET credits_pulsed = 1 *)
Definition markCreditsPulsed (i : Z) (t : table) : table :=
  alter (with_credits_pulsed true) i t.

(** The CASE expression of [useOneCredit]. *)
Definition used_plus_one (r : donation) : Z :=
  if credits_total r <? credits_used r + 1 then credits_total r
  else credits_used r + 1.

Definition useOneCredit (i : Z) (t : table) : table :=
  alter (λ r, with_credits_used (used_plus_one r) r) i t.

(** [ORDER BY created_at ASC]. SQLite leaves the order of rows with equal
    [created_at] open; the embedding lists them by key. *)
Definition row_leb (x y : Z * donation) : bool :=
  (created_at x.2 <? created_at y.2)
  || ((created_at x.2 =? created_at y.2) && (x.1 <=? y.1)).

Fixpoint insert_row (x : Z * donation) (l : list (Z * donation))
  : list (Z * donation) :=
  match l with
  | [] => [x]
  | y :: l' => if row_leb x y then x :: l else y :: insert_row x l'
  end.

Definition order_by_created_at (l : list (Z * donation)) : list (Z * donation) :=
  foldr insert_row [] l.

Definition in_queue (r : donation) : bool :=
  match status r with Waiting | Active => true | _ => false end.

(** [listQueue]: the rows with status 'waiting' or 'active', oldest first. *)
Definition listQueue (t : table) : list (Z * donation) :=
  order_by_created_at (List.filter (λ kr, in_queue kr.2) (map_to_list t)).

(** Admin: [adjustCredits], [setCreditsTotal], [setCreditsUsed]. The
    [|| 0] of the source guards a NULL column and is the identity on
    numbers. The functions return the row read back, which is the lookup
    in the new table. *)
Definition adjustCredits (i delta : Z) (t : table) : table :=
  match getDonationById i t with
  | None => t
  | Some row =>
      let nextTotal := Z.max 0 (credits_total row + delta) in
      let clampedTotal := Z.max nextTotal (credits_used row) in
      alter (with_credits_total clampedTotal) i t
  end.

Definition setCreditsTotal (i creditsTotal : Z) (t : table) : table :=
  match getDonationById i t with
  | None => t
  | Some row =>
      let nextTotal := Z.max 0 creditsTotal in
      let clampedTotal := Z.max nextTotal (credits_used row) in
      alter (with_credits_total clampedTotal) i t
  end.

Definition setCreditsUsed (i creditsUsed : Z) (t : table) : table :=
  match getDonationById i t with
  | None => t
  | Some row =>
      let nextUsed := Z.max 0 (Z.min creditsUsed (credits_total row)) in
      alter (with_credits_used nextUsed) i t
  end.

Definition deleteDonationById (i : Z) (t : table) : table := delete i t.

Definition deleteAllDonations (t : table) : table := ∅.

End Db.

(* ===================================================================== *)
(** * The scheduler ([api/game.js])                                       *)
(* ===================================================================== *)

Module Game.
Import Db.

Definition CREDIT_MS : Z := 35 * 1000.
Definition FIRST_MOVE_MS : Z := 15 * 1000.
Definition GRAB_FINISH_MS : Z := 7 * 1000.

(** The object held by the variable [active]. [timer] and
    [firstMoveTimer] hold a timer handle or null. *)
Record session := mkSession {
  donationId : Z;
  creditsRemaining : Z;
  timer : option nat;
  timerStarted : bool;
  creditEndsAt : option Z;
  firstMoveDeadline : Z;
  firstMoveTimer : option nat;
  hasMoved : bool;
  grabUsed : bool;
  creditSeq : Z;
  creditConsumed : bool;
}.

(** The four closures that [game.js] hands to [setTimeout]. The two credit
    timers close over [mySeq]; the first-move timer and the credit pulses
    close over nothing. *)
Inductive callback :=
| pulse_credit
| first_move_timeout
| credit_expiry (mySeq : Z)
| grab_finish (mySeq : Z).

Record timer_entry := mkTimer {
  t_handle : nat;
  t_due : Z;
  t_callback : callback;
}.

(** One line of the [queue] array of a 'queue-update' message. *)
Record queue_item := mkItem {
  q_id : Z;
  q_name : string;
  q_creditsRemaining : Z;
  q_status : donation_status;
  q_position : Z;
}.

(** Messages published on 'public-chat'. *)
Inductive event :=
| queue_update (activeDonationId creditEndsAt firstMoveDeadline : option Z)
               (queue : list queue_item)
| player_start (donation : Z) (nm : string) (remaining : Z) (deadline : Z)
| player_timeout (donation : Z) (reason : string)
| credit_start (donation : Z) (endsAt : option Z) (remaining : Z)
| player_end (donation : Z).

(** What leaves the process: GPIO calls and published messages. *)
Inductive effect :=
| gpio_pulse (channel : string) (ms : Z)
| gpio_releaseAll
| trigger (ev : event).

Record state := mkState {
  db : table;
  db_seq : Z;
  active : option session;
  timers : list timer_entry;
  next_handle : nat;
  clock : Z;
  log : list effect;
}.

Definition set_db (t : table) (st : state) : state :=
  mkState t (db_seq st) (active st) (timers st) (next_handle st) (clock st) (log st).

Definition set_active (a : option session) (st : state) : state :=
  mkState (db st) (db_seq st) a (timers st) (next_handle st) (clock st) (log st).

Definition set_clock (t : Z) (st : state) : state :=
  mkState (db st) (db_seq st) (active st) (timers st) (next_handle st) t (log st).

Definition emit (e : effect) (st : state) : state :=
  mkState (db st) (db_seq st) (active st) (timers st) (next_handle st) (clock st)
          (e :: log st).

(** [safeTrigger] never throws: a failure of the broadcaster is logged and
    dropped. *)
Definition safeTrigger (ev : event) (st : state) : state := emit (trigger ev) st.

(** [setTimeout(cb, delay)] returns a fresh handle. *)
Definition setTimeout (cb : callback) (delay : Z) (st : state) : nat * state :=
  let h := next_handle st in
  (h, mkState (db st) (db_seq st) (active st)
              (mkTimer h (clock st + delay) cb :: timers st)
              (S h) (clock st) (log st)).

Definition clearTimeout (h : nat) (st : state) : state :=
  mkState (db st) (db_seq st) (active st)
          (List.filter (λ t, negb (Nat.eqb (t_handle t) h)) (timers st))
          (next_handle st) (clock st) (log st).

(** [if (h) clearTimeout(h)] *)
Definition clear_if_set (h : option nat) (st : state) : state :=
  match h with Some h' => clearTimeout h' st | None => st end.

(** [x || null] on a number or null: 0 counts as absent. *)
Definition or_null (x : option Z) : option Z :=
  match x with Some 0 => None | _ => x end.

Fixpoint queue_items (pos : Z) (l : list (Z * donation)) : list queue_item :=
  match l with
  | [] => []
  | (i, d) :: l' =>
      mkItem i (name d) (credits_total d - credits_used d) (status d) (pos + 1)
      :: queue_items (pos + 1) l'
  end.

Definition broadcastQueue (st : state) : state :=
  safeTrigger
    (queue_update (or_null (donationId <$> active st))
                  (or_null (active st ≫= creditEndsAt))
                  (or_null (firstMoveDeadline <$> active st))
                  (queue_items 0 (listQueue (db st))))
    st.

(** ** Session field updates *)

Definition with_firstMove (deadline : Z) (h : option nat) (s : session) : session :=
  mkSession (donationId s) (creditsRemaining s) (timer s) (timerStarted s)
            (creditEndsAt s) deadline h (hasMoved s) (grabUsed s)
            (creditSeq s) (creditConsumed s).

(** ** [scheduleFirstMoveTimeout] *)

Definition scheduleFirstMoveTimeout (st : state) : state :=
  match active st with
  | None => st
  | Some s =>
      let st1 := clear_if_set (firstMoveTimer s) st in
      let deadline := clock st1 + FIRST_MOVE_MS in
      let '(h, st2) := setTimeout first_move_timeout FIRST_MOVE_MS st1 in
      set_active (Some (with_firstMove deadline (Some h) s)) st2
  end.

(** ** [maybeStartNext] *)

Definition remaining (d : donation) : Z := credits_total d - credits_used d.

Definition is_waiting (d : donation) : bool :=
  match status d with Waiting => true | _ => false end.

(** The clean-up loop over the snapshot [queueNow]. *)
Definition sweep (queueNow : list (Z * donation)) (t : table) : table :=
  foldl (λ t q, if is_waiting q.2 && (remaining q.2 <=? 0)
                then setDonationStatus q.1 Done t else t)
        t queueNow.

(** [for (i = 0; i < creditsRemaining; i++) setTimeout(pulse, i * 400)],
    as the list of its iterations. This is the loop of the source as long
    as the counter can reach [creditsRemaining], that is up to 2^53; the
    loop with its counter is [Run.pulse_loop]. *)
Definition schedule_pulses (creditsRemaining : Z) (st : state) : state :=
  foldl (λ st i, (setTimeout pulse_credit (i * 400) st).2)
        st (seqZ 0 creditsRemaining).

(** The second half of [maybeStartNext], from [active = {...}] on: [next]
    is the row that [find] returned, [nid] its id. *)
Definition activate (nid : Z) (next : donation) (st : state) : state :=
  let creditsRemaining := remaining next in
  let st := set_active
      (Some (mkSession nid creditsRemaining None false None
                       (clock st + FIRST_MOVE_MS) None false false 0 false)) st in
  let st := set_db (setDonationStatus nid Active (db st)) st in
  let st :=
    if negb (credits_pulsed next) && (0 <? creditsRemaining)
    then set_db (markCreditsPulsed nid (db (schedule_pulses creditsRemaining st)))
                (schedule_pulses creditsRemaining st)
    else st in
  let st := scheduleFirstMoveTimeout st in
  let st := broadcastQueue st in
  safeTrigger
    (player_start nid (name next) creditsRemaining
                  (from_option firstMoveDeadline 0 (active st)))
    st.

(** The function calls itself after it has marked a credit-less head of
    the queue done; [fuel] bounds the depth of that recursion. *)
Fixpoint maybeStartNext_fuel (fuel : nat) (st : state) : option state :=
  match fuel with
  | O => None
  | S fuel' =>
      match active st with
      | Some _ => Some st
      | None =>
          let queueNow := listQueue (db st) in
          let st1 := set_db (sweep queueNow (db st)) st in
          let freshQueue := listQueue (db st1) in
          match List.find (λ q, is_waiting q.2) freshQueue with
          | None => Some (broadcastQueue st1)
          | Some (nid, next) =>
              if remaining next <=? 0
              then maybeStartNext_fuel fuel'
                     (set_db (setDonationStatus nid Done (db st1)) st1)
              else Some (activate nid next st1)
          end
      end
  end.

Definition waiting_count (t : table) : nat :=
  length (List.filter (λ q, is_waiting q.2) (map_to_list t)).

(** The depth is at most the number of waiting rows (proved below as
    [maybeStartNext_fuel_total]), so this is the function of the source
    wherever its pulse loop ends ([Run.maybeStartNext_run]). *)
Definition maybeStartNext (st : state) : state :=
  default st (maybeStartNext_fuel (S (waiting_count (db st))) st).

(** ** [startCreditTimerIfNeeded] *)

Definition startCreditTimerIfNeeded (st : state) : state :=
  match active st with
  | None => st
  | Some s =>
      if timerStarted s then st
      else
        let st1 := clear_if_set (firstMoveTimer s) st in
        let endsAt := clock st1 + CREDIT_MS in
        let mySeq := creditSeq s + 1 in
        let st2 := safeTrigger
                     (credit_start (donationId s) (Some endsAt) (creditsRemaining s))
                     st1 in
        let '(h, st3) := setTimeout (credit_expiry mySeq) CREDIT_MS st2 in
        set_active
          (Some (mkSession (donationId s) (creditsRemaining s) (Some h) true
                           (Some endsAt) (firstMoveDeadline s) None
                           true (grabUsed s) mySeq false))
          st3
  end.

(** ** [consumeOneCreditSafely] *)

Definition consumeOneCreditSafely (st : state) : bool * state :=
  match active st with
  | None => (false, st)
  | Some s =>
      if creditConsumed s then (false, st)
      else
        (true,
         set_active
           (Some (mkSession (donationId s) (creditsRemaining s - 1) (timer s)
                            (timerStarted s) (creditEndsAt s)
                            (firstMoveDeadline s) (firstMoveTimer s)
                            (hasMoved s) (grabUsed s) (creditSeq s) true))
           (set_db (useOneCredit (donationId s) (db st)) st))
  end.

(** ** [endActivePlayer] *)

Definition endActivePlayer (st : state) : state :=
  match active st with
  | None => st
  | Some s =>
      let st := clear_if_set (timer s) st in
      let st := clear_if_set (firstMoveTimer s) st in
      let st := emit gpio_releaseAll st in
      let st := set_db (setDonationStatus (donationId s) Done (db st)) st in
      let st := safeTrigger (player_end (donationId s)) st in
      let st := set_active None st in
      maybeStartNext st
  end.

(** The branch on [creditsRemaining] that [finishCreditNormally] and the
    grab timer share, written once: reset the per-credit flags and reopen
    the first-move window, or end the session; then broadcast. *)
Definition next_credit_or_end (st : state) : state :=
  match active st with
  | None => st
  | Some s =>
      let st :=
        if 0 <? creditsRemaining s
        then scheduleFirstMoveTimeout
               (set_active
                  (Some (mkSession (donationId s) (creditsRemaining s) (timer s)
                                   false None (firstMoveDeadline s)
                                   (firstMoveTimer s) false false
                                   (creditSeq s) (creditConsumed s)))
                  st)
        else endActivePlayer st in
      broadcastQueue st
  end.

(** ** [finishCreditNormally] *)

Definition finishCreditNormally (st : state) : state :=
  match active st with
  | None => st
  | Some _ =>
      let '(consumed, st1) := consumeOneCreditSafely st in
      if consumed then next_credit_or_end st1 else st
  end.

(** ** [handleGrabIfAllowed] *)

Inductive grab_result :=
| grab_ok
| grab_rejected (error : string).

Definition handleGrabIfAllowed (st : state) : grab_result * state :=
  match active st with
  | None => (grab_rejected "no_active", st)
  | Some s =>
      if grabUsed s then (grab_rejected "grab_already_used", st)
      else
        let st1 := if timerStarted s then st else startCreditTimerIfNeeded st in
        match active st1 with
        | None => (grab_ok, st1)
        | Some s1 =>
            let st2 := clear_if_set (timer s1) st1 in
            let endsAt := clock st2 + GRAB_FINISH_MS in
            let mySeq := creditSeq s1 + 1 in
            let st3 := safeTrigger
                         (credit_start (donationId s1) (Some endsAt)
                                       (creditsRemaining s1))
                         st2 in
            let st4 := emit (gpio_pulse "grab" 300) st3 in
            let '(h, st5) := setTimeout (grab_finish mySeq) GRAB_FINISH_MS st4 in
            (grab_ok,
             set_active
               (Some (mkSession (donationId s1) (creditsRemaining s1) (Some h)
                                (timerStarted s1) (Some endsAt)
                                (firstMoveDeadline s1) (firstMoveTimer s1)
                                (hasMoved s1) true mySeq false))
               st5)
        end
  end.

(** ** The timer callbacks *)

(** The body of the closure of [scheduleFirstMoveTimeout]. *)
Definition onFirstMoveTimeout (st : state) : state :=
  match active st with
  | None => st
  | Some s =>
      if hasMoved s then st
      else
        let queueNow := listQueue (db st) in
        let someoneWaiting :=
          existsb (λ q, is_waiting q.2 && negb (q.1 =? donationId s)) queueNow in
        if someoneWaiting then
          let timedOutDonationId := donationId s in
          let st := endActivePlayer st in
          safeTrigger (player_timeout timedOutDonationId "no_first_move") st
        else
          broadcastQueue (scheduleFirstMoveTimeout st)
  end.

(** The body of the closure of [startCreditTimerIfNeeded]. *)
Definition onCreditTimer (mySeq : Z) (st : state) : state :=
  match active st with
  | None => st
  | Some s => if creditSeq s =? mySeq then finishCreditNormally st else st
  end.

(** The body of the closure of [handleGrabIfAllowed]. *)
Definition onGrabTimer (mySeq : Z) (st : state) : state :=
  match active st with
  | None => st
  | Some s =>
      if creditSeq s =? mySeq then
        let '(consumed, st1) := consumeOneCreditSafely st in
        if consumed then next_credit_or_end st1 else st
      else st
  end.

Definition run_callback (cb : callback) (st : state) : state :=
  match cb with
  | pulse_credit => emit (gpio_pulse "credit" 200) st
  | first_move_timeout => onFirstMoveTimeout st
  | credit_expiry mySeq => onCreditTimer mySeq st
  | grab_finish mySeq => onGrabTimer mySeq st
  end.

(** The event loop runs a pending timer: the entry leaves the timer list,
    the clock has reached its due time, the closure runs. *)
Definition fire (t : timer_entry) (st : state) : state :=
  run_callback (t_callback t)
    (set_clock (Z.max (clock st) (t_due t)) (clearTimeout (t_handle t) st)).

(** ** [getActiveState], [handlePaidDonation] *)

Definition getActiveState (st : state) : option Z * option Z * option Z :=
  match active st with
  | Some s => (Some (donationId s), creditEndsAt s, Some (firstMoveDeadline s))
  | None => (None, None, None)
  end.

(** [Math.min(5, Math.floor(amountEur))] *)
Definition credits_for (amountEur : Q) : Z := Z.min 5 (Qfloor amountEur).

Definition handlePaidDonation (intentId : string) (amountEur : Q) (st : state)
  : Z * state :=
  let creditsTotal := credits_for amountEur in
  let st := set_db (markIntentPaid intentId creditsTotal (clock st) (db st)) st in
  let st := maybeStartNext st in
  (creditsTotal, broadcastQueue st).

(** ** Boot recovery *)

(** The two loops of [recoverAfterRestart], each over the rows its SELECT
    returned. The [catch] around them only logs; a failing database is
    outside the model. *)
Definition demote_actives (t : table) : table :=
  foldl (λ t a, setDonationStatus a.1 Waiting t) t
        (List.filter (λ kr, bool_decide (status kr.2 = Active)) (map_to_list t)).

Definition finish_empty_waitings (t : table) : table :=
  foldl (λ t w, if remaining w.2 <=? 0 then setDonationStatus w.1 Done t else t) t
        (List.filter (λ kr, bool_decide (status kr.2 = Waiting)) (map_to_list t)).

Definition recoverAfterRestart (t : table) : table :=
  finish_empty_waitings (demote_actives t).

(** Loading the module: [active = null], then [recoverAfterRestart()] runs
    at top level, before [module.exports] hands out any entry point. [t] and
    [sq] are the table and its key counter as found on disk, [now] the time
    of the start. *)
Definition boot (t : table) (sq : Z) (now : Z) : state :=
  mkState (recoverAfterRestart t) sq None [] O now [].

End Game.

(* ===================================================================== *)
(** * The admin routes ([api/admin.js])                                   *)
(* ===================================================================== *)

Module Admin.
Import Db Game.

(** The router is built from the game module and probes it for two
    optional functions with [typeof game.f === 'function']. *)
Record game_module := mkGame {
  forceEndActive : option (string → state → state);
  forceActivateDonation : option (Z → state → bool * state);
}.

(** [module.exports] of [game.js] lists [handlePaidDonation],
    [maybeStartNext], [startCreditTimerIfNeeded], [handleGrabIfAllowed],
    [isActiveTokenDonation], [broadcastQueue] and [getActiveState]: neither
    optional function is there. *)
Definition game_exports : game_module := mkGame None None.

Section Router.
Variable game : game_module.

(** [if (activeId)]: an id is truthy unless it is null or 0. *)
Definition truthy_id (x : option Z) : option Z :=
  match x with Some 0 => None | _ => x end.

Definition safeForceEndActive (reason : string) (st : state) : state :=
  match forceEndActive game with
  | Some f => f reason st
  | None =>
      let activeId := (getActiveState st).1.1 in
      let st := match truthy_id activeId with
                | Some i => set_db (setDonationStatus i Done (db st)) st
                | None => st
                end in
      let st := maybeStartNext st in
      broadcastQueue st
  end.

Inductive request :=
| credits_add (i delta : Z)
| credits_set_total (i creditsTotal : Z)
| credits_set_used (i creditsUsed : Z)
| requeue (i : Z)
| status_set (i : Z) (s : donation_status)
| player_end_active
| player_start_next
| delete_donation (i : Z)
| delete_all.

(** The handlers answer 400 and touch nothing when [id] is missing or 0. *)
Definition handle (rq : request) (st : state) : state :=
  match rq with
  | credits_add i delta =>
      if i =? 0 then st
      else broadcastQueue (maybeStartNext (set_db (adjustCredits i delta (db st)) st))
  | credits_set_total i n =>
      if i =? 0 then st
      else broadcastQueue (maybeStartNext (set_db (setCreditsTotal i n (db st)) st))
  | credits_set_used i n =>
      if i =? 0 then st
      else broadcastQueue (maybeStartNext (set_db (setCreditsUsed i n (db st)) st))
  | requeue i =>
      if i =? 0 then st
      else broadcastQueue
             (maybeStartNext (set_db (requeueToEnd i (clock st) (db st)) st))
  | status_set i s =>
      if i =? 0 then st
      else
        match s with
        | Active =>
            match forceActivateDonation game with
            | Some f => let '(_, st') := f i st in broadcastQueue st'
            | None =>
                broadcastQueue
                  (maybeStartNext (set_db (setDonationStatus i Waiting (db st)) st))
            end
        | _ =>
            let activeId := (getActiveState st).1.1 in
            let st := if bool_decide (activeId = Some i)
                      then safeForceEndActive "admin_status_change" st else st in
            broadcastQueue
              (maybeStartNext (set_db (setDonationStatus i s (db st)) st))
        end
  | player_end_active => safeForceEndActive "admin_end" st
  | player_start_next => broadcastQueue (maybeStartNext st)
  | delete_donation i =>
      if i =? 0 then st
      else
        let activeId := (getActiveState st).1.1 in
        let st := if bool_decide (activeId = Some i)
                  then safeForceEndActive "admin_delete_active" st else st in
        broadcastQueue (maybeStartNext (set_db (deleteDonationById i (db st)) st))
  | delete_all =>
      let st := safeForceEndActive "admin_delete_all" st in
      broadcastQueue (set_db (deleteAllDonations (db st)) st)
  end.

End Router.
End Admin.

(* ===================================================================== *)
(** * The running process                                                 *)
(* ===================================================================== *)

Module System.
Import Db Game.

(** The heartbeat of [game.js]: every [HEARTBEAT_MS] it republishes the
    snapshot when there is a session or a queued row. *)
Definition heartbeat (st : state) : state :=
  if bool_decide (active st ≠ None) || negb (bool_decide (listQueue (db st) = []))
  then broadcastQueue st else st.

(** One turn of the event loop. Node runs each handler to completion, so
    the states between turns are the ones anything can observe. *)
Inductive turn :=
| intent_created (iid nm : string)
| payment_confirmed (iid : string) (amountEur : Q)
| player_moves
| player_grabs
| timer_fires (t : timer_entry)
| time_passes (dt : Z)
| heartbeat_fires
| admin_request (rq : Admin.request).

Definition enabled (a : turn) (st : state) : Prop :=
  match a with
  | timer_fires t => t ∈ timers st
  | time_passes dt => 0 <= dt
  | _ => True
  end.

Definition perform (a : turn) (st : state) : state :=
  match a with
  | intent_created iid nm =>
      let '(sq, t) := createIntent iid nm (clock st) (db_seq st) (db st) in
      mkState t sq (active st) (timers st) (next_handle st) (clock st) (log st)
  | payment_confirmed iid amount => (handlePaidDonation iid amount st).2
  | player_moves => startCreditTimerIfNeeded st
  | player_grabs => (handleGrabIfAllowed st).2
  | timer_fires t => fire t st
  | time_passes dt => set_clock (clock st + dt) st
  | heartbeat_fires => heartbeat st
  | admin_request rq => Admin.handle Admin.game_exports rq st
  end.

Fixpoint run (l : list turn) (st : state) : state :=
  match l with
  | [] => st
  | a :: l' => run l' (perform a st)
  end.

(** States of a process started on the table [t]. *)
Inductive reachable (t : table) (sq now : Z) : state → Prop :=
| reach_boot : reachable t sq now (boot t sq now)
| reach_turn st a :
    reachable t sq now st → enabled a st → reachable t sq now (perform a st).

End System.

(* ===================================================================== *)
(** * Notions used to state the properties                                *)
(* ===================================================================== *)

Module Props.
Import Db Game System.

(** The order of the queue listing, as a relation. *)
Definition row_lt (x y : Z * donation) : Prop :=
  created_at x.2 < created_at y.2
  ∨ (created_at x.2 = created_at y.2 ∧ x.1 < y.1).

(** What the clean-up loop does to one row. *)
Definition swept (r : donation) : donation :=
  if is_waiting r && (remaining r <=? 0) then with_status Done r else r.

(** The state after the clean-up loop. *)
Definition cleaned (st : state) : state :=
  set_db (sweep (listQueue (db st)) (db st)) st.

(** The row [freshQueue.find(q => q.status === 'waiting')] picks. *)
Definition pick_next (st : state) : option (Z * donation) :=
  List.find (λ q, is_waiting q.2) (listQueue (db (cleaned st))).

(** The table after the activation of [nid], whose row in the queue
    listing was [next]. *)
Definition activated_table (nid : Z) (next : donation) (t : table) : table :=
  if negb (credits_pulsed next) && (0 <? remaining next)
  then markCreditsPulsed nid (setDonationStatus nid Active t)
  else setDonationStatus nid Active t.

(** ** Boot recovery, row by row *)

(** First loop: an 'active' row becomes 'waiting'. *)
Definition demoted (r : donation) : donation :=
  if bool_decide (status r = Active) then with_status Waiting r else r.

(** Second loop: a 'waiting' row without credits becomes 'done'. *)
Definition finished (r : donation) : donation :=
  if bool_decide (status r = Waiting) && (remaining r <=? 0)
  then with_status Done r else r.

Definition recovered (r : donation) : donation := finished (demoted r).

(** ** The credit columns *)

Definition credits_ok (r : donation) : Prop :=
  0 <= credits_used r ∧ credits_used r <= credits_total r.

Definition table_ok (t : table) : Prop :=
  ∀ i r, t !! i = Some r → credits_ok r.

(** The writers of [credits_total] and [credits_used] in [db.js] that work
    on a paid row. *)
Inductive ledger_op :=
| op_useOneCredit (i : Z)
| op_adjustCredits (i delta : Z)
| op_setCreditsTotal (i creditsTotal : Z)
| op_setCreditsUsed (i creditsUsed : Z).

Definition apply_op (op : ledger_op) (t : table) : table :=
  match op with
  | op_useOneCredit i => useOneCredit i t
  | op_adjustCredits i delta => adjustCredits i delta t
  | op_setCreditsTotal i n => setCreditsTotal i n t
  | op_setCreditsUsed i n => setCreditsUsed i n t
  end.

(** ** Stale timers *)

(** A callback armed under the epoch [captured] is stale in [st] when the
    session is gone or its [creditSeq] has moved on. *)
Definition stale (captured : Z) (st : state) : Prop :=
  match active st with
  | None => True
  | Some s => creditSeq s ≠ captured
  end.

(** The callback of a session timer armed under the epoch [captured]. The
    closure of the first-move timer is the same under every epoch. *)
Inductive session_timer := normal_expiry | grab_expiry | first_move.

Definition armed (k : session_timer) (captured : Z) : callback :=
  match k with
  | normal_expiry => credit_expiry captured
  | grab_expiry => grab_finish captured
  | first_move => first_move_timeout
  end.

(** ** Counting in the log *)

Definition is_release (e : effect) : bool :=
  match e with gpio_releaseAll => true | _ => false end.


Definition is_credit_pulse (t : timer_entry) : bool :=
  match t_callback t with pulse_credit => true | _ => false end.

(** Number of calls of [gpio.releaseAll]. *)
Definition releases (l : list effect) : nat := length (List.filter is_release l).


(** Number of pending credit pulses. *)
Definition pending_pulses (st : state) : nat :=
  length (List.filter is_credit_pulse (timers st)).

(** ** Sessions in the table and in the log *)

(** The donation that holds the session. *)
Definition holder (st : state) : option Z := donationId <$> active st.

(** From one table to the next no row appears, no [credits_pulsed] is
    cleared and no row becomes 'active'. *)
Definition table_step (t t' : table) : Prop :=
  ∀ i r', t' !! i = Some r' →
    ∃ r, t !! i = Some r
         ∧ (credits_pulsed r = true → credits_pulsed r' = true)
         ∧ (status r' = Active → status r = Active).

(** Effects other than the start and the end of a session. *)
Definition neutral (e : effect) : bool :=
  match e with
  | trigger (player_start _ _ _ _) | trigger (player_end _) => false
  | _ => true
  end.

(** The session that a log (newest entry first) leaves open. *)
Fixpoint open_session (l : list effect) : option Z :=
  match l with
  | [] => None
  | trigger (player_start i _ _ _) :: _ => Some i
  | trigger (player_end _) :: _ => None
  | _ :: l' => open_session l'
  end.

(** In a log, a session starts only when none is open, and the session
    that ends is the open one. *)
Fixpoint sessions_ok (l : list effect) : bool :=
  match l with
  | [] => true
  | trigger (player_start _ _ _ _) :: l' =>
      bool_decide (open_session l' = None) && sessions_ok l'
  | trigger (player_end i) :: l' =>
      bool_decide (open_session l' = Some i) && sessions_ok l'
  | _ :: l' => sessions_ok l'
  end.

(** A step that starts and ends no session. *)
Definition quiet (st st' : state) : Prop :=
  holder st' = holder st
  ∧ table_step (db st) (db st')
  ∧ (∃ new, log st' = new ++ log st ∧ forallb neutral new = true)
  ∧ db_seq st' = db_seq st.

(** The table, the variable [active] and the log agree on who plays. *)
Definition consistent (st : state) : Prop :=
  (∀ i r, db st !! i = Some r → status r = Active → holder st = Some i)
  ∧ sessions_ok (log st) = true
  ∧ open_session (log st) = holder st.

(** From one table to the next no row appears and no [credits_pulsed] is
    cleared. *)
Definition flags_kept (t t' : table) : Prop :=
  ∀ i r', t' !! i = Some r' →
    ∃ r, t !! i = Some r ∧ (credits_pulsed r = true → credits_pulsed r' = true).

(** What every function of the scheduler does to a state. *)
Definition evolves (st st' : state) : Prop :=
  flags_kept (db st) (db st')
  ∧ (consistent st → consistent st')
  ∧ db_seq st' = db_seq st.

(** ** The first-move timeout *)




(** ** Sample runs *)

(** Ann pays 2 euros and is activated; half a second later Bob pays 1
    euro and waits. *)
Definition ann_active_bob_waiting : state :=
  run [intent_created "a" "Ann"; intent_created "b" "Bob";
       payment_confirmed "a" (2 # 1); time_passes 500;
       payment_confirmed "b" (1 # 1)]
      (boot ∅ 0 1000).

(** Ann then moves and her first credit runs out: one credit is left, the
    per-credit flags are reset, a new first-move timer is armed. *)
Definition ann_second_credit : state :=
  run [player_moves; timer_fires (mkTimer 3 36500 (credit_expiry 1))]
      ann_active_bob_waiting.

(** Three waiting rows, none with a credit left. *)
Definition all_empty : table :=
  list_to_map [(1, mkDonation "a" "Ann" 0 0 false Waiting 10);
               (2, mkDonation "b" "Bob" 1 1 false Waiting 20);
               (3, mkDonation "c" "Cleo" 2 3 false Waiting 30)].

(** A table found after a crash: Ann was playing on her last credit. *)
Definition crashed : table :=
  list_to_map [(1, mkDonation "a" "Ann" 2 2 true Active 10);
               (2, mkDonation "b" "Bob" 3 0 false Waiting 20)].

(** Two paid rows. *)
Definition paid_rows : table :=
  list_to_map [(1, mkDonation "a" "Ann" 3 3 true Active 10);
               (2, mkDonation "b" "Bob" 5 1 false Waiting 20)].

(** A table in which Ann has paid for two credits and nobody plays. *)
Definition ann_paid : state :=
  mkState (list_to_map [(1, mkDonation "a" "Ann" 2 0 false Waiting 10)])
          1 None [] O 100 [].



End Props.

(* ===================================================================== *)
(** * More of [api/db.js]                                                 *)
(* ===================================================================== *)

Module Queries.
Import Db.

(** [getIntent]: SELECT * FROM donations WHERE intent_id = ?, first row or
    undefined. The row comes with its key. *)
Definition getIntent (iid : string) (t : table) : option (Z * donation) :=
  List.find (λ kr, has_intent iid kr.2) (map_to_list t).

(** The unique index [idx_donations_intent_id]. *)
Definition intents_unique (t : table) : Prop :=
  ∀ i j ri rj, t !! i = Some ri → t !! j = Some rj →
               intent_id ri = intent_id rj → i = j.

(** [f] applied [n] times. *)
Fixpoint times {A} (n : nat) (f : A → A) (x : A) : A :=
  match n with
  | O => x
  | S n' => f (times n' f x)
  end.

(** The test under which a row is listed but is not the row [i]. *)
Definition not_key (i : Z) (q : Z * donation) : bool := negb (q.1 =? i).

End Queries.

(* ===================================================================== *)
(** * Notions for the rest of the scheduler                               *)
(* ===================================================================== *)

Module Shape.
Import Db Game System Props.

(** A waiting row with credits left: what the activation step looks for. *)
Definition eligible (q : Z * donation) : bool :=
  is_waiting q.2 && (0 <? remaining q.2).

(** How the fields of a session hang together between two turns of the
    event loop. *)
Definition session_ok (s : session) : Prop :=
  0 < creditsRemaining s
  ∧ 0 <= creditSeq s
  ∧ hasMoved s = timerStarted s
  ∧ (grabUsed s = true → timerStarted s = true)
  ∧ (timerStarted s = true → creditConsumed s = false)
  ∧ (timerStarted s = false → creditEndsAt s = None).

(** The pending timer [t] is the deadline of the session [s]: while the
    credit runs, the credit timer of the live epoch, due at
    [creditEndsAt]; before the first action, the first-move timer, due at
    [firstMoveDeadline]. *)
Definition owned (s : session) (t : timer_entry) : Prop :=
  (timerStarted s = true
   ∧ timer s = Some (t_handle t)
   ∧ t_callback t = (if grabUsed s then grab_finish (creditSeq s)
                     else credit_expiry (creditSeq s))
   ∧ creditEndsAt s = Some (t_due t))
  ∨ (timerStarted s = false
     ∧ firstMoveTimer s = Some (t_handle t)
     ∧ t_callback t = first_move_timeout
     ∧ firstMoveDeadline s = t_due t).

(** Handles are given out once. *)
Definition handles_ok (st : state) : Prop :=
  NoDup (t_handle <$> timers st)
  ∧ ∀ t, t ∈ timers st → (t_handle t < next_handle st)%nat.

(** Only credit pulses are pending. *)
Definition pulses_only (st : state) : Prop :=
  ∀ t, t ∈ timers st → is_credit_pulse t = true.

(** The session and the pending timers fit: every pending timer is a
    credit pulse or the deadline of the session, and a session has its
    deadline pending. *)
Definition well_timed (st : state) : Prop :=
  (∀ s, active st = Some s → session_ok s)
  ∧ handles_ok st
  ∧ (∀ t, t ∈ timers st → is_credit_pulse t = false →
       ∃ s, active st = Some s ∧ owned s t)
  ∧ (∀ s, active st = Some s → ∃ t, t ∈ timers st ∧ owned s t).

(** The [queue-update] messages. *)
Definition is_queue_update (e : effect) : bool :=
  match e with trigger (queue_update _ _ _ _) => true | _ => false end.

(** The calls of the GPIO driver. *)
Definition is_gpio (e : effect) : bool :=
  match e with gpio_pulse _ _ | gpio_releaseAll => true | _ => false end.

(** The turns that neither the player nor a timer takes: a new intent, a
    payment, the passing of time, the heartbeat, an admin request. *)
Definition from_outside (a : turn) : bool :=
  match a with
  | player_moves | player_grabs | timer_fires _ => false
  | _ => true
  end.

(** The turns that call [maybeStartNext] from outside a session: a
    confirmed payment and the admin routes. *)
Definition may_start (a : turn) : bool :=
  match a with
  | payment_confirmed _ _ | admin_request _ => true
  | _ => false
  end.

(** One line of the queue payload, made from a listed row. *)
Definition item_of (pos : Z) (q : Z * donation) : queue_item :=
  mkItem q.1 (name q.2) (credits_total q.2 - credits_used q.2) (status q.2) pos.

End Shape.

(* ===================================================================== *)
(** * The arcade page (client)                                            *)
(* ===================================================================== *)

Module Client.
Import Db Game.

(** [Array.prototype.findIndex]: the first index whose element passes the
    test, or -1. *)
Fixpoint findIndex {A} (f : A → bool) (l : list A) : Z :=
  match l with
  | [] => -1
  | x :: l' =>
      if f x then 0
      else let k := findIndex f l' in if k <? 0 then -1 else k + 1
  end.

(** [myQueuePosition]: [me] is [me.id], or [None] while [me] is not
    loaded; [queue] is the array of the last 'queue-update'. *)
Definition myQueuePosition (me : option Z) (queue : list queue_item) : option Z :=
  match me with
  | None => None
  | Some i =>
      let idx := findIndex (λ q, q_id q =? i) queue in
      if 0 <=? idx then Some (idx + 1) else None
  end.

(** [Math.max(0, Math.ceil((endsAt - Date.now()) / 1000))] on millisecond
    timestamps; the ceiling of [x / 1000] is minus the floor of
    [- x / 1000]. *)
Definition secondsLeft (endsAt now : Z) : Z :=
  Z.max 0 (- ((now - endsAt) / 1000)).

End Client.


(* ===================================================================== *)
(** * Numbers                                                             *)
(* ===================================================================== *)

Module Numbers.

(** The numbers of [game.js], [admin.js] and [db.js] are IEEE doubles (and
    64-bit integers inside SQLite). On the integers from -2^53 to 2^53 both
    are exact, and [+], [-], [<], [Math.min] and [Math.max] agree with
    [Z]: this is the range in which the embedding computes as the code
    does. *)
Definition safe_int (z : Z) : Prop := - 2 ^ 53 <= z <= 2 ^ 53.

(** [i++] on a loop counter that starts at 0. Below 2^53 the sum is exact;
    2^53 + 1 is not a double and the sum rounds (ties to even) back to
    2^53, so from there on the counter no longer moves. *)
Definition js_succ (i : Z) : Z := if i <? 2 ^ 53 then i + 1 else i.

End Numbers.

(* ===================================================================== *)
(** * Rows, column by column                                              *)
(* ===================================================================== *)

Module Rows.
Import Db.

(** [r'] has the columns of [r], but for [status]. *)
Definition same_but_status (r r' : donation) : Prop :=
  intent_id r' = intent_id r ∧ name r' = name r
  ∧ credits_total r' = credits_total r ∧ credits_used r' = credits_used r
  ∧ credits_pulsed r' = credits_pulsed r ∧ created_at r' = created_at r.


(** [r'] has the columns of [r], but for [credits_used]. *)
Definition same_but_used (r r' : donation) : Prop :=
  intent_id r' = intent_id r ∧ name r' = name r
  ∧ credits_total r' = credits_total r
  ∧ credits_pulsed r' = credits_pulsed r ∧ status r' = status r
  ∧ created_at r' = created_at r.


(** [r'] has the columns of [r], but for [credits_total]. *)
Definition same_but_total (r r' : donation) : Prop :=
  intent_id r' = intent_id r ∧ name r' = name r
  ∧ credits_used r' = credits_used r
  ∧ credits_pulsed r' = credits_pulsed r ∧ status r' = status r
  ∧ created_at r' = created_at r.

(** What a payment leaves of a row: [intent_id], [name], [credits_used]
    and [credits_pulsed]. *)
Definition same_but_payment (r r' : donation) : Prop :=
  intent_id r' = intent_id r ∧ name r' = name r
  ∧ credits_used r' = credits_used r ∧ credits_pulsed r' = credits_pulsed r.

End Rows.

(* ===================================================================== *)
(** * The whole rows of [donations]                                       *)
(* ===================================================================== *)

Module Columns.
Import Db.

(** The columns of [donations] that [Db.donation] leaves out. *)
Record rest := mkRest {
  mollie_payment_id : option string;
  email : option string;
  amount_requested_eur : Q;
  amount_eur : option Q;
  session_token : option string;
  updated_at : Z;
}.

(** The whole table: under each key the columns of [Db.donation] and the
    rest of the row. *)
Abbreviation whole := (gmap Z (donation * rest)).

(** The table that the scheduler sees. *)
Definition columns (w : whole) : table := fst <$> w.

Definition with_updated_at (now : Z) (x : rest) : rest :=
  mkRest (mollie_payment_id x) (email x) (amount_requested_eur x)
         (amount_eur x) (session_token x) now.

(** [x'] has the columns of [x], but for [updated_at]. *)
Definition same_but_updated_at (x x' : rest) : Prop :=
  mollie_payment_id x' = mollie_payment_id x ∧ email x' = email x
  ∧ amount_requested_eur x' = amount_requested_eur x
  ∧ amount_eur x' = amount_eur x ∧ session_token x' = session_token x.

(** [UPDATE donations SET ..., updated_at = ? WHERE id = ?], where [f] is
    what the SET clause does to the columns of [Db.donation] and [now] is
    the reading of [nowIso()]. *)
Definition update_id (f : donation → donation) (i now : Z) (w : whole) : whole :=
  alter (λ x, (f x.1, with_updated_at now x.2)) i w.

(** [w'] is [w] after one UPDATE of the row [i] at [now]: no other row
    changes, and of the rest of the row [i] only [updated_at], which
    becomes [now]. *)
Definition written_at (i now : Z) (w w' : whole) : Prop :=
  (∀ j, j ≠ i → w' !! j = w !! j)
  ∧ (∀ x, w !! i = Some x →
       ∃ x', w' !! i = Some x' ∧ updated_at x'.2 = now
             ∧ same_but_updated_at x.2 x'.2).

Definition setDonationStatus_whole (i : Z) (s : donation_status) (now : Z)
  (w : whole) : whole :=
  update_id (with_status s) i now w.

Definition requeueToEnd_whole (i now : Z) (w : whole) : whole :=
  update_id (λ r, with_created_at now (with_status Waiting r)) i now w.

Definition markCreditsPulsed_whole (i now : Z) (w : whole) : whole :=
  update_id (with_credits_pulsed true) i now w.

Definition useOneCredit_whole (i now : Z) (w : whole) : whole :=
  update_id (λ r, with_credits_used (used_plus_one r) r) i now w.

Definition adjustCredits_whole (i delta now : Z) (w : whole) : whole :=
  match w !! i with
  | None => w
  | Some row =>
      let nextTotal := Z.max 0 (credits_total row.1 + delta) in
      let clampedTotal := Z.max nextTotal (credits_used row.1) in
      update_id (with_credits_total clampedTotal) i now w
  end.

Definition setCreditsTotal_whole (i creditsTotal now : Z) (w : whole) : whole :=
  match w !! i with
  | None => w
  | Some row =>
      let nextTotal := Z.max 0 creditsTotal in
      let clampedTotal := Z.max nextTotal (credits_used row.1) in
      update_id (with_credits_total clampedTotal) i now w
  end.

Definition setCreditsUsed_whole (i creditsUsed now : Z) (w : whole) : whole :=
  match w !! i with
  | None => w
  | Some row =>
      let nextUsed := Z.max 0 (Z.min creditsUsed (credits_total row.1)) in
      update_id (with_credits_used nextUsed) i now w
  end.

Definition has_token (tok : string) (x : donation * rest) : bool :=
  bool_decide (session_token x.2 = Some tok).

(** [createIntent] on the whole table. [iid] and [tok] are the values
    drawn by [newIntentId] and [newSessionToken], [now] and [now'] the two
    readings of [nowIso()]. The INSERT throws, and writes nothing, when the
    unique index on [intent_id] or the one on [session_token] is hit:
    that is [None]. *)
Definition createIntent_whole (iid tok nm : string) (mail : option string)
  (amountRequestedEur : Q) (now now' sq : Z) (w : whole) : option (Z * whole) :=
  if existsb (λ kx, has_intent iid kx.2.1) (map_to_list w)
     || existsb (λ kx, has_token tok kx.2) (map_to_list w)
  then None
  else let k := fresh_key sq (columns w) in
       Some (k, <[k := (mkDonation iid nm 0 0 false Created now,
                        mkRest None mail amountRequestedEur None (Some tok) now')]> w).

(** The SET clause of [markIntentPaid]; [COALESCE] keeps a payment id that
    the row already has. *)
Definition paid (pid : string) (amountEur : Q) (creditsTotal now : Z)
  (x : donation * rest) : donation * rest :=
  (with_created_at now (with_status Waiting (with_credits_total creditsTotal x.1)),
   mkRest (Some (default pid (mollie_payment_id x.2))) (email x.2)
          (amount_requested_eur x.2) (Some amountEur) (session_token x.2) now).

(** The payment ids in the table, the NULLs left out. *)
Definition payment_ids (w : whole) : list string :=
  omap (λ kx, mollie_payment_id kx.2.2) (map_to_list w).

(** [markIntentPaid] on the whole table. The UPDATE throws, and writes
    nothing, when it would give two rows the same payment id (the unique
    index on [mollie_payment_id]): that is [None]. *)
Definition markIntentPaid_whole (iid pid : string) (amountEur : Q)
  (creditsTotal now : Z) (w : whole) : option whole :=
  let w' := (λ x, if has_intent iid x.1
                  then paid pid amountEur creditsTotal now x else x) <$> w in
  if bool_decide (NoDup (payment_ids w')) then Some w' else None.

End Columns.

(* ===================================================================== *)
(** * The activation step, run with its pulse loop                        *)
(* ===================================================================== *)

Module Run.
Import Db Game Numbers.

(** The pulse loop of [maybeStartNext] as [game.js] runs it,
    [for (let i = 0; i < creditsRemaining; i++) setTimeout(pulse, i * 400)],
    with one unit of fuel for every test of the loop condition. For
    [creditsRemaining <= 2^53] it builds the timers of [schedule_pulses]
    (proved below as [pulse_loop_runs]); above, the counter stops at 2^53
    and the loop does not end. *)
Fixpoint pulse_loop (fuel : nat) (i creditsRemaining : Z) (st : state)
  : option state :=
  match fuel with
  | O => None
  | S fuel' =>
      if i <? creditsRemaining
      then pulse_loop fuel' (js_succ i) creditsRemaining
             (setTimeout pulse_credit (i * 400) st).2
      else Some st
  end.

(** [activate] with the pulse loop run on [fuel]. *)
Definition activate_run (fuel : nat) (nid : Z) (next : donation) (st : state)
  : option state :=
  let creditsRemaining := remaining next in
  let st := set_active
      (Some (mkSession nid creditsRemaining None false None
                       (clock st + FIRST_MOVE_MS) None false false 0 false)) st in
  let st := set_db (setDonationStatus nid Active (db st)) st in
  let pulsed :=
    if negb (credits_pulsed next) && (0 <? creditsRemaining)
    then match pulse_loop fuel 0 creditsRemaining st with
         | Some st' => Some (set_db (markCreditsPulsed nid (db st')) st')
         | None => None
         end
    else Some st in
  match pulsed with
  | None => None
  | Some st =>
      let st := scheduleFirstMoveTimeout st in
      let st := broadcastQueue st in
      Some (safeTrigger
              (player_start nid (name next) creditsRemaining
                            (from_option firstMoveDeadline 0 (active st)))
              st)
  end.

(** [maybeStartNext] on [fuel]: a self-call and a test of the loop
    condition cost one unit each. *)
Fixpoint maybeStartNext_run (fuel : nat) (st : state) : option state :=
  match fuel with
  | O => None
  | S fuel' =>
      match active st with
      | Some _ => Some st
      | None =>
          let queueNow := listQueue (db st) in
          let st1 := set_db (sweep queueNow (db st)) st in
          let freshQueue := listQueue (db st1) in
          match List.find (λ q, is_waiting q.2) freshQueue with
          | None => Some (broadcastQueue st1)
          | Some (nid, next) =>
              if remaining next <=? 0
              then maybeStartNext_run fuel'
                     (set_db (setDonationStatus nid Done (db st1)) st1)
              else activate_run fuel' nid next st1
          end
      end
  end.

End Run.

(* ===================================================================== *)
(** * Which turn arms credit pulses                                        *)
(* ===================================================================== *)

Module Arming.
Import Db Game System Props.



End Arming.

(* ===================================================================== *)
(** * More sample runs                                                    *)
(* ===================================================================== *)

Module Samples.
Import Db Game Admin System Props.


(** Ann pays 5 euros and the admin sets her used credits to 3. *)
Definition ann_used_three : state :=
  run [intent_created "a" "Ann"; payment_confirmed "a" (5 # 1);
       admin_request (credits_set_used 1 3)]
      (boot ∅ 0 1000).

(** A table found at start-up: Walt waits with one credit. *)
Definition walt_waiting : table :=
  list_to_map [(1, mkDonation "w" "Walt" 1 0 false Waiting 10)].

(** The credits the admin gives Walt: 2^53 + 2, the first double above
    2^53. *)
Definition too_many : Z := 2 ^ 53 + 2.

End Samples.
(* ===================================================================== *)
(** * Facts about the table                                               *)
(* ===================================================================== *)

Module DbFacts.
Import Db Props.

Lemma elem_of_List_filter {A} (f : A → bool) (l : list A) (x : A) :
  x ∈ List.filter f l ↔ x ∈ l ∧ f x = true.
Proof. rewrite !list_elem_of_In. apply filter_In. Qed.

Lemma List_filter_length_perm {A} (f : A → bool) (l1 l2 : list A) :
  l1 ≡ₚ l2 → length (List.filter f l1) = length (List.filter f l2).
Proof.
  induction 1 as [|x l1 l2 _ IH|x y l|l1 l2 l3 _ IH1 _ IH2]; simpl.
  - reflexivity.
  - destruct (f x); simpl; congruence.
  - destruct (f x), (f y); reflexivity.
  - congruence.
Qed.

(** ** Status updates by key *)

Lemma lookup_setDonationStatus (t : table) i j s :
  setDonationStatus i s t !! j
  = if decide (i = j) then with_status s <$> t !! j else t !! j.
Proof.
  unfold setDonationStatus. rewrite lookup_alter.
  destruct (decide (i = j)); subst; reflexivity.
Qed.

(** A loop that sets one status on the rows of a snapshot that satisfy a
    test: what a later lookup sees. *)
Lemma lookup_status_loop (c : donation → bool) (s : donation_status)
      (l : list (Z * donation)) (t : table) (j : Z) :
  foldl (λ t q, if c q.2 then setDonationStatus q.1 s t else t) t l !! j
  = if existsb (λ q, (q.1 =? j) && c q.2) l
    then with_status s <$> t !! j else t !! j.
Proof.
  revert t. induction l as [|q l IH]; intros t; simpl; [reflexivity|].
  rewrite IH. destruct (c q.2) eqn:Hc.
  - rewrite lookup_setDonationStatus.
    destruct (Z.eqb_spec q.1 j) as [->|Hne]; simpl.
    + rewrite decide_True by reflexivity.
      destruct (t !! j); simpl; destruct (existsb _ l); reflexivity.
    + rewrite decide_False by assumption. reflexivity.
  - rewrite andb_false_r. reflexivity.
Qed.

(** ** The queue listing *)

Lemma row_lt_irrefl x : ¬ row_lt x x.
Proof. unfold row_lt. lia. Qed.

Lemma row_lt_trans x y z : row_lt x y → row_lt y z → row_lt x z.
Proof. unfold row_lt. lia. Qed.

Lemma row_leb_true x y : row_leb x y = true → x.1 ≠ y.1 → row_lt x y.
Proof. unfold row_leb, row_lt. intros H Hne. lia. Qed.

Lemma row_leb_false x y : row_leb x y = false → row_lt y x.
Proof. unfold row_leb, row_lt. intros H. lia. Qed.

Lemma insert_row_perm x l : insert_row x l ≡ₚ x :: l.
Proof.
  induction l as [|y l IH]; simpl; [reflexivity|].
  destruct (row_leb x y); [reflexivity|].
  rewrite IH. apply Permutation_swap.
Qed.

Lemma order_by_created_at_perm l : order_by_created_at l ≡ₚ l.
Proof.
  induction l as [|x l IH]; simpl; [reflexivity|].
  rewrite insert_row_perm. by rewrite IH.
Qed.

Lemma insert_row_sorted x l :
  x.1 ∉ l.*1 → StronglySorted row_lt l → StronglySorted row_lt (insert_row x l).
Proof.
  induction l as [|y l IH]; simpl; intros Hx Hs.
  - repeat constructor.
  - apply StronglySorted_inv in Hs as [Hs Hy].
    rewrite not_elem_of_cons in Hx. destruct Hx as [Hxy Hx].
    destruct (row_leb x y) eqn:Hle.
    + apply row_leb_true in Hle; [|assumption].
      constructor; [by constructor|].
      constructor; [assumption|].
      eapply Forall_impl; [exact Hy|]. intros z Hz. by eapply row_lt_trans.
    + apply row_leb_false in Hle.
      constructor; [by apply IH|].
      rewrite insert_row_perm. by constructor.
Qed.

Lemma order_by_created_at_sorted l :
  NoDup l.*1 → StronglySorted row_lt (order_by_created_at l).
Proof.
  induction l as [|x l IH]; simpl; intros Hnd; [constructor|].
  apply NoDup_cons in Hnd as [Hx Hnd].
  apply insert_row_sorted; [|by apply IH].
  by rewrite order_by_created_at_perm.
Qed.

Lemma NoDup_fst_List_filter {A B} (f : A * B → bool) (l : list (A * B)) :
  NoDup l.*1 → NoDup (List.filter f l).*1.
Proof.
  induction l as [|x l IH]; simpl; intros Hnd; [constructor|].
  apply NoDup_cons in Hnd as [Hx Hnd].
  destruct (f x); simpl; [|by apply IH].
  apply NoDup_cons. split; [|by apply IH].
  intros Hin. apply Hx.
  apply list_elem_of_fmap in Hin as [y [-> Hy]].
  apply elem_of_List_filter in Hy as [Hy _].
  apply list_elem_of_fmap. by exists y.
Qed.

Lemma listQueue_sorted (t : table) : StronglySorted row_lt (listQueue t).
Proof.
  apply order_by_created_at_sorted, NoDup_fst_List_filter, NoDup_fst_map_to_list.
Qed.

Lemma elem_of_listQueue (t : table) i r :
  (i, r) ∈ listQueue t ↔ t !! i = Some r ∧ in_queue r = true.
Proof.
  unfold listQueue. rewrite order_by_created_at_perm, elem_of_List_filter.
  by rewrite elem_of_map_to_list.
Qed.

Lemma sorted_unique (l1 l2 : list (Z * donation)) :
  StronglySorted row_lt l1 → StronglySorted row_lt l2 →
  (∀ x, x ∈ l1 ↔ x ∈ l2) → l1 = l2.
Proof.
  revert l2. induction l1 as [|x l1 IH]; intros l2 H1 H2 Heq.
  - destruct l2 as [|y l2]; [reflexivity|].
    exfalso. eapply not_elem_of_nil, Heq. left.
  - destruct l2 as [|y l2].
    { exfalso. eapply not_elem_of_nil, Heq. left. }
    apply StronglySorted_inv in H1 as [H1 Hx].
    apply StronglySorted_inv in H2 as [H2 Hy].
    rewrite Forall_forall in Hx, Hy.
    assert (x = y) as ->.
    { assert (Hxin : x ∈ y :: l2) by (apply Heq; left).
      assert (Hyin : y ∈ x :: l1) by (apply Heq; left).
      apply elem_of_cons in Hxin as [?|Hxin]; [assumption|].
      apply elem_of_cons in Hyin as [?|Hyin]; [by symmetry|].
      exfalso. apply (row_lt_irrefl x).
      eapply row_lt_trans; [apply Hx, Hyin | apply Hy, Hxin]. }
    f_equal. apply IH; [assumption..|].
    intros z. split; intros Hz.
    + assert (Hz' : z ∈ y :: l2) by (apply Heq; by right).
      apply elem_of_cons in Hz' as [->|?]; [|assumption].
      exfalso. by apply (row_lt_irrefl y), Hx.
    + assert (Hz' : z ∈ y :: l1) by (apply Heq; by right).
      apply elem_of_cons in Hz' as [->|?]; [|assumption].
      exfalso. by apply (row_lt_irrefl y), Hy.
Qed.

Lemma List_filter_sorted (f : Z * donation → bool) l :
  StronglySorted row_lt l → StronglySorted row_lt (List.filter f l).
Proof.
  induction 1 as [|x l Hs IH Hx]; simpl; [constructor|].
  destruct (f x); [|assumption].
  constructor; [assumption|].
  rewrite Forall_forall in *. intros y Hy.
  apply elem_of_List_filter in Hy as [Hy _]. by apply Hx.
Qed.

(** The listing of a table whose queued rows are a part of those of
    another is the other listing with the rest filtered out: the order of
    the rows that stay is kept. *)
Lemma listQueue_filter (t t' : table) (keep : Z * donation → bool) :
  (∀ i r, t' !! i = Some r ∧ in_queue r = true
          ↔ t !! i = Some r ∧ in_queue r = true ∧ keep (i, r) = true) →
  listQueue t' = List.filter keep (listQueue t).
Proof.
  intros H. apply sorted_unique.
  - apply listQueue_sorted.
  - apply List_filter_sorted, listQueue_sorted.
  - intros [i r]. rewrite elem_of_List_filter, !elem_of_listQueue, H. tauto.
Qed.

End DbFacts.

(* ===================================================================== *)
(** * Facts about the activation step                                     *)
(* ===================================================================== *)

Module GameFacts.
Import Db Game Props DbFacts.

(** ** The number of waiting rows *)

Lemma alter_as_insert (f : donation → donation) (t : table) i r :
  t !! i = Some r → alter f i t = <[i := f r]> (delete i t).
Proof.
  intros H. apply map_eq. intros j. rewrite lookup_alter.
  destruct (decide (i = j)) as [->|Hne].
  - by rewrite lookup_insert_eq, H.
  - by rewrite lookup_insert_ne, lookup_delete_ne.
Qed.

Lemma waiting_count_insert (t : table) i r :
  t !! i = None →
  waiting_count (<[i := r]> t)
  = ((if is_waiting r then 1 else 0) + waiting_count t)%nat.
Proof.
  intros H. unfold waiting_count.
  rewrite (List_filter_length_perm _ _ _ (map_to_list_insert t i r H)).
  simpl. destruct (is_waiting r); reflexivity.
Qed.

Lemma waiting_count_alter (f : donation → donation) (t : table) i r :
  t !! i = Some r →
  ((if is_waiting r then 1 else 0) + waiting_count (alter f i t)
   = (if is_waiting (f r) then 1 else 0) + waiting_count t)%nat.
Proof.
  intros H. rewrite (alter_as_insert f t i r H).
  rewrite <- (insert_delete_id t i r H) at 2.
  rewrite !waiting_count_insert by apply lookup_delete_eq. lia.
Qed.

Lemma waiting_count_done_le (t : table) i :
  (waiting_count (setDonationStatus i Done t) ≤ waiting_count t)%nat.
Proof.
  unfold setDonationStatus. destruct (t !! i) as [r|] eqn:H.
  - pose proof (waiting_count_alter (with_status Done) t i r H) as Hc.
    change (is_waiting (with_status Done r)) with false in Hc.
    destruct (is_waiting r); lia.
  - by rewrite alter_id'.
Qed.

Lemma waiting_count_done_lt (t : table) i r :
  t !! i = Some r → is_waiting r = true →
  (waiting_count (setDonationStatus i Done t) < waiting_count t)%nat.
Proof.
  intros H Hw. unfold setDonationStatus.
  pose proof (waiting_count_alter (with_status Done) t i r H) as Hc.
  change (is_waiting (with_status Done r)) with false in Hc.
  rewrite Hw in Hc. lia.
Qed.

Lemma waiting_count_sweep l (t : table) :
  (waiting_count (sweep l t) ≤ waiting_count t)%nat.
Proof.
  unfold sweep. revert t. induction l as [|q l IH]; intros t; simpl; [lia|].
  etransitivity; [apply IH|].
  destruct (_ && _); [apply waiting_count_done_le | lia].
Qed.

(** ** The clean-up loop *)

Lemma is_waiting_in_queue r : is_waiting r = true → in_queue r = true.
Proof. unfold is_waiting, in_queue. by destruct (status r). Qed.

Lemma lookup_sweep (t : table) j :
  sweep (listQueue t) t !! j = swept <$> t !! j.
Proof.
  unfold sweep.
  rewrite (lookup_status_loop (λ d, is_waiting d && (remaining d <=? 0)) Done).
  destruct (existsb _ _) eqn:Hex.
  - apply existsb_exists in Hex as [[i r] [Hin Hc]]. simpl in Hc.
    apply list_elem_of_In, elem_of_listQueue in Hin as [Hi _].
    apply andb_prop in Hc as [Heq Hc]. apply Z.eqb_eq in Heq. subst i.
    rewrite Hi. simpl. unfold swept. by rewrite Hc.
  - destruct (t !! j) as [r|] eqn:Hj; [|reflexivity]. simpl. f_equal.
    unfold swept. destruct (is_waiting r && (remaining r <=? 0)) eqn:Hc;
      [|reflexivity].
    exfalso. apply not_true_iff_false in Hex. apply Hex.
    apply existsb_exists. exists (j, r). split.
    + apply list_elem_of_In, elem_of_listQueue. split; [assumption|].
      apply is_waiting_in_queue. by apply andb_prop in Hc as [? _].
    + simpl. by rewrite Z.eqb_refl.
Qed.

Lemma find_listQueue (t : table) (f : Z * donation → bool) i r :
  List.find f (listQueue t) = Some (i, r) →
  t !! i = Some r ∧ in_queue r = true ∧ f (i, r) = true.
Proof.
  intros H. apply find_some in H as [Hin Hf].
  apply list_elem_of_In, elem_of_listQueue in Hin as [? ?]. auto.
Qed.

(** After the clean-up loop every waiting row has credits left. *)
Lemma sweep_waiting_has_credits (t : table) i r :
  sweep (listQueue t) t !! i = Some r → is_waiting r = true → 0 < remaining r.
Proof.
  rewrite lookup_sweep. intros H Hw.
  apply fmap_Some in H as [r0 [_ ->]]. unfold swept in Hw |- *.
  destruct (is_waiting r0 && (remaining r0 <=? 0)) eqn:Hc; [discriminate|].
  rewrite Hw in Hc. simpl in Hc. lia.
Qed.

(** ** [maybeStartNext] without the fuel *)

Lemma pick_next_spec st nid next :
  pick_next st = Some (nid, next) →
  db (cleaned st) !! nid = Some next ∧ status next = Waiting ∧ 0 < remaining next.
Proof.
  intros H. apply find_listQueue in H as (Hl & _ & Hw). simpl in Hw.
  split; [assumption|]. split.
  - unfold is_waiting in Hw. by destruct (status next).
  - exact (sweep_waiting_has_credits (db st) nid next Hl Hw).
Qed.

Lemma maybeStartNext_fuel_unfold fuel st :
  maybeStartNext_fuel (S fuel) st
  = Some match active st with
         | Some _ => st
         | None =>
             match pick_next st with
             | None => broadcastQueue (cleaned st)
             | Some (nid, next) => activate nid next (cleaned st)
             end
         end.
Proof.
  pose proof (pick_next_spec st) as Hspec.
  unfold pick_next, cleaned in *. simpl in *.
  destruct (active st); [reflexivity|].
  destruct (List.find _ _) as [[nid next]|]; [|reflexivity].
  destruct (Hspec nid next eq_refl) as (_ & _ & Hr).
  destruct (Z.leb_spec (remaining next) 0); [lia|reflexivity].
Qed.

(** [maybeStartNext] as one reads it, the unreachable self-call left out. *)
Lemma maybeStartNext_unfold st :
  maybeStartNext st
  = match active st with
    | Some _ => st
    | None =>
        match pick_next st with
        | None => broadcastQueue (cleaned st)
        | Some (nid, next) => activate nid next (cleaned st)
        end
    end.
Proof. unfold maybeStartNext. by rewrite maybeStartNext_fuel_unfold. Qed.

(** The fuel of [maybeStartNext] is enough, by the argument of the source:
    each self-call comes after a waiting row was marked done. *)
Lemma maybeStartNext_fuel_total fuel st :
  (waiting_count (db st) < fuel)%nat → is_Some (maybeStartNext_fuel fuel st).
Proof.
  revert st. induction fuel as [|fuel IH]; intros st Hlt; [lia|].
  simpl. destruct (active st); [by eexists|].
  destruct (List.find _ _) as [[nid next]|] eqn:Hf; [|by eexists].
  destruct (remaining next <=? 0); [|by eexists].
  apply IH. simpl.
  apply find_listQueue in Hf as (Hl & _ & Hw). simpl in Hl, Hw.
  pose proof (waiting_count_done_lt _ _ _ Hl Hw).
  pose proof (waiting_count_sweep (listQueue (db st)) (db st)). lia.
Qed.

Lemma maybeStartNext_fuel_mono fuel k st st' :
  maybeStartNext_fuel fuel st = Some st' →
  maybeStartNext_fuel (fuel + k) st = Some st'.
Proof.
  revert st. induction fuel as [|fuel IH]; intros st; [discriminate|].
  simpl. destruct (active st); [done|].
  destruct (List.find _ _) as [[nid next]|]; [|done].
  destruct (remaining next <=? 0); [|done]. apply IH.
Qed.

(** ** The two loops of boot recovery *)

Lemma lookup_demote_actives (t : table) i :
  demote_actives t !! i = demoted <$> t !! i.
Proof.
  unfold demote_actives.
  pose proof (lookup_status_loop (λ _, true) Waiting
                (List.filter (λ kr, bool_decide (status kr.2 = Active)) (map_to_list t))
                t i) as H.
  simpl in H. rewrite H. clear H.
  destruct (existsb _ _) eqn:Hex.
  - apply existsb_exists in Hex as [[j r] [Hin Hc]]. simpl in Hc.
    rewrite andb_true_r in Hc. apply Z.eqb_eq in Hc. subst j.
    apply list_elem_of_In, elem_of_List_filter in Hin as [Hin Hs].
    apply elem_of_map_to_list in Hin. rewrite Hin. simpl.
    unfold demoted. simpl in Hs. by rewrite Hs.
  - destruct (t !! i) as [r|] eqn:Hi; [|reflexivity]. simpl. f_equal.
    unfold demoted. destruct (bool_decide (status r = Active)) eqn:Hs;
      [|reflexivity].
    exfalso. apply not_true_iff_false in Hex. apply Hex.
    apply existsb_exists. exists (i, r). split.
    + apply list_elem_of_In, elem_of_List_filter. split; [|assumption].
      by apply elem_of_map_to_list.
    + simpl. by rewrite Z.eqb_refl.
Qed.

Lemma lookup_finish_empty_waitings (t : table) i :
  finish_empty_waitings t !! i = finished <$> t !! i.
Proof.
  unfold finish_empty_waitings.
  rewrite (lookup_status_loop (λ d, remaining d <=? 0) Done).
  destruct (existsb _ _) eqn:Hex.
  - apply existsb_exists in Hex as [[j r] [Hin Hc]]. simpl in Hc.
    apply andb_prop in Hc as [Hj Hc]. apply Z.eqb_eq in Hj. subst j.
    apply list_elem_of_In, elem_of_List_filter in Hin as [Hin Hs].
    apply elem_of_map_to_list in Hin. rewrite Hin. simpl.
    unfold finished. simpl in Hs. by rewrite Hs, Hc.
  - destruct (t !! i) as [r|] eqn:Hi; [|reflexivity]. simpl. f_equal.
    unfold finished.
    destruct (bool_decide (status r = Waiting)) eqn:Hs; [|reflexivity].
    destruct (remaining r <=? 0) eqn:Hc; [|reflexivity].
    exfalso. apply not_true_iff_false in Hex. apply Hex.
    apply existsb_exists. exists (i, r). split.
    + apply list_elem_of_In, elem_of_List_filter. split; [|assumption].
      by apply elem_of_map_to_list.
    + simpl. by rewrite Z.eqb_refl, Hc.
Qed.

Lemma lookup_recoverAfterRestart (t : table) i :
  recoverAfterRestart t !! i = recovered <$> t !! i.
Proof.
  unfold recoverAfterRestart, recovered.
  rewrite lookup_finish_empty_waitings, lookup_demote_actives.
  by destruct (t !! i).
Qed.

Lemma recovered_not_active r : status (recovered r) ≠ Active.
Proof.
  unfold recovered, finished, demoted.
  destruct (bool_decide (status r = Active)) eqn:H1; simpl.
  - by destruct (_ <=? 0).
  - apply bool_decide_eq_false in H1.
    destruct (bool_decide (status r = Waiting) && _); simpl; [discriminate|done].
Qed.

End GameFacts.

(* ===================================================================== *)
(** * Steps that start and end no session                                 *)
(* ===================================================================== *)

Module StepFacts.
Import Db Game Props DbFacts GameFacts.

(** ** Tables *)

Lemma table_step_refl t : table_step t t.
Proof. intros i r H. exists r. auto. Qed.

Lemma table_step_trans t1 t2 t3 :
  table_step t1 t2 → table_step t2 t3 → table_step t1 t3.
Proof.
  intros H12 H23 i r3 H3.
  destruct (H23 i r3 H3) as (r2 & H2 & Hp2 & Hs2).
  destruct (H12 i r2 H2) as (r1 & H1 & Hp1 & Hs1).
  exists r1. auto.
Qed.

Lemma table_step_alter (f : donation → donation) (t : table) i :
  (∀ r, credits_pulsed r = true → credits_pulsed (f r) = true) →
  (∀ r, status (f r) = Active → status r = Active) →
  table_step t (alter f i t).
Proof.
  intros Hp Hs j r' H.
  apply lookup_alter_Some in H as [[-> [r [Hr ->]]]|[_ H]]; exists r || exists r'; auto.
Qed.

Lemma table_step_delete (t : table) i : table_step t (delete i t).
Proof.
  intros j r' H. apply lookup_delete_Some in H as [_ H]. exists r'. auto.
Qed.

Lemma table_step_empty (t : table) : table_step t ∅.
Proof. intros j r' H. by rewrite lookup_empty in H. Qed.

Lemma table_step_setDonationStatus (t : table) i s :
  s ≠ Active → table_step t (setDonationStatus i s t).
Proof. intros Hs. apply table_step_alter; [auto|]. simpl. congruence. Qed.

Lemma table_step_requeueToEnd (t : table) i now :
  table_step t (requeueToEnd i now t).
Proof. apply table_step_alter; [auto|]. simpl. discriminate. Qed.

Lemma table_step_useOneCredit (t : table) i : table_step t (useOneCredit i t).
Proof. apply table_step_alter; auto. Qed.

Lemma table_step_adjustCredits (t : table) i delta :
  table_step t (adjustCredits i delta t).
Proof.
  unfold adjustCredits. destruct (getDonationById i t);
    [apply table_step_alter; auto | apply table_step_refl].
Qed.

Lemma table_step_setCreditsTotal (t : table) i n :
  table_step t (setCreditsTotal i n t).
Proof.
  unfold setCreditsTotal. destruct (getDonationById i t);
    [apply table_step_alter; auto | apply table_step_refl].
Qed.

Lemma table_step_setCreditsUsed (t : table) i n :
  table_step t (setCreditsUsed i n t).
Proof.
  unfold setCreditsUsed. destruct (getDonationById i t);
    [apply table_step_alter; auto | apply table_step_refl].
Qed.

Lemma table_step_markIntentPaid (t : table) iid n now :
  table_step t (markIntentPaid iid n now t).
Proof.
  intros j r' H. unfold markIntentPaid in H.
  apply lookup_fmap_Some in H as (r & <- & Hr). exists r.
  split; [assumption|]. destruct (has_intent iid r); simpl; [|auto].
  split; [auto|discriminate].
Qed.

Lemma table_step_sweep l (t : table) : table_step t (sweep l t).
Proof.
  unfold sweep. revert t. induction l as [|q l IH]; intros t; simpl.
  - apply table_step_refl.
  - eapply table_step_trans; [|apply IH].
    destruct (_ && _); [by apply table_step_setDonationStatus|apply table_step_refl].
Qed.

(** ** Logs *)

Lemma open_session_neutral new l :
  forallb neutral new = true → open_session (new ++ l) = open_session l.
Proof.
  induction new as [|e new IH]; simpl; [done|].
  intros H. apply andb_prop in H as [He H].
  destruct e as [| |[]]; try discriminate; auto.
Qed.

Lemma sessions_ok_neutral new l :
  forallb neutral new = true → sessions_ok (new ++ l) = sessions_ok l.
Proof.
  induction new as [|e new IH]; simpl; [done|].
  intros H. apply andb_prop in H as [He H].
  destruct e as [| |[]]; try discriminate; auto.
Qed.

(** ** States *)

Lemma quiet_refl st : quiet st st.
Proof.
  split; [done|]. split; [apply table_step_refl|]. split; [by exists []|done].
Qed.

Lemma quiet_trans st1 st2 st3 : quiet st1 st2 → quiet st2 st3 → quiet st1 st3.
Proof.
  intros (Hh1 & Ht1 & (n1 & Hl1 & Hn1) & Hs1) (Hh2 & Ht2 & (n2 & Hl2 & Hn2) & Hs2).
  split; [congruence|]. split; [by eapply table_step_trans|].
  split; [|congruence].
  exists (n2 ++ n1). split.
  - by rewrite Hl2, Hl1, app_assoc.
  - rewrite forallb_app. by rewrite Hn1, Hn2.
Qed.

Lemma consistent_quiet st st' : consistent st → quiet st st' → consistent st'.
Proof.
  intros (Hrows & Hok & Hopen) (Hh & Ht & (new & Hl & Hn) & _).
  split; [|split].
  - intros i r' Hr' Hs. destruct (Ht i r' Hr') as (r & Hr & _ & Hact).
    rewrite Hh. eauto.
  - by rewrite Hl, sessions_ok_neutral.
  - by rewrite Hl, open_session_neutral, Hh.
Qed.

(** A step that changes the table by a [table_step], adds neutral effects
    and keeps the holder is quiet. *)
Lemma quiet_intro st st' new :
  holder st' = holder st → table_step (db st) (db st') →
  log st' = new ++ log st → forallb neutral new = true →
  db_seq st' = db_seq st → quiet st st'.
Proof. intros. split; [done|]. split; [done|]. split; [by exists new|done]. Qed.

Lemma quiet_set_db t st : table_step (db st) t → quiet st (set_db t st).
Proof. intros. by apply (quiet_intro _ _ []). Qed.

Lemma quiet_emit e st : neutral e = true → quiet st (emit e st).
Proof.
  intros He. apply (quiet_intro _ _ [e]); [done|apply table_step_refl|done| |done].
  simpl. by rewrite He.
Qed.

Lemma quiet_broadcastQueue st : quiet st (broadcastQueue st).
Proof. by apply quiet_emit. Qed.

Lemma quiet_set_clock t st : quiet st (set_clock t st).
Proof. apply (quiet_intro _ _ []); [done|apply table_step_refl|done|done|done]. Qed.

Lemma quiet_clearTimeout h st : quiet st (clearTimeout h st).
Proof. apply (quiet_intro _ _ []); [done|apply table_step_refl|done|done|done]. Qed.

Lemma quiet_setTimeout cb d st : quiet st (setTimeout cb d st).2.
Proof. apply (quiet_intro _ _ []); [done|apply table_step_refl|done|done|done]. Qed.

Lemma quiet_set_active s st :
  Some (donationId s) = holder st → quiet st (set_active (Some s) st).
Proof.
  intros H. apply (quiet_intro _ _ []);
    [by rewrite <- H|apply table_step_refl|done|done|done].
Qed.

Lemma quiet_scheduleFirstMoveTimeout st : quiet st (scheduleFirstMoveTimeout st).
Proof.
  unfold scheduleFirstMoveTimeout. destruct (active st) as [s|] eqn:Ha;
    [|apply quiet_refl].
  apply (quiet_intro _ _ []).
  - unfold holder. rewrite Ha. by destruct (firstMoveTimer s).
  - destruct (firstMoveTimer s); apply table_step_refl.
  - by destruct (firstMoveTimer s).
  - done.
  - by destruct (firstMoveTimer s).
Qed.

Lemma quiet_startCreditTimerIfNeeded st : quiet st (startCreditTimerIfNeeded st).
Proof.
  unfold startCreditTimerIfNeeded. destruct (active st) as [s|] eqn:Ha;
    [|apply quiet_refl].
  destruct (timerStarted s); [apply quiet_refl|].
  apply (quiet_intro _ _
           [trigger (credit_start (donationId s)
                       (Some (clock st + CREDIT_MS)) (creditsRemaining s))]).
  - unfold holder. rewrite Ha. by destruct (firstMoveTimer s).
  - destruct (firstMoveTimer s); apply table_step_refl.
  - by destruct (firstMoveTimer s).
  - done.
  - by destruct (firstMoveTimer s).
Qed.

Lemma quiet_consumeOneCreditSafely st : quiet st (consumeOneCreditSafely st).2.
Proof.
  unfold consumeOneCreditSafely. destruct (active st) as [s|] eqn:Ha;
    [|apply quiet_refl].
  destruct (creditConsumed s); [apply quiet_refl|].
  apply (quiet_intro _ _ []); simpl.
  - unfold holder. by rewrite Ha.
  - apply table_step_useOneCredit.
  - done.
  - done.
  - done.
Qed.

(** ** Frames of the timer functions *)

Lemma schedule_pulses_frame n st :
  ∃ new h, schedule_pulses n st
           = mkState (db st) (db_seq st) (active st) (new ++ timers st) h
                     (clock st) (log st)
           ∧ forallb is_credit_pulse new = true
           ∧ length new = Z.to_nat n.
Proof.
  unfold schedule_pulses. rewrite <- (length_seqZ 0 n).
  generalize (seqZ 0 n). intros l. revert st.
  induction l as [|i l IH]; intros st; cbn [foldl].
  - exists [], (next_handle st). by destruct st.
  - destruct (IH (setTimeout pulse_credit (i * 400) st).2)
      as (new & h & -> & Hp & Hlen).
    exists (new ++ [mkTimer (next_handle st) (clock st + i * 400) pulse_credit]), h.
    simpl. rewrite <- app_assoc. split; [done|]. split.
    + rewrite forallb_app, Hp. done.
    + rewrite length_app, Hlen. simpl. lia.
Qed.

Lemma scheduleFirstMoveTimeout_eq st s :
  active st = Some s →
  scheduleFirstMoveTimeout st
  = mkState (db st) (db_seq st)
      (Some (with_firstMove (clock st + FIRST_MOVE_MS) (Some (next_handle st)) s))
      (mkTimer (next_handle st) (clock st + FIRST_MOVE_MS) first_move_timeout
         :: timers (clear_if_set (firstMoveTimer s) st))
      (S (next_handle st)) (clock st) (log st).
Proof.
  intros Ha. unfold scheduleFirstMoveTimeout. rewrite Ha.
  by destruct (firstMoveTimer s).
Qed.

(** ** [activate] *)

(** The state after [activate]: the pending credit pulses [new] are there
    only when the row was not yet pulsed. *)
Lemma activate_parts nid next st :
  ∃ new h,
    activate nid next st
    = mkState (activated_table nid next (db st)) (db_seq st)
        (Some (mkSession nid (remaining next) None false None
                         (clock st + FIRST_MOVE_MS) (Some h) false false 0 false))
        (mkTimer h (clock st + FIRST_MOVE_MS) first_move_timeout
           :: new ++ timers st)
        (S h) (clock st)
        (trigger (player_start nid (name next) (remaining next)
                    (clock st + FIRST_MOVE_MS))
         :: trigger (queue_update (or_null (Some nid)) None
                       (or_null (Some (clock st + FIRST_MOVE_MS)))
                       (queue_items 0 (listQueue (activated_table nid next (db st)))))
         :: log st)
    ∧ forallb is_credit_pulse new = true
    ∧ length new
      = if negb (credits_pulsed next) && (0 <? remaining next)
        then Z.to_nat (remaining next) else O.
Proof.
  unfold activate, activated_table. cbv zeta.
  destruct (negb (credits_pulsed next) && (0 <? remaining next)).
  - destruct (schedule_pulses_frame (remaining next)
       (set_db (setDonationStatus nid Active (db (set_active
          (Some (mkSession nid (remaining next) None false None
                   (clock st + FIRST_MOVE_MS) None false false 0 false)) st)))
          (set_active
             (Some (mkSession nid (remaining next) None false None
                      (clock st + FIRST_MOVE_MS) None false false 0 false)) st)))
      as (new & h & -> & Hp & Hlen).
    simpl. by exists new, h.
  - simpl. by exists [], (next_handle st).
Qed.

Lemma activate_db nid next st :
  db (activate nid next st) = activated_table nid next (db st).
Proof. by destruct (activate_parts nid next st) as (new & h & -> & _). Qed.

Lemma activate_holder nid next st : holder (activate nid next st) = Some nid.
Proof. by destruct (activate_parts nid next st) as (new & h & -> & _). Qed.

Lemma activate_log nid next st :
  ∃ e, neutral e = true
       ∧ log (activate nid next st)
         = trigger (player_start nid (name next) (remaining next)
                      (clock st + FIRST_MOVE_MS)) :: e :: log st.
Proof.
  destruct (activate_parts nid next st) as (new & h & -> & _). simpl.
  eexists. split; [|reflexivity]. reflexivity.
Qed.

(** ** Every function of the scheduler evolves the state *)

Lemma flags_kept_refl t : flags_kept t t.
Proof. intros i r H. exists r. auto. Qed.

Lemma flags_kept_trans t1 t2 t3 :
  flags_kept t1 t2 → flags_kept t2 t3 → flags_kept t1 t3.
Proof.
  intros H12 H23 i r3 H3.
  destruct (H23 i r3 H3) as (r2 & H2 & Hp2).
  destruct (H12 i r2 H2) as (r1 & H1 & Hp1).
  exists r1. auto.
Qed.

Lemma table_step_flags_kept t t' : table_step t t' → flags_kept t t'.
Proof.
  intros H i r' Hr'. destruct (H i r' Hr') as (r & ? & ? & _). by exists r.
Qed.

Lemma flags_kept_alter (f : donation → donation) (t : table) i :
  (∀ r, credits_pulsed r = true → credits_pulsed (f r) = true) →
  flags_kept t (alter f i t).
Proof.
  intros Hp j r' H.
  apply lookup_alter_Some in H as [[-> [r [Hr ->]]]|[_ H]]; exists r || exists r'; auto.
Qed.

Lemma evolves_refl st : evolves st st.
Proof. split; [apply flags_kept_refl|]. by split. Qed.

Lemma evolves_trans st1 st2 st3 : evolves st1 st2 → evolves st2 st3 → evolves st1 st3.
Proof.
  intros (Hf1 & Hc1 & Hs1) (Hf2 & Hc2 & Hs2).
  split; [by eapply flags_kept_trans|]. split; [auto|congruence].
Qed.

Lemma quiet_evolves st st' : quiet st st' → evolves st st'.
Proof.
  intros Hq. split; [|split].
  - apply table_step_flags_kept, Hq.
  - intros Hc. by eapply consistent_quiet.
  - apply Hq.
Qed.

Lemma evolves_activate nid next st :
  active st = None → evolves st (activate nid next st).
Proof.
  intros Ha. split; [|split].
  3:{ by destruct (activate_parts nid next st) as (new & h & -> & _). }
  - rewrite activate_db. unfold activated_table. destruct (_ && _).
    + eapply flags_kept_trans; apply flags_kept_alter; auto.
    + apply flags_kept_alter; auto.
  - intros (Hrows & Hok & Hopen). unfold holder in Hrows, Hopen.
    rewrite Ha in Hrows, Hopen. simpl in Hrows, Hopen.
    split; [|split].
    + intros i r' Hr' Hs. rewrite activate_holder. f_equal.
      destruct (decide (nid = i)) as [|Hne]; [done|]. exfalso.
      rewrite activate_db in Hr'.
      assert (Hi : db st !! i = Some r').
      { unfold activated_table in Hr'.
        destruct (_ && _) in Hr'; unfold markCreditsPulsed, setDonationStatus in Hr';
          by rewrite ?lookup_alter_ne in Hr' by done. }
      specialize (Hrows i r' Hi Hs). discriminate.
    + destruct (activate_log nid next st) as (e & He & ->). simpl.
      destruct e as [| |[]]; try discriminate He; simpl; rewrite Hopen, Hok; done.
    + destruct (activate_log nid next st) as (e & He & ->).
      by rewrite activate_holder.
Qed.

Lemma evolves_maybeStartNext st : evolves st (maybeStartNext st).
Proof.
  rewrite maybeStartNext_unfold. destruct (active st) as [s|] eqn:Ha;
    [apply evolves_refl|].
  assert (Hc : evolves st (cleaned st)).
  { apply quiet_evolves, quiet_set_db, table_step_sweep. }
  destruct (pick_next st) as [[nid next]|].
  - eapply evolves_trans; [exact Hc|]. by apply evolves_activate.
  - eapply evolves_trans; [exact Hc|]. apply quiet_evolves, quiet_broadcastQueue.
Qed.

(** The state in which [endActivePlayer] calls [maybeStartNext]. *)
Lemma endActivePlayer_eq st s :
  active st = Some s →
  endActivePlayer st
  = maybeStartNext
      (mkState (setDonationStatus (donationId s) Done (db st)) (db_seq st) None
               (timers (clear_if_set (firstMoveTimer s) (clear_if_set (timer s) st)))
               (next_handle st) (clock st)
               (trigger (player_end (donationId s)) :: gpio_releaseAll :: log st)).
Proof.
  intros Ha. unfold endActivePlayer. rewrite Ha.
  by destruct (timer s), (firstMoveTimer s).
Qed.

Lemma evolves_endActivePlayer st : evolves st (endActivePlayer st).
Proof.
  destruct (active st) as [s|] eqn:Ha.
  2:{ unfold endActivePlayer. rewrite Ha. apply evolves_refl. }
  rewrite (endActivePlayer_eq st s Ha).
  eapply evolves_trans; [|apply evolves_maybeStartNext].
  split; [|split]; simpl; [| |done].
  - by apply table_step_flags_kept, table_step_setDonationStatus.
  - intros (Hrows & Hok & Hopen). unfold holder in Hrows, Hopen.
    rewrite Ha in Hrows, Hopen. simpl in Hrows, Hopen.
    split; [|split]; simpl.
    + intros i r' Hr' Hs. exfalso.
      rewrite lookup_setDonationStatus in Hr'.
      destruct (decide (donationId s = i)) as [<-|Hne].
      * apply fmap_Some in Hr' as (r & _ & ->). discriminate.
      * specialize (Hrows i r' Hr' Hs). congruence.
    + by rewrite Hopen, Hok, bool_decide_true.
    + reflexivity.
Qed.

Lemma evolves_next_credit_or_end st : evolves st (next_credit_or_end st).
Proof.
  unfold next_credit_or_end. destruct (active st) as [s|] eqn:Ha;
    [|apply evolves_refl].
  eapply evolves_trans; [|apply quiet_evolves, quiet_broadcastQueue].
  destruct (0 <? creditsRemaining s).
  - apply quiet_evolves. eapply quiet_trans; [|apply quiet_scheduleFirstMoveTimeout].
    apply quiet_set_active. unfold holder. by rewrite Ha.
  - apply evolves_endActivePlayer.
Qed.

Lemma evolves_after_consume st :
  evolves st (let '(consumed, st1) := consumeOneCreditSafely st in
              if consumed then next_credit_or_end st1 else st).
Proof.
  pose proof (quiet_consumeOneCreditSafely st) as Hq.
  destruct (consumeOneCreditSafely st) as [[] st1]; [|apply evolves_refl].
  eapply evolves_trans; [apply quiet_evolves, Hq|apply evolves_next_credit_or_end].
Qed.

Lemma evolves_finishCreditNormally st : evolves st (finishCreditNormally st).
Proof.
  unfold finishCreditNormally. destruct (active st); [|apply evolves_refl].
  apply evolves_after_consume.
Qed.

Lemma quiet_handleGrabIfAllowed st : quiet st (handleGrabIfAllowed st).2.
Proof.
  unfold handleGrabIfAllowed. destruct (active st) as [s|] eqn:Ha;
    [|apply quiet_refl].
  destruct (grabUsed s); [apply quiet_refl|].
  assert (Hq1 : quiet st (if timerStarted s then st else startCreditTimerIfNeeded st)).
  { destruct (timerStarted s); [apply quiet_refl|apply quiet_startCreditTimerIfNeeded]. }
  set (st1 := if timerStarted s then st else startCreditTimerIfNeeded st) in *.
  destruct (active st1) as [s1|] eqn:Ha1; [|exact Hq1].
  eapply quiet_trans; [exact Hq1|].
  apply (quiet_intro _ _
           [gpio_pulse "grab" 300;
            trigger (credit_start (donationId s1)
                       (Some (clock (clear_if_set (timer s1) st1) + GRAB_FINISH_MS))
                       (creditsRemaining s1))]).
  - unfold holder. rewrite Ha1. by destruct (timer s1).
  - destruct (timer s1); apply table_step_refl.
  - by destruct (timer s1).
  - done.
  - by destruct (timer s1).
Qed.

Lemma evolves_onFirstMoveTimeout st : evolves st (onFirstMoveTimeout st).
Proof.
  unfold onFirstMoveTimeout. destruct (active st) as [s|]; [|apply evolves_refl].
  destruct (hasMoved s); [apply evolves_refl|].
  destruct (existsb _ _).
  - eapply evolves_trans; [apply evolves_endActivePlayer|].
    by apply quiet_evolves, quiet_emit.
  - apply quiet_evolves.
    eapply quiet_trans; [apply quiet_scheduleFirstMoveTimeout|apply quiet_broadcastQueue].
Qed.

Lemma evolves_run_callback cb st : evolves st (run_callback cb st).
Proof.
  destruct cb as [| |mySeq|mySeq]; simpl.
  - by apply quiet_evolves, quiet_emit.
  - apply evolves_onFirstMoveTimeout.
  - unfold onCreditTimer. destruct (active st) as [s|]; [|apply evolves_refl].
    destruct (creditSeq s =? mySeq); [apply evolves_finishCreditNormally|apply evolves_refl].
  - unfold onGrabTimer. destruct (active st) as [s|]; [|apply evolves_refl].
    destruct (creditSeq s =? mySeq); [apply evolves_after_consume|apply evolves_refl].
Qed.

Lemma evolves_fire t st : evolves st (fire t st).
Proof.
  unfold fire. eapply evolves_trans; [|apply evolves_run_callback].
  apply quiet_evolves.
  eapply quiet_trans; [apply quiet_clearTimeout|apply quiet_set_clock].
Qed.

Lemma evolves_handlePaidDonation iid amount st :
  evolves st (handlePaidDonation iid amount st).2.
Proof.
  unfold handlePaidDonation. simpl.
  eapply evolves_trans; [|apply quiet_evolves, quiet_broadcastQueue].
  eapply evolves_trans; [|apply evolves_maybeStartNext].
  apply quiet_evolves, quiet_set_db, table_step_markIntentPaid.
Qed.

(** ** The admin routes *)

Lemma evolves_after_table_step t st :
  table_step (db st) t →
  evolves st (broadcastQueue (maybeStartNext (set_db t st))).
Proof.
  intros Ht.
  eapply evolves_trans; [|apply quiet_evolves, quiet_broadcastQueue].
  eapply evolves_trans; [|apply evolves_maybeStartNext].
  by apply quiet_evolves, quiet_set_db.
Qed.

Lemma evolves_safeForceEndActive reason st :
  evolves st (Admin.safeForceEndActive Admin.game_exports reason st).
Proof.
  unfold Admin.safeForceEndActive. simpl.
  eapply evolves_trans; [|apply quiet_evolves, quiet_broadcastQueue].
  eapply evolves_trans; [|apply evolves_maybeStartNext].
  destruct (Admin.truthy_id _); [|apply evolves_refl].
  by apply quiet_evolves, quiet_set_db, table_step_setDonationStatus.
Qed.

Lemma evolves_admin rq st : evolves st (Admin.handle Admin.game_exports rq st).
Proof.
  destruct rq as [i d|i n|i n|i|i s| | |i|]; simpl;
    try (destruct (i =? 0); [apply evolves_refl|]).
  - apply evolves_after_table_step, table_step_adjustCredits.
  - apply evolves_after_table_step, table_step_setCreditsTotal.
  - apply evolves_after_table_step, table_step_setCreditsUsed.
  - apply evolves_after_table_step, table_step_requeueToEnd.
  - assert (Hgen : ∀ s', s' ≠ Active →
        evolves st
          (broadcastQueue (maybeStartNext
             (set_db (setDonationStatus i s'
                (db (if bool_decide ((getActiveState st).1.1 = Some i)
                     then Admin.safeForceEndActive Admin.game_exports
                            "admin_status_change" st
                     else st)))
                (if bool_decide ((getActiveState st).1.1 = Some i)
                 then Admin.safeForceEndActive Admin.game_exports
                        "admin_status_change" st
                 else st))))).
    { intros s' Hs'.
      eapply evolves_trans;
        [|by apply evolves_after_table_step, table_step_setDonationStatus].
      destruct (bool_decide _);
        [apply evolves_safeForceEndActive|apply evolves_refl]. }
    destruct s; try (by apply Hgen).
    by apply evolves_after_table_step, table_step_setDonationStatus.
  - apply evolves_safeForceEndActive.
  - eapply evolves_trans; [apply evolves_maybeStartNext|].
    apply quiet_evolves, quiet_broadcastQueue.
  - eapply evolves_trans; [|apply evolves_after_table_step, table_step_delete].
    destruct (bool_decide _);
      [apply evolves_safeForceEndActive|apply evolves_refl].
  - eapply evolves_trans; [apply evolves_safeForceEndActive|].
    eapply evolves_trans; [|apply quiet_evolves, quiet_broadcastQueue].
    apply quiet_evolves, quiet_set_db, table_step_empty.
Qed.

(** ** Fresh keys *)

Lemma max_key_ge (t : table) i r : t !! i = Some r → i <= max_key t.
Proof.
  unfold max_key. revert i r.
  apply (map_fold_weak_ind (λ b (m : table), ∀ i r, m !! i = Some r → i <= b)).
  - intros i r H. by rewrite lookup_empty in H.
  - intros k x m b Hk IH i r H.
    destruct (decide (k = i)) as [->|Hne].
    + lia.
    + rewrite lookup_insert_ne in H by done. specialize (IH i r H). lia.
Qed.

Lemma fresh_key_fresh sq (t : table) : t !! fresh_key sq t = None.
Proof.
  destruct (t !! fresh_key sq t) as [r|] eqn:H; [|done].
  apply max_key_ge in H. unfold fresh_key in H. lia.
Qed.

(** The state after [createIntent]: the table as it was, or with one new
    row of status 'created' under a key that was free. *)
Lemma createIntent_cases iid nm now sq (t : table) :
  (createIntent iid nm now sq t).2 = t
  ∨ ∃ k, t !! k = None
         ∧ (createIntent iid nm now sq t).2
           = <[k := mkDonation iid nm 0 0 false Created now]> t.
Proof.
  unfold createIntent. destruct (existsb _ _); [by left|].
  right. exists (fresh_key sq t). split; [apply fresh_key_fresh|done].
Qed.

(** ** One turn of the event loop *)

Import System.

Lemma evolves_perform a st :
  (∀ iid nm, a ≠ intent_created iid nm) → evolves st (perform a st).
Proof.
  intros Hne. destruct a as [iid nm|iid q| | |t|dt| |rq]; simpl.
  - by destruct (Hne iid nm).
  - apply evolves_handlePaidDonation.
  - apply quiet_evolves, quiet_startCreditTimerIfNeeded.
  - apply quiet_evolves, quiet_handleGrabIfAllowed.
  - apply evolves_fire.
  - apply quiet_evolves, quiet_set_clock.
  - unfold heartbeat. destruct (_ || _);
      [apply quiet_evolves, quiet_broadcastQueue|apply evolves_refl].
  - apply evolves_admin.
Qed.

Lemma perform_intent_created iid nm st :
  perform (intent_created iid nm) st
  = mkState (createIntent iid nm (clock st) (db_seq st) (db st)).2
            (createIntent iid nm (clock st) (db_seq st) (db st)).1
            (active st) (timers st) (next_handle st) (clock st) (log st).
Proof. simpl. by destruct (createIntent _ _ _ _ _). Qed.

Lemma consistent_perform a st : consistent st → consistent (perform a st).
Proof.
  intros Hc. destruct a as [iid nm| | | | | | |];
    try (refine (proj1 (proj2 (evolves_perform _ st _)) Hc); intros; discriminate).
  rewrite perform_intent_created. destruct Hc as (Hrows & Hok & Hopen).
  split; [|by split]. simpl. intros i r Hr Hs.
  destruct (createIntent_cases iid nm (clock st) (db_seq st) (db st))
    as [Heq|(k & Hk & Heq)]; rewrite Heq in Hr.
  - by apply (Hrows i r).
  - destruct (decide (k = i)) as [->|Hne].
    + rewrite lookup_insert_eq in Hr. injection Hr as <-. discriminate.
    + rewrite lookup_insert_ne in Hr by done. by apply (Hrows i r).
Qed.



Lemma consistent_boot (t : table) sq now : consistent (boot t sq now).
Proof.
  split; [|done]. simpl. intros i r Hr Hs. exfalso.
  rewrite lookup_recoverAfterRestart in Hr.
  apply fmap_Some in Hr as (r0 & _ & ->). by apply (recovered_not_active r0).
Qed.

Lemma consistent_reachable (t : table) sq now st :
  reachable t sq now st → consistent st.
Proof.
  induction 1 as [|st a _ IH _]; [apply consistent_boot|by apply consistent_perform].
Qed.





Lemma reachable_run (t : table) sq now l st :
  reachable t sq now st → Forall (λ a, ∀ st', enabled a st') l →
  reachable t sq now (run l st).
Proof.
  revert st. induction l as [|a l IH]; intros st Hst Hl; [done|].
  apply Forall_cons in Hl as [Ha Hl]. cbn [run].
  apply IH; [|done]. by apply reach_turn.
Qed.

(** ** The sample runs are runs of the process *)

Lemma ann_active_bob_waiting_reachable :
  reachable ∅ 0 1000 ann_active_bob_waiting.
Proof.
  apply reachable_run; [apply reach_boot|].
  repeat (apply Forall_cons; split; [intros st'; simpl; try lia; exact I|]).
  apply Forall_nil_2.
Qed.


Lemma ann_second_credit_reachable : reachable ∅ 0 1000 ann_second_credit.
Proof.
  unfold ann_second_credit. cbn [run].
  apply reach_turn; [apply reach_turn; [apply ann_active_bob_waiting_reachable|exact I]|].
  vm_compute. left.
Qed.

End StepFacts.

(* ===================================================================== *)
(** * The end of a session                                                *)
(* ===================================================================== *)

Module EndFacts.
Import Db Game Props System DbFacts GameFacts StepFacts.





Lemma maybeStartNext_holder st :
  active st = None → holder (maybeStartNext st) = fst <$> pick_next st.
Proof.
  intros Ha. rewrite maybeStartNext_unfold, Ha.
  destruct (pick_next st) as [[nid next]|]; [|by unfold holder; simpl; rewrite Ha].
  apply activate_holder.
Qed.


Lemma filter_all {A} (f : A → bool) (l : list A) :
  forallb f l = true → List.filter f l = l.
Proof.
  induction l as [|x l IH]; simpl; [done|].
  intros H. apply andb_prop in H as [-> H]. by rewrite IH.
Qed.

Lemma pending_pulses_activate nid next st :
  pending_pulses (activate nid next st)
  = (pending_pulses st
     + if negb (credits_pulsed next) && (0 <? remaining next)%Z
       then Z.to_nat (remaining next) else 0)%nat.
Proof.
  destruct (activate_parts nid next st) as (new & h & -> & Hp & Hlen).
  unfold pending_pulses. simpl.
  rewrite List.filter_app, length_app, (filter_all _ _ Hp), Hlen. lia.
Qed.

(** What an activation by [maybeStartNext] does. *)
Lemma maybeStartNext_activates st nid next :
  active st = None → pick_next st = Some (nid, next) →
  holder (maybeStartNext st) = Some nid
  ∧ 0 < remaining next
  ∧ pending_pulses (maybeStartNext st)
    = (pending_pulses st
       + if credits_pulsed next then 0 else Z.to_nat (remaining next))%nat
  ∧ db (maybeStartNext st) !! nid
    = Some (with_credits_pulsed true (with_status Active next)).
Proof.
  intros Ha Hp. rewrite maybeStartNext_unfold, Ha, Hp.
  apply pick_next_spec in Hp as (Hl & Hs & Hr).
  split; [apply activate_holder|]. split; [exact Hr|]. split.
  - rewrite pending_pulses_activate.
    change (pending_pulses (cleaned st)) with (pending_pulses st).
    destruct (credits_pulsed next); simpl; [lia|].
    destruct (Z.ltb_spec 0 (remaining next)); lia.
  - rewrite activate_db. unfold activated_table.
    destruct (credits_pulsed next) eqn:Hcp; cbn [negb andb].
    + unfold setDonationStatus. rewrite lookup_alter_eq, Hl. simpl.
      destruct next. simpl in Hcp. subst. reflexivity.
    + destruct (Z.ltb_spec 0 (remaining next)); [|lia].
      unfold markCreditsPulsed, setDonationStatus.
      by rewrite !lookup_alter_eq, Hl.
Qed.

Lemma find_ext {A} (f g : A → bool) (l : list A) :
  (∀ x, f x = g x) → List.find f l = List.find g l.
Proof. intros H. induction l as [|x l IH]; simpl; [done|]. by rewrite H, IH. Qed.

Lemma find_filter {A} (f g : A → bool) (l : list A) :
  List.find f (List.filter g l) = List.find (λ x, g x && f x) l.
Proof.
  induction l as [|x l IH]; simpl; [done|].
  destruct (g x); simpl; [|done]. by rewrite IH.
Qed.





(** A move and then a grab, on a session whose credit timer was not yet
    running: the credit timer of the move is armed and cleared again, the
    grab timer is armed two epochs later. *)
Lemma move_then_grab st s :
  active st = Some s → timerStarted s = false → grabUsed s = false →
  handleGrabIfAllowed (startCreditTimerIfNeeded st)
  = (grab_ok,
     mkState (db st) (db_seq st)
       (Some (mkSession (donationId s) (creditsRemaining s)
                (Some (S (next_handle st))) true
                (Some (clock st + GRAB_FINISH_MS)) (firstMoveDeadline s) None
                true true (creditSeq s + 1 + 1) false))
       (mkTimer (S (next_handle st)) (clock st + GRAB_FINISH_MS)
                (grab_finish (creditSeq s + 1 + 1))
          :: List.filter (λ t, negb (Nat.eqb (t_handle t) (next_handle st)))
               (timers (clear_if_set (firstMoveTimer s) st)))
       (S (S (next_handle st))) (clock st)
       (gpio_pulse "grab" 300
          :: trigger (credit_start (donationId s)
                        (Some (clock st + GRAB_FINISH_MS)) (creditsRemaining s))
          :: trigger (credit_start (donationId s)
                        (Some (clock st + CREDIT_MS)) (creditsRemaining s))
          :: log st)).
Proof.
  intros Ha Ht Hg. unfold startCreditTimerIfNeeded. rewrite Ha, Ht.
  unfold handleGrabIfAllowed.
  destruct (firstMoveTimer s); simpl; rewrite Hg; simpl;
    by rewrite Nat.eqb_refl.
Qed.


End EndFacts.

(* ===================================================================== *)
(** * More facts about the table and the activation step                  *)
(* ===================================================================== *)

Module MoreFacts.
Import Db Game System Props Queries Shape Rows DbFacts GameFacts StepFacts EndFacts.

Lemma listQueue_NoDup (t : table) : NoDup (listQueue t).*1.
Proof.
  unfold listQueue. rewrite order_by_created_at_perm.
  apply NoDup_fst_List_filter, NoDup_fst_map_to_list.
Qed.

Lemma row_lt_le x y : row_lt x y → created_at x.2 <= created_at y.2.
Proof. unfold row_lt. lia. Qed.

Lemma StronglySorted_weaken {A} (R S : A → A → Prop) (l : list A) :
  (∀ x y, R x y → S x y) → StronglySorted R l → StronglySorted S l.
Proof.
  intros H. induction 1 as [|x l _ IH Hx]; constructor; [done|].
  eapply Forall_impl; [exact Hx|]. auto.
Qed.

Lemma filter_true {A} (l : list A) : List.filter (λ _, true) l = l.
Proof. induction l as [|x l IH]; simpl; by rewrite ?IH. Qed.

Lemma sorted_snoc (l : list (Z * donation)) y :
  StronglySorted row_lt l → Forall (λ x, row_lt x y) l →
  StronglySorted row_lt (l ++ [y]).
Proof.
  induction 1 as [|x l Hs IH Hx]; intros Hy; simpl.
  - repeat constructor.
  - apply Forall_cons in Hy as [Hxy Hy]. constructor; [by apply IH|].
    apply Forall_app. split; [done|]. by constructor.
Qed.

Lemma sorted_map (g : Z * donation → Z * donation) (l : list (Z * donation)) :
  (∀ x, (g x).1 = x.1 ∧ created_at (g x).2 = created_at x.2) →
  StronglySorted row_lt l → StronglySorted row_lt (map g l).
Proof.
  intros Hg. induction 1 as [|x l Hs IH Hx]; simpl; constructor; [done|].
  apply Forall_forall. intros y Hy. apply list_elem_of_In, in_map_iff in Hy
    as (z & <- & Hz).
  rewrite Forall_forall in Hx. specialize (Hx z (proj2 (list_elem_of_In _ _) Hz)).
  unfold row_lt in *. destruct (Hg x) as [-> ->], (Hg z) as [-> ->]. exact Hx.
Qed.

Lemma has_intent_true iid r : has_intent iid r = true ↔ intent_id r = iid.
Proof. unfold has_intent. apply bool_decide_eq_true. Qed.

Lemma has_intent_false iid r : has_intent iid r = false ↔ intent_id r ≠ iid.
Proof. unfold has_intent. apply bool_decide_eq_false. Qed.

Lemma lookup_markIntentPaid (iid : string) (c now : Z) (t : table) i :
  markIntentPaid iid c now t !! i
  = (λ r, if has_intent iid r
          then mkDonation (intent_id r) (name r) c (credits_used r)
                          (credits_pulsed r) Waiting now
          else r) <$> t !! i.
Proof.
  unfold markIntentPaid. rewrite lookup_fmap.
  destruct (t !! i) as [r|]; [|done]. simpl. by destruct (has_intent iid r).
Qed.


Lemma listQueue_sweep (t : table) :
  listQueue (sweep (listQueue t) t)
  = List.filter (λ q, negb (is_waiting q.2 && (remaining q.2 <=? 0))) (listQueue t).
Proof.
  apply listQueue_filter. intros i r. rewrite lookup_sweep. simpl. split.
  - intros [H Hq]. apply fmap_Some in H as (r0 & Hr0 & ->). unfold swept in *.
    destruct (is_waiting r0 && (remaining r0 <=? 0)) eqn:Hc; [discriminate|].
    simpl. by rewrite Hc.
  - intros (H & Hq & Hc). rewrite H. simpl. split; [|done]. f_equal.
    unfold swept. by destruct (is_waiting r && (remaining r <=? 0)).
Qed.

Lemma pick_next_eligible st :
  pick_next st = List.find eligible (listQueue (db st)).
Proof.
  unfold pick_next, cleaned. cbn [db set_db].
  rewrite listQueue_sweep, find_filter. apply find_ext.
  intros [i r]. unfold eligible. simpl. destruct (is_waiting r); simpl; [|done].
  destruct (Z.leb_spec (remaining r) 0), (Z.ltb_spec 0 (remaining r)); simpl; lia.
Qed.

Lemma swept_eligible i r : eligible (i, r) = true → swept r = r.
Proof.
  unfold eligible, swept. simpl. intros H. apply andb_prop in H as [-> H].
  apply Z.ltb_lt in H. simpl. destruct (Z.leb_spec (remaining r) 0); [lia|done].
Qed.

Lemma maybeStartNext_idle_holder st :
  active st = None →
  holder (maybeStartNext st) = fst <$> List.find eligible (listQueue (db st)).
Proof.
  intros Ha. rewrite (maybeStartNext_holder st Ha). by rewrite pick_next_eligible.
Qed.

Lemma maybeStartNext_idle_lookup st i :
  active st = None →
  db (maybeStartNext st) !! i
  = (λ r, if bool_decide (holder (maybeStartNext st) = Some i)
          then with_credits_pulsed true (with_status Active r)
          else swept r) <$> db st !! i.
Proof.
  intros Ha. pose proof (maybeStartNext_idle_holder st Ha) as Hh.
  pose proof (maybeStartNext_unfold st) as Hu. rewrite Ha in Hu.
  pose proof (maybeStartNext_activates st) as Hact.
  rewrite pick_next_eligible in Hu, Hact.
  destruct (List.find eligible (listQueue (db st))) as [[nid next]|] eqn:Hf.
  - destruct (Hact nid next Ha eq_refl) as (_ & Hpos & _ & Hrow).
    pose proof (find_listQueue _ _ _ _ Hf) as (Hl & _ & Hel).
    rewrite Hh. simpl.
    destruct (decide (nid = i)) as [<-|Hne].
    + rewrite bool_decide_true, Hl by done. exact Hrow.
    + rewrite bool_decide_false by congruence.
      rewrite Hu, activate_db. unfold activated_table.
      destruct (_ && _); unfold markCreditsPulsed, setDonationStatus;
        rewrite ?lookup_alter_ne by done; unfold cleaned; cbn [db set_db];
        apply lookup_sweep.
  - rewrite Hh. simpl.
    rewrite Hu. unfold cleaned. cbn [db set_db broadcastQueue safeTrigger emit].
    apply lookup_sweep.
Qed.


Lemma maybeStartNext_busy st s : active st = Some s → maybeStartNext st = st.
Proof. intros Ha. rewrite maybeStartNext_unfold. by rewrite Ha. Qed.

Lemma after_table_busy (t : table) st s :
  active st = Some s →
  broadcastQueue (maybeStartNext (set_db t st)) = broadcastQueue (set_db t st).
Proof. intros Ha. by rewrite (maybeStartNext_busy (set_db t st) s). Qed.

Lemma safeForceEndActive_busy reason st s :
  active st = Some s →
  ∃ t, Admin.safeForceEndActive Admin.game_exports reason st
       = broadcastQueue (set_db t st).
Proof.
  intros Ha. unfold Admin.safeForceEndActive. cbn [Admin.forceEndActive Admin.game_exports].
  destruct (Admin.truthy_id _).
  - eexists. by apply (after_table_busy _ st s).
  - exists (db st). rewrite (maybeStartNext_busy st s Ha). by destruct st.
Qed.






End MoreFacts.

(* ===================================================================== *)
(** * The pulse loop on fuel                                              *)
(* ===================================================================== *)

Module RunFacts.
Import Db Game System Props Numbers Run DbFacts GameFacts StepFacts.

(** Above 2^53 credits the loop counter never reaches the bound. *)
Lemma pulse_loop_stuck fuel i n st :
  2 ^ 53 < n → i <= 2 ^ 53 → pulse_loop fuel i n st = None.
Proof.
  intros Hn. revert i st. induction fuel as [|fuel IH]; intros i st Hi; [done|].
  simpl. destruct (Z.ltb_spec i n); [|lia].
  apply IH. unfold js_succ. destruct (Z.ltb_spec i (2 ^ 53)); lia.
Qed.

(** Up to 2^53 credits the loop arms the timers of [schedule_pulses]. *)
Lemma pulse_loop_from fuel i n st :
  0 <= i → n <= 2 ^ 53 → (Z.to_nat (n - i) < fuel)%nat →
  pulse_loop fuel i n st
  = Some (foldl (λ st i, (setTimeout pulse_credit (i * 400) st).2) st
            (seqZ i (n - i))).
Proof.
  intros Hi Hn. revert i st Hi. induction fuel as [|fuel IH]; intros i st Hi Hf; [lia|].
  simpl. destruct (Z.ltb_spec i n) as [Hlt|Hge].
  - assert (Hs : js_succ i = i + 1).
    { unfold js_succ. destruct (Z.ltb_spec i (2 ^ 53)); lia. }
    rewrite Hs, IH by lia.
    rewrite (seqZ_cons i (n - i)) by lia. cbn [foldl].
    by replace (Z.pred (n - i)) with (n - (i + 1)) by lia.
  - by rewrite seqZ_nil by lia.
Qed.

Lemma pulse_loop_runs fuel n st :
  n <= 2 ^ 53 → (Z.to_nat n < fuel)%nat →
  pulse_loop fuel 0 n st = Some (schedule_pulses n st).
Proof.
  intros Hn Hf. rewrite pulse_loop_from by (lia || (rewrite Z.sub_0_r; lia)).
  unfold schedule_pulses. by rewrite Z.sub_0_r.
Qed.

Lemma activate_run_runs fuel nid next st :
  remaining next <= 2 ^ 53 → (Z.to_nat (remaining next) < fuel)%nat →
  activate_run fuel nid next st = Some (activate nid next st).
Proof.
  intros Hn Hf. unfold activate_run, activate. cbv zeta.
  destruct (negb (credits_pulsed next) && (0 <? remaining next)); [|done].
  by rewrite pulse_loop_runs.
Qed.

Lemma activate_run_stuck fuel nid next st :
  2 ^ 53 < remaining next → credits_pulsed next = false →
  activate_run fuel nid next st = None.
Proof.
  intros Hn Hp. unfold activate_run. cbv zeta. rewrite Hp.
  destruct (Z.ltb_spec 0 (remaining next)); [|lia]. simpl.
  by rewrite pulse_loop_stuck.
Qed.

(** [maybeStartNext_run] as one reads it: after the clean-up loop the
    waiting row that the scan finds has credits left, so the self-call is
    never taken. *)
Lemma maybeStartNext_run_unfold fuel st :
  maybeStartNext_run (S fuel) st
  = match active st with
    | Some _ => Some st
    | None =>
        match pick_next st with
        | None => Some (broadcastQueue (cleaned st))
        | Some (nid, next) => activate_run fuel nid next (cleaned st)
        end
    end.
Proof.
  pose proof (pick_next_spec st) as Hspec.
  unfold pick_next, cleaned in *. simpl in *.
  destruct (active st); [reflexivity|].
  destruct (List.find _ _) as [[nid next]|]; [|reflexivity].
  destruct (Hspec nid next eq_refl) as (_ & _ & Hr).
  destruct (Z.leb_spec (remaining next) 0); [lia|reflexivity].
Qed.

(** With credits up to 2^53 and fuel above them the run returns what
    [maybeStartNext] returns. *)
Lemma maybeStartNext_run_total fuel st :
  (∀ i r, db st !! i = Some r → status r = Waiting →
          remaining r <= 2 ^ 53 ∧ (Z.to_nat (remaining r) < fuel)%nat) →
  maybeStartNext_run (S fuel) st = Some (maybeStartNext st).
Proof.
  intros Hdom. rewrite maybeStartNext_run_unfold, maybeStartNext_unfold.
  destruct (active st); [done|].
  destruct (pick_next st) as [[nid next]|] eqn:Hp; [|done].
  apply find_listQueue in Hp as (Hl & _ & Hw).
  unfold cleaned in Hl. cbn [db set_db] in Hl. rewrite lookup_sweep in Hl.
  apply fmap_Some in Hl as (r & Hr & Hnext).
  assert (Hsame : status r = Waiting ∧ remaining next = remaining r).
  { subst next. unfold swept in *.
    destruct (is_waiting r && (remaining r <=? 0)) eqn:Hc.
    - simpl in Hw. discriminate.
    - split; [|done]. simpl in Hw. unfold is_waiting in Hw.
      by destruct (status r). }
  destruct Hsame as [Hs Hrem]. destruct (Hdom _ _ Hr Hs) as [H1 H2].
  apply activate_run_runs; rewrite Hrem; done.
Qed.

End RunFacts.

(* ===================================================================== *)
(** * Which steps arm credit pulses                                       *)
(* ===================================================================== *)

Module ArmFacts.
Import Db Game System Props Shape Arming DbFacts GameFacts StepFacts EndFacts.
Import MoreFacts.











(** ** Composition *)




(** ** The functions of the scheduler *)











End ArmFacts.

(* ===================================================================== *)
(** * Facts about the whole rows                                          *)
(* ===================================================================== *)

Module ColumnFacts.
Import Db Columns.

Lemma lookup_columns (w : whole) i : columns w !! i = fst <$> w !! i.
Proof. unfold columns. by rewrite lookup_fmap. Qed.

Lemma lookup_update_id f i now (w : whole) j :
  update_id f i now w !! j
  = if decide (j = i)
    then (λ x, (f x.1, with_updated_at now x.2)) <$> w !! j
    else w !! j.
Proof.
  unfold update_id. destruct (decide (j = i)) as [->|Hne].
  - by rewrite lookup_alter_eq.
  - by rewrite lookup_alter_ne.
Qed.

(** An UPDATE by id acts on the columns of the scheduler as its SET
    clause says. *)
Lemma columns_update_id f i now (w : whole) :
  columns (update_id f i now w) = alter f i (columns w).
Proof.
  apply map_eq. intros j. rewrite lookup_columns, lookup_update_id.
  destruct (decide (j = i)) as [->|Hne].
  - rewrite lookup_alter_eq, lookup_columns. by destruct (w !! i).
  - by rewrite lookup_alter_ne, lookup_columns.
Qed.

Lemma update_id_row f i now (w : whole) x :
  w !! i = Some x →
  ∃ x', update_id f i now w !! i = Some x'
        ∧ x'.1 = f x.1 ∧ updated_at x'.2 = now ∧ same_but_updated_at x.2 x'.2.
Proof.
  intros Hx. rewrite lookup_update_id, decide_True, Hx by done. simpl.
  eexists. split; [reflexivity|]. by repeat split.
Qed.

Lemma update_id_other f i now (w : whole) j :
  j ≠ i → update_id f i now w !! j = w !! j.
Proof. intros Hne. by rewrite lookup_update_id, decide_False. Qed.

Lemma update_id_written f i now (w : whole) :
  written_at i now w (update_id f i now w).
Proof.
  split.
  - intros j Hne. by apply update_id_other.
  - intros x Hx. destruct (update_id_row f i now w x Hx) as (x' & ? & _ & ? & ?).
    by exists x'.
Qed.

(** The admin writers read the row first; on a missing id they write
    nothing. *)
Lemma admin_writers_written i n now (w : whole) :
  written_at i now w (adjustCredits_whole i n now w)
  ∧ written_at i now w (setCreditsTotal_whole i n now w)
  ∧ written_at i now w (setCreditsUsed_whole i n now w)
  ∧ (w !! i = None →
     adjustCredits_whole i n now w = w ∧ setCreditsTotal_whole i n now w = w
     ∧ setCreditsUsed_whole i n now w = w).
Proof.
  unfold adjustCredits_whole, setCreditsTotal_whole, setCreditsUsed_whole.
  destruct (w !! i) as [x|] eqn:Hx.
  - split; [apply update_id_written|]. split; [apply update_id_written|].
    split; [apply update_id_written|]. done.
  - assert (Hw : written_at i now w w).
    { split; [done|]. intros x. by rewrite Hx. }
    done.
Qed.

Lemma columns_setDonationStatus i s now (w : whole) :
  columns (setDonationStatus_whole i s now w) = setDonationStatus i s (columns w).
Proof. apply columns_update_id. Qed.

Lemma columns_requeueToEnd i now (w : whole) :
  columns (requeueToEnd_whole i now w) = requeueToEnd i now (columns w).
Proof. apply columns_update_id. Qed.

Lemma columns_markCreditsPulsed i now (w : whole) :
  columns (markCreditsPulsed_whole i now w) = markCreditsPulsed i (columns w).
Proof. apply columns_update_id. Qed.

Lemma columns_useOneCredit i now (w : whole) :
  columns (useOneCredit_whole i now w) = useOneCredit i (columns w).
Proof. apply columns_update_id. Qed.

Lemma columns_adjustCredits i delta now (w : whole) :
  columns (adjustCredits_whole i delta now w) = adjustCredits i delta (columns w).
Proof.
  unfold adjustCredits_whole, adjustCredits, getDonationById.
  rewrite lookup_columns. destruct (w !! i) as [x|]; [|done].
  apply columns_update_id.
Qed.

Lemma columns_setCreditsTotal i n now (w : whole) :
  columns (setCreditsTotal_whole i n now w) = setCreditsTotal i n (columns w).
Proof.
  unfold setCreditsTotal_whole, setCreditsTotal, getDonationById.
  rewrite lookup_columns. destruct (w !! i) as [x|]; [|done].
  apply columns_update_id.
Qed.

Lemma columns_setCreditsUsed i n now (w : whole) :
  columns (setCreditsUsed_whole i n now w) = setCreditsUsed i n (columns w).
Proof.
  unfold setCreditsUsed_whole, setCreditsUsed, getDonationById.
  rewrite lookup_columns. destruct (w !! i) as [x|]; [|done].
  apply columns_update_id.
Qed.

(** ** [createIntent] *)

Lemma intent_taken_columns iid (w : whole) :
  existsb (λ kx, has_intent iid kx.2.1) (map_to_list w)
  = existsb (λ kr, has_intent iid kr.2) (map_to_list (columns w)).
Proof.
  apply eq_true_iff_eq. rewrite !existsb_exists. split.
  - intros ([i x] & Hin & H). exists (i, x.1). split; [|done].
    apply list_elem_of_In, elem_of_map_to_list.
    apply list_elem_of_In, elem_of_map_to_list in Hin.
    by rewrite lookup_columns, Hin.
  - intros ([i r] & Hin & H).
    apply list_elem_of_In, elem_of_map_to_list in Hin.
    rewrite lookup_columns in Hin.
    destruct (w !! i) as [x|] eqn:Hx; [|done]. injection Hin as <-.
    exists (i, x). split; [|done].
    by apply list_elem_of_In, elem_of_map_to_list.
Qed.

Lemma token_taken_spec tok (w : whole) :
  existsb (λ kx, has_token tok kx.2) (map_to_list w) = true
  ↔ ∃ i x, w !! i = Some x ∧ session_token x.2 = Some tok.
Proof.
  rewrite existsb_exists. split.
  - intros ([i x] & Hin & H). exists i, x. split.
    + by apply elem_of_map_to_list, list_elem_of_In.
    + by apply bool_decide_eq_true in H.
  - intros (i & x & Hi & Hx). exists (i, x). split.
    + by apply list_elem_of_In, elem_of_map_to_list.
    + by apply bool_decide_eq_true.
Qed.

Lemma columns_insert k (x : donation * rest) (w : whole) :
  columns (<[k := x]> w) = <[k := x.1]> (columns w).
Proof. unfold columns. by rewrite fmap_insert. Qed.

(** Where the INSERT goes through it writes, in the columns of the
    scheduler, what [Db.createIntent] writes. *)
Lemma createIntent_whole_Some iid tok nm mail req now now' sq (w : whole) k w' :
  createIntent_whole iid tok nm mail req now now' sq w = Some (k, w') →
  createIntent iid nm now sq (columns w) = (k, columns w')
  ∧ k = fresh_key sq (columns w)
  ∧ w' = <[k := (mkDonation iid nm 0 0 false Created now,
                 mkRest None mail req None (Some tok) now')]> w
  ∧ existsb (λ kr, has_intent iid kr.2) (map_to_list (columns w)) = false
  ∧ existsb (λ kx, has_token tok kx.2) (map_to_list w) = false.
Proof.
  unfold createIntent_whole, createIntent. rewrite intent_taken_columns.
  destruct (existsb _ (map_to_list (columns w))); [done|].
  destruct (existsb _ (map_to_list w)); [done|]. simpl.
  intros [= <- <-]. by rewrite columns_insert.
Qed.

Lemma createIntent_whole_None iid tok nm mail req now now' sq (w : whole) :
  createIntent_whole iid tok nm mail req now now' sq w = None
  ↔ existsb (λ kr, has_intent iid kr.2) (map_to_list (columns w)) = true
    ∨ existsb (λ kx, has_token tok kx.2) (map_to_list w) = true.
Proof.
  unfold createIntent_whole. rewrite intent_taken_columns.
  destruct (existsb _ (map_to_list (columns w)));
    destruct (existsb _ (map_to_list w)); simpl; split; try done; auto.
  intros [?|?]; done.
Qed.

(** ** [markIntentPaid] *)

Lemma markIntentPaid_whole_Some iid pid amt c now (w w' : whole) :
  markIntentPaid_whole iid pid amt c now w = Some w' →
  w' = (λ x, if has_intent iid x.1 then paid pid amt c now x else x) <$> w
  ∧ columns w' = markIntentPaid iid c now (columns w)
  ∧ NoDup (payment_ids w').
Proof.
  unfold markIntentPaid_whole. cbv zeta.
  destruct (bool_decide _) eqn:Hnd; [|done]. intros [= <-].
  split; [done|]. split; [|by apply bool_decide_eq_true in Hnd].
  apply map_eq. intros i. unfold markIntentPaid.
  unfold columns. rewrite !lookup_fmap. destruct (w !! i) as [x|]; [|done].
  simpl. by destruct (has_intent iid x.1).
Qed.

(** A row that has its payment id keeps it, so the unique index cannot
    refuse the UPDATE. *)
Lemma markIntentPaid_whole_attached iid pid amt c now (w : whole) :
  NoDup (payment_ids w) →
  (∀ i x, w !! i = Some x → intent_id x.1 = iid → is_Some (mollie_payment_id x.2)) →
  is_Some (markIntentPaid_whole iid pid amt c now w).
Proof.
  intros Hnd Hatt. unfold markIntentPaid_whole. cbv zeta.
  rewrite bool_decide_true; [done|].
  unfold payment_ids. rewrite map_to_list_fmap.
  replace (omap _ (prod_map id _ <$> map_to_list w))
    with (omap (λ kx : Z * (donation * rest), mollie_payment_id kx.2.2)
               (map_to_list w)); [exact Hnd|].
  assert (Hall : ∀ kx, kx ∈ map_to_list w →
            (intent_id kx.2.1 = iid → is_Some (mollie_payment_id kx.2.2))).
  { intros [i x] Hin. apply elem_of_map_to_list in Hin. simpl. by apply (Hatt i x). }
  induction (map_to_list w) as [|[i x] l IH]; [done|].
  simpl.
  assert (Hx : mollie_payment_id
                 (if has_intent iid x.1 then paid pid amt c now x else x).2
               = mollie_payment_id x.2).
  { destruct (has_intent iid x.1) eqn:Hi; [|done]. simpl.
    apply bool_decide_eq_true in Hi.
    destruct (Hall (i, x) (list_elem_of_here _ _) Hi) as [p Hp].
    simpl in Hp. by rewrite Hp. }
  rewrite Hx.
  assert (Hl : ∀ kx, kx ∈ l →
            (intent_id kx.2.1 = iid → is_Some (mollie_payment_id kx.2.2))).
  { intros kx Hin. apply Hall. by apply list_elem_of_further. }
  destruct (mollie_payment_id x.2); [f_equal|]; exact (IH Hl).
Qed.

End ColumnFacts.

(* ===================================================================== *)
(** * Termination of the activation step                                  *)
(* ===================================================================== *)

Module Termination.
Import Db Game System Props Numbers Run Samples DbFacts GameFacts RunFacts.

Lemma done_leaves_queue (t : table) i :
  i ∉ (listQueue (setDonationStatus i Done t)).*1.
Proof.
  intros Hin. apply list_elem_of_fmap in Hin as [[j r] [Hj Hin]].
  simpl in Hj. subst j.
  apply elem_of_listQueue in Hin as [Hl Hq].
  rewrite lookup_setDonationStatus, decide_True in Hl by reflexivity.
  apply fmap_Some in Hl as [r0 [_ ->]]. discriminate.
Qed.

(** C10, as the code has it. On a state in which no waiting row has more
    than 2^53 credits left, [maybeStartNext], run with its pulse loop,
    returns: some amount of fuel is enough, any fuel above the credits of
    every waiting row is, and more fuel changes nothing. The row that the
    scan after the clean-up loop finds has credits left, so the self-call
    is not even taken; were it taken, it would come after the row found
    was marked done, and a row marked done is in no later queue listing
    and lowers the number of waiting rows: with the pulse loop left aside,
    a depth of self-calls of the number of waiting rows is enough on every
    state. *)
Theorem maybeStartNext_terminates (st : state) :
  (∀ i r, db st !! i = Some r → status r = Waiting → remaining r <= 2 ^ 53) →
  (∃ fuel, ∀ k, maybeStartNext_run (fuel + k) st = Some (maybeStartNext st))
  ∧ (∀ fuel,
       (∀ i r, db st !! i = Some r → status r = Waiting →
               (Z.to_nat (remaining r) < fuel)%nat) →
       ∀ k, maybeStartNext_run (S fuel + k) st = Some (maybeStartNext st))
  ∧ (∀ nid next, pick_next st = Some (nid, next) → 0 < remaining next)
  ∧ (∀ i, i ∉ (listQueue (setDonationStatus i Done (db st))).*1)
  ∧ (∀ i r, db st !! i = Some r → status r = Waiting →
       (waiting_count (setDonationStatus i Done (db st)) < waiting_count (db st))%nat)
  ∧ (∀ k, maybeStartNext_fuel (S (waiting_count (db st)) + k) st
          = Some (maybeStartNext st)).
Proof.
  intros Hdom.
  assert (Hrun : ∀ fuel,
            (∀ i r, db st !! i = Some r → status r = Waiting →
                    (Z.to_nat (remaining r) < fuel)%nat) →
            ∀ k, maybeStartNext_run (S fuel + k) st = Some (maybeStartNext st)).
  { intros fuel Hf k. rewrite Nat.add_succ_l.
    apply maybeStartNext_run_total. intros i r Hl Hs.
    split; [by apply (Hdom i r)|]. specialize (Hf i r Hl Hs). lia. }
  split; [|split; [exact Hrun|split; [|split; [|split]]]].
  - exists (S (S (Z.to_nat (2 ^ 53)))). apply Hrun.
    intros i r Hl Hs. specialize (Hdom i r Hl Hs). lia.
  - intros nid next Hp. by apply pick_next_spec in Hp as (_ & _ & ?).
  - intros i. apply done_leaves_queue.
  - intros i r Hl Hs. apply (waiting_count_done_lt _ _ r Hl).
    unfold is_waiting. by rewrite Hs.
  - intros k.
    destruct (maybeStartNext_fuel_total (S (waiting_count (db st))) st)
      as [st' Hst']; [lia|].
    rewrite (maybeStartNext_fuel_mono _ k _ _ Hst').
    unfold maybeStartNext. by rewrite Hst'.
Qed.

Lemma ann_paid_rows i r :
  db ann_paid !! i = Some r → r = mkDonation "a" "Ann" 2 0 false Waiting 10.
Proof.
  intros Hl. apply elem_of_map_to_list in Hl. vm_compute in Hl.
  apply elem_of_cons in Hl as [Hl|Hl]; [by injection Hl as -> ->|].
  by apply not_elem_of_nil in Hl.
Qed.

Lemma maybeStartNext_terminates_witness :
  maybeStartNext_run (S 3 + 0) ann_paid = Some (maybeStartNext ann_paid).
Proof.
  apply (proj1 (proj2 (maybeStartNext_terminates ann_paid
    ltac:(intros i r Hl _; rewrite (ann_paid_rows i r Hl);
          apply Z.leb_le; reflexivity))) 3%nat).
  intros i r Hl _. rewrite (ann_paid_rows i r Hl). unfold remaining. simpl. lia.
Defined.

(** C10 as stated promises termination on every queue state. Walt waits
    with one credit when the process starts; the admin sets his total to
    2^53 + 2, and the route calls the activation step on that table. Its
    pulse loop counts up to 2^53, where the counter stops moving, and
    never reaches the credits of Walt: no fuel is enough. *)
Lemma too_many_credits_counterexample :
  let st := boot walt_waiting 1 1000 in
  let t := setCreditsTotal 1 too_many (db st) in
  reachable walt_waiting 1 1000 st
  ∧ active st = None
  ∧ t !! 1 = Some (mkDonation "w" "Walt" (2 ^ 53 + 2) 0 false Waiting 10)
  ∧ Admin.handle Admin.game_exports (Admin.credits_set_total 1 too_many) st
    = broadcastQueue (maybeStartNext (set_db t st))
  ∧ ∀ fuel, maybeStartNext_run fuel (set_db t st) = None.
Proof.
  intros st t. split; [apply reach_boot|]. split; [reflexivity|].
  split; [vm_compute; reflexivity|]. split; [reflexivity|].
  intros [|fuel]; [reflexivity|].
  rewrite maybeStartNext_run_unfold.
  assert (Hp : pick_next (set_db t st)
               = Some (1, mkDonation "w" "Walt" (2 ^ 53 + 2) 0 false Waiting 10))
    by (vm_compute; reflexivity).
  change (active (set_db t st)) with (@None session). rewrite Hp.
  apply activate_run_stuck; [|reflexivity].
  apply Z.ltb_lt. vm_compute. reflexivity.
Qed.

End Termination.

(* ===================================================================== *)
(** * Boot recovery                                                       *)
(* ===================================================================== *)

Module Recovery.
Import Db Game Props DbFacts GameFacts.

(** C6. The process starts in [boot]: no session, no timer, and the table
    that [recoverAfterRestart] returns, so recovery has run once before any
    entry point can be called. Its first loop turns every 'active' row into
    'waiting', whatever its credits; its second loop then turns every
    'waiting' row with [credits_total - credits_used <= 0] into 'done'. A
    row found 'active' without credits left therefore ends 'done'. *)
Theorem boot_recovery (t : table) (sq now : Z) :
  (active (boot t sq now) = None ∧ timers (boot t sq now) = []
   ∧ db (boot t sq now) = finish_empty_waitings (demote_actives t))
  ∧ (∀ i, demote_actives t !! i = demoted <$> t !! i)
  ∧ (∀ i, finish_empty_waitings (demote_actives t) !! i
          = finished <$> demote_actives t !! i)
  ∧ (∀ i r, t !! i = Some r → status r = Active →
       status <$> demote_actives t !! i = Some Waiting)
  ∧ (∀ i r, t !! i = Some r → status r = Active ∨ status r = Waiting →
       status <$> db (boot t sq now) !! i
       = Some (if remaining r <=? 0 then Done else Waiting))
  ∧ (∀ i r, t !! i = Some r → status r ≠ Active → status r ≠ Waiting →
       db (boot t sq now) !! i = Some r).
Proof.
  split; [done|]. split; [apply lookup_demote_actives|].
  split; [intros i; apply lookup_finish_empty_waitings|].
  split; [|split].
  - intros i r Hl Hs. rewrite lookup_demote_actives, Hl. simpl.
    unfold demoted. by rewrite bool_decide_true.
  - intros i r Hl Hs. simpl. rewrite lookup_recoverAfterRestart, Hl. simpl.
    f_equal. unfold recovered, finished, demoted.
    destruct Hs as [Hs|Hs].
    + rewrite (bool_decide_true _ Hs).
      change (remaining (with_status Waiting r)) with (remaining r).
      destruct (remaining r <=? 0); reflexivity.
    + assert (Ha : status r ≠ Active) by (rewrite Hs; discriminate).
      rewrite (bool_decide_false _ Ha), (bool_decide_true _ Hs).
      destruct (remaining r <=? 0); simpl; [reflexivity | exact Hs].
  - intros i r Hl Ha Hw. simpl. rewrite lookup_recoverAfterRestart, Hl. simpl.
    unfold recovered, finished, demoted.
    rewrite (bool_decide_false _ Ha). by rewrite (bool_decide_false _ Hw).
Qed.

Lemma boot_recovery_witness :
  status <$> db (boot crashed 2 100) !! 1 = Some Done.
Proof.
  apply (proj1 (proj2 (proj2 (proj2 (proj2 (boot_recovery crashed 2 100)))))
           1 (mkDonation "a" "Ann" 2 2 true Active 10)).
  - vm_compute. reflexivity.
  - left. reflexivity.
Defined.

End Recovery.

(* ===================================================================== *)
(** * The credit columns                                                  *)
(* ===================================================================== *)

Module Ledger.
Import Db Game System Props Numbers Samples DbFacts GameFacts StepFacts.

Lemma used_plus_one_ok r :
  credits_ok r → credits_ok (with_credits_used (used_plus_one r) r).
Proof.
  unfold credits_ok, used_plus_one. simpl.
  destruct (Z.ltb_spec (credits_total r) (credits_used r + 1)); lia.
Qed.

Lemma alter_ok (f : donation → donation) (t : table) i :
  (∀ r, t !! i = Some r → credits_ok r → credits_ok (f r)) →
  table_ok t → table_ok (alter f i t).
Proof.
  intros Hf Hok j r' Hl.
  apply lookup_alter_Some in Hl as [[-> [r [Hr ->]]]|[_ Hl]]; eauto.
Qed.

Lemma apply_op_ok op t : table_ok t → table_ok (apply_op op t).
Proof.
  intros Hok. destruct op as [i|i delta|i n|i n]; simpl.
  - apply alter_ok; [|assumption]. intros r _. apply used_plus_one_ok.
  - unfold adjustCredits, getDonationById.
    destruct (t !! i) as [row|] eqn:Hrow; [|assumption].
    apply alter_ok; [|assumption]. intros r Hr. rewrite Hrow in Hr.
    injection Hr as ->. unfold credits_ok. simpl. lia.
  - unfold setCreditsTotal, getDonationById.
    destruct (t !! i) as [row|] eqn:Hrow; [|assumption].
    apply alter_ok; [|assumption]. intros r Hr. rewrite Hrow in Hr.
    injection Hr as ->. unfold credits_ok. simpl. lia.
  - unfold setCreditsUsed, getDonationById.
    destruct (t !! i) as [row|] eqn:Hrow; [|assumption].
    apply alter_ok; [|assumption]. intros r Hr. rewrite Hrow in Hr.
    injection Hr as ->. unfold credits_ok. simpl. lia.
Qed.

(** C9, as the code has it. [useOneCredit], [adjustCredits],
    [setCreditsTotal] and [setCreditsUsed] keep
    [0 <= credits_used <= credits_total] on every row of a table that has
    it. At the cap [useOneCredit] leaves [credits_used] equal to
    [credits_total]; a new total is raised to [credits_used] when it is
    lower, also when it comes from [adjustCredits]; a new used count is
    brought into [0, credits_total]. ([adjustCredits] adds two doubles:
    the sum is the sum in [Z] when both and their sum are in the exact
    range.) *)
Theorem credit_bounds_kept (t : table) :
  table_ok t →
  (∀ op, table_ok (apply_op op t))
  ∧ (∀ ops, table_ok (foldr apply_op t ops))
  ∧ (∀ i r, t !! i = Some r → credits_used r = credits_total r →
       ∃ r', useOneCredit i t !! i = Some r'
             ∧ credits_total r' = credits_total r
             ∧ credits_used r' = credits_total r)
  ∧ (∀ i n r, t !! i = Some r →
       ∃ r', setCreditsTotal i n t !! i = Some r'
             ∧ credits_used r' = credits_used r
             ∧ credits_total r' = Z.max (Z.max 0 n) (credits_used r)
             ∧ credits_used r <= credits_total r')
  ∧ (∀ i delta r, t !! i = Some r →
       ∃ r', adjustCredits i delta t !! i = Some r'
             ∧ credits_used r' = credits_used r
             ∧ credits_used r <= credits_total r'
             ∧ (credits_total r + delta <= credits_used r →
                credits_total r' = credits_used r)
             ∧ (safe_int (credits_total r) → safe_int delta →
                safe_int (credits_total r + delta) →
                credits_total r'
                = Z.max (Z.max 0 (credits_total r + delta)) (credits_used r)))
  ∧ (∀ i n r, t !! i = Some r →
       ∃ r', setCreditsUsed i n t !! i = Some r'
             ∧ credits_total r' = credits_total r
             ∧ credits_used r' = Z.max 0 (Z.min n (credits_total r))
             ∧ 0 <= credits_used r' <= credits_total r).
Proof.
  intros Hok. split; [intros op; by apply apply_op_ok|].
  split. { induction ops as [|op ops IH]; simpl; [assumption|by apply apply_op_ok]. }
  split; [|split; [|split]].
  - intros i r Hl Hcap. eexists. unfold useOneCredit.
    rewrite lookup_alter_eq, Hl. split; [reflexivity|]. simpl.
    split; [reflexivity|]. unfold used_plus_one.
    destruct (Z.ltb_spec (credits_total r) (credits_used r + 1)); lia.
  - intros i n r Hl. eexists. unfold setCreditsTotal, getDonationById.
    rewrite Hl, lookup_alter_eq, Hl. split; [reflexivity|]. simpl.
    split; [reflexivity|]. split; [reflexivity|]. lia.
  - intros i delta r Hl. eexists. unfold adjustCredits, getDonationById.
    rewrite Hl, lookup_alter_eq, Hl. split; [reflexivity|]. simpl.
    destruct (Hok i r Hl).
    split; [reflexivity|]. split; [lia|]. split; [lia|]. reflexivity.
  - intros i n r Hl. eexists. unfold setCreditsUsed, getDonationById.
    rewrite Hl, lookup_alter_eq, Hl. split; [reflexivity|]. simpl.
    split; [reflexivity|]. split; [reflexivity|].
    destruct (Hok i r Hl). lia.
Qed.

Lemma rows_ok (l : list (Z * donation)) :
  Forall (λ kr, credits_ok kr.2) l → table_ok (list_to_map l).
Proof.
  intros Hall i r Hl. apply elem_of_list_to_map_2 in Hl.
  by apply (proj1 (Forall_forall _ _) Hall (i, r)).
Qed.

Lemma paid_rows_ok : table_ok paid_rows.
Proof.
  apply rows_ok. repeat constructor; simpl; lia.
Qed.

Lemma credit_bounds_kept_witness :
  table_ok (apply_op (op_adjustCredits 2 (-3)) paid_rows).
Proof.
  apply (proj1 (credit_bounds_kept paid_rows paid_rows_ok)).
Defined.

(** C9 as stated promises the bounds after every operation of the
    persistence layer. Ann has paid 5 euros and used 3 credits (as the
    admin has set them); a second confirmation of her payment, for 2
    euros, writes [credits_total = 2] and leaves [credits_used = 3]. *)
Lemma payment_breaks_bounds_counterexample :
  let st := ann_used_three in
  let t' := markIntentPaid "a" 2 (clock st) (db st) in
  reachable ∅ 0 1000 st
  ∧ table_ok (db st)
  ∧ db st !! 1 = Some (mkDonation "a" "Ann" 5 3 true Active 1000)
  ∧ db (perform (payment_confirmed "a" (2 # 1)) st) = t'
  ∧ t' !! 1 = Some (mkDonation "a" "Ann" 2 3 true Waiting 1000)
  ∧ ¬ table_ok t'.
Proof.
  intros st t'.
  split.
  { apply reachable_run; [apply reach_boot|].
    repeat (apply Forall_cons; split; [intros ?; exact I|]). apply Forall_nil_2. }
  split.
  { intros i r Hl. apply elem_of_map_to_list in Hl. vm_compute in Hl.
    apply elem_of_cons in Hl as [Hl|Hl]; [|by apply not_elem_of_nil in Hl].
    injection Hl as -> ->. unfold credits_ok. simpl. lia. }
  split; [vm_compute; reflexivity|]. split; [vm_compute; reflexivity|].
  split; [vm_compute; reflexivity|].
  intros Hok. destruct (Hok 1 (mkDonation "a" "Ann" 2 3 true Waiting 1000)) as [_ H];
    [vm_compute; reflexivity|]. simpl in H. lia.
Qed.

End Ledger.

(* ===================================================================== *)
(** * Rejected grabs                                                      *)
(* ===================================================================== *)

Module Grab.
Import Db Game Props.

(** C7, as the code has it. [handleGrabIfAllowed] answers
    [{ok: false, error: 'no_active'}] when there is no session and
    [{ok: false, error: 'grab_already_used'}] when [grabUsed] is set; in
    both cases the whole state (the session with all its fields, the table,
    the timers, the log) is the one it was called on. *)
Theorem grab_rejections (st : state) :
  (active st = None →
     handleGrabIfAllowed st = (grab_rejected "no_active", st))
  ∧ (∀ s, active st = Some s → grabUsed s = true →
       handleGrabIfAllowed st = (grab_rejected "grab_already_used", st)).
Proof.
  unfold handleGrabIfAllowed. split.
  - intros ->. reflexivity.
  - intros s -> ->. reflexivity.
Qed.

Lemma grab_rejections_witness :
  handleGrabIfAllowed (boot ∅ 0 0) = (grab_rejected "no_active", boot ∅ 0 0).
Proof. apply (proj1 (grab_rejections (boot ∅ 0 0))). reflexivity. Defined.

(** C7 as stated names the first error 'no_active_session'; without a
    session the code answers with another string. *)
Lemma grab_error_name_counterexample :
  active (boot ∅ 0 0) = None
  ∧ handleGrabIfAllowed (boot ∅ 0 0)
    ≠ (grab_rejected "no_active_session", boot ∅ 0 0).
Proof. split; [reflexivity|]. intros H. discriminate H. Qed.

End Grab.

(* ===================================================================== *)
(** * The admin force-end                                                 *)
(* ===================================================================== *)

Module ForceEnd.
Import Db Game Props System StepFacts.

(** With the game module as exported, the helper takes its fallback: the
    row of the session holder is set to 'done', and [maybeStartNext]
    returns at once because [active] is still set. *)
Lemma fallback_keeps_session (reason : string) (st : state) (s : session) :
  active st = Some s → donationId s ≠ 0 →
  Admin.safeForceEndActive Admin.game_exports reason st
  = broadcastQueue (set_db (setDonationStatus (donationId s) Done (db st)) st).
Proof.
  intros Ha Hid. unfold Admin.safeForceEndActive. simpl.
  unfold getActiveState. rewrite Ha. simpl.
  destruct (donationId s) eqn:Hd; [done| |];
    by rewrite GameFacts.maybeStartNext_unfold; simpl; rewrite Ha.
Qed.

(** C8 at a sample state: Ann holds the session, Bob waits, the admin ends
    the active player. Ann's row becomes 'done', but the session is still
    hers, her first-move timer is still pending, [gpio.releaseAll] was not
    called and Bob was not started. *)
Theorem force_end_leaves_session :
  let st := ann_active_bob_waiting in
  let st' := Admin.safeForceEndActive Admin.game_exports "admin_end" st in
  reachable ∅ 0 1000 st
  ∧ st' = perform (admin_request Admin.player_end_active) st
  ∧ donationId <$> active st = Some 1
  ∧ active st' = active st
  ∧ timers st' = timers st
  ∧ List.filter (λ t, negb (is_credit_pulse t)) (timers st')
    = [mkTimer 2 16000 first_move_timeout]
  ∧ releases (log st') = O
  ∧ status <$> db st' !! 1 = Some Done
  ∧ status <$> db st' !! 2 = Some Waiting.
Proof.
  split; [apply ann_active_bob_waiting_reachable|].
  split; [reflexivity|].
  vm_compute. repeat split.
Qed.

End ForceEnd.

(* ===================================================================== *)
(** * Stale timers                                                        *)
(* ===================================================================== *)

Module StaleTimers.
Import Db Game Props System StepFacts.

(** C1, as the code has it. The closures of the two credit timers compare
    the epoch they captured with [creditSeq] themselves: run in a state
    without session or with another epoch they return the state they were
    given, whether or not their handle was cleared. The closure of the
    first-move timer captures no epoch; it returns the state unchanged when
    there is no session or when [hasMoved] is set. *)
Theorem stale_timers_discarded (captured : Z) (st : state) :
  (stale captured st →
     run_callback (armed normal_expiry captured) st = st
     ∧ run_callback (armed grab_expiry captured) st = st)
  ∧ (active st = None ∨ hasMoved <$> active st = Some true →
     run_callback (armed first_move captured) st = st).
Proof.
  unfold stale. simpl. unfold onCreditTimer, onGrabTimer, onFirstMoveTimeout.
  split.
  - destruct (active st) as [s|]; [|done].
    intros Hne. destruct (Z.eqb_spec (creditSeq s) captured); done.
  - intros [H|H].
    + by rewrite H.
    + destruct (active st) as [s|]; [|done]. simpl in H.
      injection H as ->. reflexivity.
Qed.

Lemma stale_timers_discarded_witness :
  run_callback (armed normal_expiry 0) ann_second_credit = ann_second_credit
  ∧ run_callback (armed grab_expiry 0) ann_second_credit = ann_second_credit.
Proof.
  apply (proj1 (stale_timers_discarded 0 ann_second_credit)).
  vm_compute. discriminate.
Defined.

(** C1 as stated fails for the first-move timer. Ann's first first-move
    timer (handle 2) was armed under epoch 0. Her move cleared the handle;
    after the end of her first credit the epoch is 1 and [hasMoved] is
    reset. The closure of that old timer has no epoch to compare: run in
    this state, it ends her session and starts Bob. *)
Lemma stale_first_move_counterexample :
  reachable ∅ 0 1000 ann_second_credit
  ∧ creditSeq <$> active ann_active_bob_waiting = Some 0
  ∧ mkTimer 2 16000 (armed first_move 0) ∈ timers ann_active_bob_waiting
  ∧ stale 0 ann_second_credit
  ∧ run_callback (armed first_move 0) ann_second_credit ≠ ann_second_credit
  ∧ holder ann_second_credit = Some 1
  ∧ holder (run_callback (armed first_move 0) ann_second_credit) = Some 2.
Proof.
  split; [apply ann_second_credit_reachable|].
  split; [vm_compute; reflexivity|].
  split; [vm_compute; left|].
  split; [vm_compute; discriminate|].
  split; [|split; vm_compute; reflexivity].
  intros H. apply (f_equal holder) in H. vm_compute in H. discriminate H.
Qed.

End StaleTimers.

(* ===================================================================== *)
(** * One session at a time                                               *)
(* ===================================================================== *)

Module Sessions.
Import Db Game Props System DbFacts GameFacts StepFacts.

(** C3. The session is the one value of the variable [active], so there
    is at most one. In every state that a process reaches, between two
    turns of the event loop, the rows with status 'active' all carry the id
    of that session, so there is at most one such row; in the log every
    'player-start' comes when no session is open and the open session is
    the one [active] holds. [maybeStartNext] returns the state unchanged
    whenever [active] is set. *)
Theorem one_session_at_a_time (t : table) (sq now : Z) (st : state) :
  reachable t sq now st →
  (∀ i j ri rj, db st !! i = Some ri → status ri = Active →
                db st !! j = Some rj → status rj = Active → i = j)
  ∧ (∀ i r, db st !! i = Some r → status r = Active → holder st = Some i)
  ∧ sessions_ok (log st) = true
  ∧ open_session (log st) = holder st
  ∧ (is_Some (active st) → maybeStartNext st = st).
Proof.
  intros Hreach. apply consistent_reachable in Hreach as (Hrows & Hok & Hopen).
  split; [|split; [exact Hrows|split; [exact Hok|split; [exact Hopen|]]]].
  - intros i j ri rj Hi Hsi Hj Hsj.
    pose proof (Hrows i ri Hi Hsi) as H1. pose proof (Hrows j rj Hj Hsj) as H2.
    congruence.
  - intros [s Hs]. rewrite maybeStartNext_unfold. by rewrite Hs.
Qed.

Lemma one_session_at_a_time_witness :
  sessions_ok (log ann_active_bob_waiting) = true
  ∧ open_session (log ann_active_bob_waiting) = holder ann_active_bob_waiting.
Proof.
  destruct (one_session_at_a_time ∅ 0 1000 ann_active_bob_waiting
              ann_active_bob_waiting_reachable) as (_ & _ & Hok & Hopen & _).
  split; [exact Hok|exact Hopen].
Defined.

End Sessions.

(* ===================================================================== *)
(** * Credit pulses                                                       *)
(* ===================================================================== *)

Module Pulses.
Import Db Game Props System Rows Run Arming.
Import DbFacts GameFacts StepFacts EndFacts RunFacts ArmFacts.



End Pulses.

(* ===================================================================== *)
(** * The first-move timeout                                              *)
(* ===================================================================== *)

Module FirstMove.
Import Db Game Props System Rows DbFacts GameFacts StepFacts EndFacts MoreFacts.




End FirstMove.

(* ===================================================================== *)
(** * One credit per epoch                                                *)
(* ===================================================================== *)

Module Consumption.
Import Db Game Props System Rows Samples DbFacts GameFacts StepFacts EndFacts.







End Consumption.

(* ===================================================================== *)
(** * The queue listing and the writers of the table                      *)
(* ===================================================================== *)

Module TableProps.
Import Db Props Queries Rows Numbers Columns DbFacts MoreFacts ColumnFacts.

(** X1. [listQueue] returns the rows whose status is 'waiting' or
    'active', each once, with [created_at] never decreasing along the
    list. *)
Theorem listQueue_lists_queue (t : table) :
  (∀ i r, (i, r) ∈ listQueue t
          ↔ t !! i = Some r ∧ (status r = Waiting ∨ status r = Active))
  ∧ NoDup (listQueue t).*1
  ∧ StronglySorted (λ x y, created_at x.2 <= created_at y.2) (listQueue t).
Proof.
  split; [|split].
  - intros i r. rewrite elem_of_listQueue. unfold in_queue.
    destruct (status r); split; intros [? H]; split; try done;
      try (by left); try (by right); by destruct H.
  - apply listQueue_NoDup.
  - eapply StronglySorted_weaken; [|apply listQueue_sorted].
    intros x y. apply row_lt_le.
Qed.

(** A table that differs from [t] at the key [i] only, where its row is
    queued with the latest [created_at]: the row is listed last and the
    others keep their order. *)
Lemma listQueue_move_last (t t' : table) i r' :
  t' !! i = Some r' → in_queue r' = true →
  (∀ j, j ≠ i → t' !! j = t !! j) →
  (∀ j rj, (j, rj) ∈ listQueue t → j ≠ i → created_at rj < created_at r') →
  listQueue t' = List.filter (not_key i) (listQueue t) ++ [(i, r')].
Proof.
  intros Hi Hq Hother Hlate. apply sorted_unique.
  - apply listQueue_sorted.
  - apply sorted_snoc; [apply List_filter_sorted, listQueue_sorted|].
    apply Forall_forall. intros [j rj] Hin.
    apply elem_of_List_filter in Hin as [Hin Hk]. unfold not_key in Hk. simpl in Hk.
    left. simpl. apply (Hlate j rj Hin). intros ->. by rewrite Z.eqb_refl in Hk.
  - intros [j r]. rewrite elem_of_app, elem_of_List_filter, !elem_of_listQueue.
    rewrite list_elem_of_singleton. unfold not_key. simpl.
    destruct (Z.eqb_spec j i) as [->|Hne]; simpl.
    + split.
      * intros [H _]. right. congruence.
      * intros [[_ H]|H]; [done|]. injection H as <-. done.
    + rewrite (Hother j Hne). split.
      * intros [? ?]. by left.
      * intros [[[? ?] _]|H]; [done|]. congruence.
Qed.

Lemma not_key_filter (t t' : table) i :
  (∀ j, j ≠ i → t' !! j = t !! j) →
  (∀ r, t' !! i = Some r → in_queue r = false) →
  listQueue t' = List.filter (not_key i) (listQueue t).
Proof.
  intros Hother Hi. apply listQueue_filter. intros j r. unfold not_key. simpl.
  destruct (Z.eqb_spec j i) as [->|Hne]; simpl.
  - split; [|by intros (_ & _ & ?)]. intros [H Hq]. rewrite (Hi r H) in Hq. done.
  - rewrite (Hother j Hne). tauto.
Qed.

(** X2. Leaving the queue does not disturb it: when a row is set to
    'created' or 'done', or is deleted, the listing is the old one without
    that row. A change between 'waiting' and 'active' of a listed row keeps
    every row at its place. *)
Theorem queue_order_kept (t : table) (i : Z) :
  (∀ s, s = Created ∨ s = Done →
     listQueue (setDonationStatus i s t) = List.filter (not_key i) (listQueue t))
  ∧ listQueue (deleteDonationById i t) = List.filter (not_key i) (listQueue t)
  ∧ (∀ s r, s = Waiting ∨ s = Active → t !! i = Some r → in_queue r = true →
       listQueue (setDonationStatus i s t)
       = map (λ q, if q.1 =? i then (q.1, with_status s q.2) else q) (listQueue t)
       ∧ (listQueue (setDonationStatus i s t)).*1 = (listQueue t).*1).
Proof.
  split; [|split].
  - intros s Hs. apply not_key_filter.
    + intros j Hne. rewrite lookup_setDonationStatus, decide_False; congruence.
    + intros r. rewrite lookup_setDonationStatus, decide_True by done.
      intros H. apply fmap_Some in H as (r0 & _ & ->).
      by destruct Hs as [-> | ->].
  - apply not_key_filter.
    + intros j Hne. unfold deleteDonationById. by rewrite lookup_delete_ne.
    + intros r. unfold deleteDonationById. by rewrite lookup_delete_eq.
  - intros s r Hs Hi Hq.
    assert (Heq : listQueue (setDonationStatus i s t)
                  = map (λ q, if q.1 =? i then (q.1, with_status s q.2) else q)
                      (listQueue t)).
    { apply sorted_unique.
      - apply listQueue_sorted.
      - apply sorted_map; [|apply listQueue_sorted].
        intros [j rj]. simpl. by destruct (j =? i).
      - intros [j rj]. rewrite elem_of_listQueue, lookup_setDonationStatus.
        rewrite list_elem_of_In, in_map_iff. split.
        + intros [H Hqj]. destruct (decide (i = j)) as [->|Hne].
          * exists (j, r). simpl. rewrite Z.eqb_refl, Hi in *. simpl in H.
            injection H as <-. split; [done|].
            apply list_elem_of_In, elem_of_listQueue. done.
          * exists (j, rj). simpl.
            destruct (Z.eqb_spec j i); [congruence|]. split; [done|].
            apply list_elem_of_In, elem_of_listQueue. done.
        + intros ([j0 r0] & Hg & Hin).
          apply list_elem_of_In, elem_of_listQueue in Hin as [H0 Hq0]. simpl in Hg.
          destruct (Z.eqb_spec j0 i) as [->|Hne]; injection Hg as <- <-.
          * rewrite decide_True, H0 by done. split; [done|].
            by destruct Hs as [-> | ->].
          * rewrite decide_False by congruence. done. }
    split; [exact Heq|]. rewrite Heq. rewrite <- list_fmap_compose.
    apply list_fmap_ext. intros _ [j rj] _. simpl. by destruct (j =? i).
Qed.

(** X3. [requeueToEnd] on a row, at a time later than the [created_at] of
    every other listed row, lists that row last, with status 'waiting' and
    its credits as they were, and keeps the order of the others. On a
    missing id it changes nothing. *)
Theorem requeueToEnd_goes_last (t : table) (i now : Z) :
  (t !! i = None → requeueToEnd i now t = t)
  ∧ (∀ r, t !! i = Some r →
       (∀ j rj, (j, rj) ∈ listQueue t → j ≠ i → created_at rj < now) →
       listQueue (requeueToEnd i now t)
       = List.filter (not_key i) (listQueue t)
         ++ [(i, mkDonation (intent_id r) (name r) (credits_total r)
                   (credits_used r) (credits_pulsed r) Waiting now)]).
Proof.
  split.
  - intros H. unfold requeueToEnd. by apply alter_id'.
  - intros r Hi Hlate. apply listQueue_move_last.
    + unfold requeueToEnd. by rewrite lookup_alter_eq, Hi.
    + done.
    + intros j Hne. unfold requeueToEnd. by rewrite lookup_alter_ne.
    + exact Hlate.
Qed.

Lemma requeueToEnd_goes_last_witness :
  listQueue (requeueToEnd 1 50 paid_rows)
  = List.filter (not_key 1) (listQueue paid_rows)
    ++ [(1, mkDonation "a" "Ann" 3 3 true Waiting 50)].
Proof.
  apply (proj2 (requeueToEnd_goes_last paid_rows 1 50)
           (mkDonation "a" "Ann" 3 3 true Active 10)).
  - vm_compute. reflexivity.
  - intros j rj Hin Hne. vm_compute in Hin.
    repeat (apply elem_of_cons in Hin as [Hin|Hin];
            [injection Hin as -> ->; simpl; lia|]).
    by apply not_elem_of_nil in Hin.
Defined.

Lemma queue_order_kept_witness :
  (listQueue (setDonationStatus 2 Active paid_rows)).*1 = (listQueue paid_rows).*1.
Proof.
  apply (proj2 (proj2 (queue_order_kept paid_rows 2)) Active
           (mkDonation "b" "Bob" 5 1 false Waiting 20)).
  - by right.
  - vm_compute. reflexivity.
  - reflexivity.
Defined.

(** ** [markIntentPaid] *)

Lemma markIntentPaid_twice (iid : string) (c now c' now' : Z) (t : table) :
  markIntentPaid iid c' now' (markIntentPaid iid c now t)
  = markIntentPaid iid c' now' t.
Proof.
  apply map_eq. intros i. unfold markIntentPaid.
  rewrite !lookup_fmap. destruct (t !! i) as [r|]; [|done]. simpl. f_equal.
  destruct (has_intent iid r) eqn:H; simpl; rewrite ?H; [|done].
  unfold has_intent in *. simpl. by rewrite H.
Qed.

Lemma markIntentPaid_comm (iid iid' : string) (c now c' now' : Z) (t : table) :
  iid ≠ iid' →
  markIntentPaid iid c now (markIntentPaid iid' c' now' t)
  = markIntentPaid iid' c' now' (markIntentPaid iid c now t).
Proof.
  intros Hne. apply map_eq. intros i. unfold markIntentPaid.
  rewrite !lookup_fmap. destruct (t !! i) as [r|]; [|done]. simpl. f_equal.
  destruct (has_intent iid r) eqn:H, (has_intent iid' r) eqn:H'; simpl;
    unfold has_intent in *; simpl; rewrite ?H, ?H'; try done.
  apply bool_decide_eq_true in H, H'. congruence.
Qed.

(** X4. [markIntentPaid] writes, in the rows of that intent,
    [credits_total], [status] ('waiting') and [created_at], and leaves
    their [intent_id], [name], [credits_used] and [credits_pulsed] and
    every row of another intent as they are; an unknown intent changes
    nothing. In the queue listing a later call for the same intent
    overrides an earlier one, and calls for two intents commute. Under the
    unique index, a row paid at a time later than the [created_at] of
    every other listed row is listed last. On the whole rows the UPDATE,
    when the unique index on the payment id lets it through, writes these
    columns and besides [amount_eur], [updated_at] and, where the row has
    none yet, the payment id; it is let through whenever the rows of the
    intent have their payment id already. *)
Theorem markIntentPaid_effect (iid : string) (c now : Z) (t : table) :
  (∀ i r, t !! i = Some r → intent_id r ≠ iid →
     markIntentPaid iid c now t !! i = Some r)
  ∧ (∀ i r, t !! i = Some r → intent_id r = iid →
       ∃ r', markIntentPaid iid c now t !! i = Some r'
             ∧ credits_total r' = c ∧ status r' = Waiting ∧ created_at r' = now
             ∧ same_but_payment r r')
  ∧ (∀ i, t !! i = None → markIntentPaid iid c now t !! i = None)
  ∧ (∀ c' now', listQueue (markIntentPaid iid c' now' (markIntentPaid iid c now t))
                = listQueue (markIntentPaid iid c' now' t))
  ∧ (∀ iid' c' now', iid ≠ iid' →
       listQueue (markIntentPaid iid c now (markIntentPaid iid' c' now' t))
       = listQueue (markIntentPaid iid' c' now' (markIntentPaid iid c now t)))
  ∧ ((∀ i r, t !! i = Some r → intent_id r ≠ iid) → markIntentPaid iid c now t = t)
  ∧ (∀ i r, intents_unique t → t !! i = Some r → intent_id r = iid →
       (∀ j rj, (j, rj) ∈ listQueue t → j ≠ i → created_at rj < now) →
       listQueue (markIntentPaid iid c now t)
       = List.filter (not_key i) (listQueue t)
         ++ [(i, mkDonation iid (name r) c (credits_used r) (credits_pulsed r)
                   Waiting now)])
  ∧ (∀ pid amt (w : whole), columns w = t →
       (∀ w', markIntentPaid_whole iid pid amt c now w = Some w' →
          columns w' = markIntentPaid iid c now t
          ∧ (∀ i x, w !! i = Some x → intent_id x.1 ≠ iid → w' !! i = Some x)
          ∧ (∀ i x, w !! i = Some x → intent_id x.1 = iid →
               ∃ x', w' !! i = Some x'
                     ∧ mollie_payment_id x'.2
                       = Some (default pid (mollie_payment_id x.2))
                     ∧ amount_eur x'.2 = Some amt ∧ updated_at x'.2 = now
                     ∧ email x'.2 = email x.2
                     ∧ amount_requested_eur x'.2 = amount_requested_eur x.2
                     ∧ session_token x'.2 = session_token x.2))
       ∧ (NoDup (payment_ids w) →
          (∀ i x, w !! i = Some x → intent_id x.1 = iid →
                  is_Some (mollie_payment_id x.2)) →
          is_Some (markIntentPaid_whole iid pid amt c now w))).
Proof.
  pose proof (lookup_markIntentPaid iid c now t) as Hl.
  split; [|split; [|split; [|split; [|split; [|split; [|split]]]]]].
  - intros i r Hi Hr. rewrite Hl, Hi. simpl.
    by rewrite (proj2 (has_intent_false iid r) Hr).
  - intros i r Hi Hr. rewrite Hl, Hi. simpl.
    rewrite (proj2 (has_intent_true iid r) Hr). eexists. split; [reflexivity|].
    by repeat split.
  - intros i Hi. by rewrite Hl, Hi.
  - intros c' now'. by rewrite markIntentPaid_twice.
  - intros iid' c' now' Hne. by rewrite markIntentPaid_comm.
  - intros Hno. apply map_eq. intros i. rewrite Hl.
    destruct (t !! i) as [r|] eqn:Hi; [|done]. simpl. f_equal.
    by rewrite (proj2 (has_intent_false iid r) (Hno i r Hi)).
  - intros i r Huniq Hi Hr Hlate. apply listQueue_move_last.
    + rewrite Hl, Hi. simpl. rewrite (proj2 (has_intent_true iid r) Hr).
      by rewrite Hr.
    + done.
    + intros j Hne. rewrite Hl. destruct (t !! j) as [rj|] eqn:Hj; [|done].
      simpl. f_equal. destruct (has_intent iid rj) eqn:H; [|done].
      apply has_intent_true in H. destruct Hne.
      apply (Huniq j i rj r Hj Hi). congruence.
    + exact Hlate.
  - intros pid amt w <-. split.
    + intros w' Hw'.
      apply markIntentPaid_whole_Some in Hw' as (-> & Hcol & _).
      split; [exact Hcol|]. split.
      * intros i x Hi Hx. rewrite lookup_fmap, Hi. simpl.
        by rewrite (proj2 (has_intent_false iid x.1) Hx).
      * intros i x Hi Hx. rewrite lookup_fmap, Hi. simpl.
        rewrite (proj2 (has_intent_true iid x.1) Hx).
        eexists. split; [reflexivity|]. by repeat split.
    + apply markIntentPaid_whole_attached.
Qed.

Lemma paid_rows_unique : intents_unique paid_rows.
Proof.
  intros i j ri rj Hi Hj. apply elem_of_map_to_list in Hi, Hj.
  vm_compute in Hi, Hj.
  repeat (apply elem_of_cons in Hi as [Hi|Hi]; [injection Hi as -> ->|]);
    try (by apply not_elem_of_nil in Hi);
    repeat (apply elem_of_cons in Hj as [Hj|Hj]; [injection Hj as -> ->|]);
    try (by apply not_elem_of_nil in Hj); simpl; done.
Qed.

Lemma markIntentPaid_effect_witness :
  listQueue (markIntentPaid "a" 4 60 paid_rows)
  = List.filter (not_key 1) (listQueue paid_rows)
    ++ [(1, mkDonation "a" "Ann" 4 3 true Waiting 60)].
Proof.
  apply (proj1 (proj2 (proj2 (proj2 (proj2 (proj2 (proj2
           (markIntentPaid_effect "a" 4 60 paid_rows)))))))
           1 (mkDonation "a" "Ann" 3 3 true Active 10) paid_rows_unique).
  - vm_compute. reflexivity.
  - reflexivity.
  - intros j rj Hin Hne. vm_compute in Hin.
    repeat (apply elem_of_cons in Hin as [Hin|Hin];
            [injection Hin as -> ->; simpl; lia|]).
    by apply not_elem_of_nil in Hin.
Defined.

(** ** [createIntent] and [getIntent] *)

Lemma getIntent_Some iid (t : table) i r :
  getIntent iid t = Some (i, r) → t !! i = Some r ∧ intent_id r = iid.
Proof.
  intros H. apply find_some in H as [Hin H].
  apply list_elem_of_In, elem_of_map_to_list in Hin.
  by apply has_intent_true in H.
Qed.

Lemma getIntent_found iid (t : table) i r :
  intents_unique t → t !! i = Some r → intent_id r = iid →
  getIntent iid t = Some (i, r).
Proof.
  intros Huniq Hi Hr. destruct (getIntent iid t) as [[j rj]|] eqn:Hg.
  - apply getIntent_Some in Hg as [Hj Hrj].
    assert (j = i) as -> by (apply (Huniq j i rj r); congruence). congruence.
  - exfalso. unfold getIntent in Hg.
    pose proof (find_none _ _ Hg (i, r)) as Hn. simpl in Hn.
    rewrite (proj2 (has_intent_true iid r) Hr) in Hn.
    by specialize (Hn (proj1 (list_elem_of_In _ _)
                          (proj2 (elem_of_map_to_list t i r) Hi))).
Qed.

Lemma intent_taken_spec iid (t : table) :
  existsb (λ kr, has_intent iid kr.2) (map_to_list t) = true
  ↔ ∃ i r, t !! i = Some r ∧ intent_id r = iid.
Proof.
  rewrite existsb_exists. split.
  - intros ([i r] & Hin & H). exists i, r. split.
    + by apply elem_of_map_to_list, list_elem_of_In.
    + by apply has_intent_true in H.
  - intros (i & r & Hi & Hr). exists (i, r). split.
    + by apply list_elem_of_In, elem_of_map_to_list.
    + by apply has_intent_true.
Qed.

(** X5. [createIntent] with an intent id that some row already has writes
    nothing and leaves the key counter alone. Whenever it does write, it
    adds one row under a key larger than the counter and than every key
    in use; the row has the given intent id and name, status 'created', no
    credits and is not pulsed; the rows that were there and the queue
    listing are unchanged, the intent ids stay unique, and [getIntent]
    finds the new row. Under the unique index [getIntent] returns exactly
    the row that has the intent id. On the whole rows the INSERT is
    refused exactly when the intent id or the session token drawn is in
    the table already; when it goes through, it writes what is said above,
    with the token drawn, no payment and the second reading of the
    clock as [updated_at]. *)
Theorem createIntent_fresh (iid nm : string) (now sq : Z) (t : table) :
  ((∃ i r, t !! i = Some r ∧ intent_id r = iid) →
     createIntent iid nm now sq t = (sq, t))
  ∧ (∀ k t', createIntent iid nm now sq t = (k, t') → t' ≠ t →
       ∃ row, t' = <[k := row]> t
          ∧ t !! k = None
          ∧ intent_id row = iid ∧ name row = nm ∧ status row = Created
          ∧ credits_total row = 0 ∧ credits_used row = 0
          ∧ credits_pulsed row = false ∧ created_at row = now
          ∧ sq < k
          ∧ (∀ i r, t !! i = Some r → i < k)
          ∧ (∀ i r, t !! i = Some r → t' !! i = Some r)
          ∧ listQueue t' = listQueue t
          ∧ (intents_unique t → intents_unique t')
          ∧ (intents_unique t → getIntent iid t' = Some (k, row)))
  ∧ (intents_unique t →
     ∀ i r, getIntent iid t = Some (i, r) ↔ t !! i = Some r ∧ intent_id r = iid)
  ∧ (∀ tok mail req now' (w : whole), columns w = t →
       (createIntent_whole iid tok nm mail req now now' sq w = None
        ↔ (∃ i r, t !! i = Some r ∧ intent_id r = iid)
          ∨ (∃ i x, w !! i = Some x ∧ session_token x.2 = Some tok))
       ∧ (∀ k w', createIntent_whole iid tok nm mail req now now' sq w
                  = Some (k, w') →
            createIntent iid nm now sq t = (k, columns w')
            ∧ columns w' ≠ t
            ∧ w !! k = None
            ∧ w' = <[k := (mkDonation iid nm 0 0 false Created now,
                           mkRest None mail req None (Some tok) now')]> w)).
Proof.
  split; [|split; [|split]].
  - intros H. apply intent_taken_spec in H. unfold createIntent. by rewrite H.
  - intros k t' Hc Hne. unfold createIntent in Hc.
    destruct (existsb _ _) eqn:Hex; [injection Hc as <- <-; done|].
    simpl in Hc. injection Hc as <- <-.
    assert (Hno : ∀ i r, t !! i = Some r → intent_id r ≠ iid).
    { intros i r Hi Hr. apply not_true_iff_false in Hex. apply Hex.
      apply intent_taken_spec. by exists i, r. }
    assert (Hk : ∀ i r, t !! i = Some r → i < fresh_key sq t).
    { intros i r Hi. apply StepFacts.max_key_ge in Hi. unfold fresh_key. lia. }
    assert (Huniq : intents_unique t →
              intents_unique (<[fresh_key sq t := mkDonation iid nm 0 0 false Created now]> t)).
    { intros Hu i j ri rj Hi Hj Heq.
      apply lookup_insert_Some in Hi as [[<- <-]|[Hni Hi]];
        apply lookup_insert_Some in Hj as [[<- <-]|[Hnj Hj]]; try done.
      - simpl in Heq. by destruct (Hno j rj Hj).
      - simpl in Heq. by destruct (Hno i ri Hi).
      - by apply (Hu i j ri rj). }
    exists (mkDonation iid nm 0 0 false Created now).
    split; [done|]. split; [apply StepFacts.fresh_key_fresh|].
    do 7 (split; [reflexivity|]).
    split; [unfold fresh_key; lia|]. split; [exact Hk|].
    split; [|split; [|split]].
    + intros i r Hi. rewrite lookup_insert_ne; [done|].
      specialize (Hk i r Hi). lia.
    + rewrite <- (filter_true (listQueue t)). apply listQueue_filter.
      intros i r. rewrite lookup_insert. destruct (decide (fresh_key sq t = i)) as [<-|].
      * rewrite StepFacts.fresh_key_fresh. split; [|by intros (? & _)].
        intros [[= <-] ?]. done.
      * tauto.
    + exact Huniq.
    + intros Hu. apply getIntent_found; [by apply Huniq| |done].
      apply lookup_insert_eq.
  - intros Hu i r. split; [apply getIntent_Some|].
    intros [? ?]. by apply getIntent_found.
  - intros tok mail req now' w <-. split.
    + rewrite createIntent_whole_None, intent_taken_spec, token_taken_spec. done.
    + intros k w' Hc.
      apply createIntent_whole_Some in Hc as (Hc & Hk & Hw' & _ & _).
      assert (Hfree : columns w !! k = None)
        by (rewrite Hk; apply StepFacts.fresh_key_fresh).
      split; [exact Hc|]. split; [|split; [|exact Hw']].
      * intros Heq. rewrite <- Heq, Hw', columns_insert, lookup_insert_eq in Hfree.
        discriminate.
      * rewrite lookup_columns in Hfree. by destruct (w !! k).
Qed.

Lemma createIntent_fresh_witness :
  createIntent "b" "Bea" 70 2 paid_rows = (2, paid_rows).
Proof.
  apply (proj1 (createIntent_fresh "b" "Bea" 70 2 paid_rows)).
  exists 2, (mkDonation "b" "Bob" 5 1 false Waiting 20). split; reflexivity.
Defined.

(** ** The credit columns *)

Lemma useOneCredit_times (t : table) (i : Z) (r : donation) (n : nat) :
  t !! i = Some r → credits_used r <= credits_total r →
  times n (useOneCredit i) t !! i
  = Some (with_credits_used (Z.min (credits_used r + Z.of_nat n) (credits_total r)) r)
  ∧ (∀ j, j ≠ i → times n (useOneCredit i) t !! j = t !! j).
Proof.
  intros Hi Hle. induction n as [|n [IH1 IH2]].
  - simpl. split; [|done]. rewrite Hi. f_equal. destruct r. simpl in *.
    unfold with_credits_used. simpl. f_equal. lia.
  - cbn [times]. split.
    + unfold useOneCredit at 1. rewrite lookup_alter_eq, IH1. simpl. f_equal.
      unfold with_credits_used, used_plus_one. simpl. f_equal.
      destruct (Z.ltb_spec (credits_total r)
                  (Z.min (credits_used r + Z.of_nat n) (credits_total r) + 1)); lia.
    + intros j Hne. unfold useOneCredit at 1. rewrite lookup_alter_ne by done. auto.
Qed.

(** X6. [useOneCredit] called [n] times on a row with
    [credits_used <= credits_total] leaves
    [credits_used = min (credits_used + n) credits_total]: it counts up to
    the total and then stays there. The [intent_id], [name],
    [credits_total], [credits_pulsed], [status] and [created_at] of the
    row stay, and so does every other row. On the whole rows one call
    writes [credits_used] and [updated_at] and nothing else. *)
Theorem useOneCredit_saturates (t : table) (i : Z) (r : donation) (n : nat) :
  t !! i = Some r → credits_used r <= credits_total r →
  (∃ r', times n (useOneCredit i) t !! i = Some r'
         ∧ credits_used r' = Z.min (credits_used r + Z.of_nat n) (credits_total r)
         ∧ same_but_used r r')
  ∧ (∀ j, j ≠ i → times n (useOneCredit i) t !! j = t !! j)
  ∧ (∀ now (w : whole), columns w = t →
       columns (useOneCredit_whole i now w) = useOneCredit i t
       ∧ written_at i now w (useOneCredit_whole i now w)).
Proof.
  intros Hi Hle. destruct (useOneCredit_times t i r n Hi Hle) as [H1 H2].
  split; [|split; [exact H2|]].
  - eexists. split; [exact H1|]. by repeat split.
  - intros now w <-. split; [apply columns_useOneCredit|apply update_id_written].
Qed.

Lemma useOneCredit_saturates_witness :
  ∃ r', times 7 (useOneCredit 2) paid_rows !! 2 = Some r'
        ∧ credits_used r' = Z.min (1 + Z.of_nat 7) 5
        ∧ same_but_used (mkDonation "b" "Bob" 5 1 false Waiting 20) r'.
Proof.
  apply (proj1 (useOneCredit_saturates paid_rows 2
                  (mkDonation "b" "Bob" 5 1 false Waiting 20) 7
                  eq_refl ltac:(simpl; lia))).
Defined.

Lemma setCreditsTotal_row (t : table) i n r :
  t !! i = Some r →
  setCreditsTotal i n t !! i
  = Some (with_credits_total (Z.max (Z.max 0 n) (credits_used r)) r).
Proof.
  intros Hi. unfold setCreditsTotal, getDonationById.
  by rewrite Hi, lookup_alter_eq, Hi.
Qed.

Lemma setCreditsUsed_row (t : table) i n r :
  t !! i = Some r →
  setCreditsUsed i n t !! i
  = Some (with_credits_used (Z.max 0 (Z.min n (credits_total r))) r).
Proof.
  intros Hi. unfold setCreditsUsed, getDonationById.
  by rewrite Hi, lookup_alter_eq, Hi.
Qed.

Lemma adjustCredits_row (t : table) i d r :
  t !! i = Some r →
  adjustCredits i d t !! i
  = Some (with_credits_total
            (Z.max (Z.max 0 (credits_total r + d)) (credits_used r)) r).
Proof.
  intros Hi. unfold adjustCredits, getDonationById.
  by rewrite Hi, lookup_alter_eq, Hi.
Qed.

Lemma credit_writers_other (t : table) i j n :
  j ≠ i →
  adjustCredits i n t !! j = t !! j ∧ setCreditsTotal i n t !! j = t !! j
  ∧ setCreditsUsed i n t !! j = t !! j.
Proof.
  intros Hne. unfold adjustCredits, setCreditsTotal, setCreditsUsed, getDonationById.
  destruct (t !! i); rewrite ?lookup_alter_ne by done; done.
Qed.

(** X7. The admin writers of the credit columns. On a missing id each of
    them leaves the table as it was, and none of them touches another
    row. In the row itself [setCreditsTotal] writes [credits_total] only
    and [setCreditsUsed] writes [credits_used] only, and a second call
    with the same argument writes the same value again. On a row with
    [0 <= credits_used <= credits_total] whose total, with [d >= 0]
    added, stays an exact integer, adding [d] credits with
    [adjustCredits] and then removing [d] leaves [credits_total] as it
    was; removing more credits than are unused leaves
    [credits_total = credits_used]. On the whole rows each of the three
    writes its credit column and [updated_at] and nothing else, and
    nothing at all on a missing id. *)
Theorem admin_credit_writers (t : table) (i : Z) :
  (t !! i = None →
     ∀ n, adjustCredits i n t = t ∧ setCreditsTotal i n t = t
          ∧ setCreditsUsed i n t = t)
  ∧ (∀ j n, j ≠ i →
       adjustCredits i n t !! j = t !! j ∧ setCreditsTotal i n t !! j = t !! j
       ∧ setCreditsUsed i n t !! j = t !! j)
  ∧ (∀ n r, t !! i = Some r →
       ∃ r1 r2, setCreditsTotal i n t !! i = Some r1
                ∧ setCreditsTotal i n (setCreditsTotal i n t) !! i = Some r2
                ∧ credits_total r1 = Z.max (Z.max 0 n) (credits_used r)
                ∧ credits_total r2 = credits_total r1
                ∧ same_but_total r r1 ∧ same_but_total r r2)
  ∧ (∀ n r, t !! i = Some r →
       ∃ r1 r2, setCreditsUsed i n t !! i = Some r1
                ∧ setCreditsUsed i n (setCreditsUsed i n t) !! i = Some r2
                ∧ credits_used r1 = Z.max 0 (Z.min n (credits_total r))
                ∧ credits_used r2 = credits_used r1
                ∧ same_but_used r r1 ∧ same_but_used r r2)
  ∧ (∀ d r, t !! i = Some r → credits_ok r → 0 <= d →
       safe_int (credits_total r) → safe_int d → safe_int (credits_total r + d) →
       ∃ r2, adjustCredits i (- d) (adjustCredits i d t) !! i = Some r2
             ∧ credits_total r2 = credits_total r ∧ same_but_total r r2)
  ∧ (∀ d r, t !! i = Some r → credits_ok r →
       credits_total r + d <= credits_used r →
       ∃ r1, adjustCredits i d t !! i = Some r1
             ∧ credits_total r1 = credits_used r ∧ same_but_total r r1)
  ∧ (∀ n now (w : whole), columns w = t →
       columns (adjustCredits_whole i n now w) = adjustCredits i n t
       ∧ columns (setCreditsTotal_whole i n now w) = setCreditsTotal i n t
       ∧ columns (setCreditsUsed_whole i n now w) = setCreditsUsed i n t
       ∧ written_at i now w (adjustCredits_whole i n now w)
       ∧ written_at i now w (setCreditsTotal_whole i n now w)
       ∧ written_at i now w (setCreditsUsed_whole i n now w)
       ∧ (w !! i = None →
          adjustCredits_whole i n now w = w ∧ setCreditsTotal_whole i n now w = w
          ∧ setCreditsUsed_whole i n now w = w)).
Proof.
  split; [|split; [|split; [|split; [|split; [|split]]]]].
  - intros Hi n. unfold adjustCredits, setCreditsTotal, setCreditsUsed,
      getDonationById. by rewrite Hi.
  - intros j n Hne. by apply credit_writers_other.
  - intros n r Hi. pose proof (setCreditsTotal_row t i n r Hi) as H1.
    pose proof (setCreditsTotal_row _ i n _ H1) as H2.
    eexists _, _. split; [exact H1|]. split; [exact H2|]. simpl.
    split; [done|]. split; [lia|]. by repeat split.
  - intros n r Hi. pose proof (setCreditsUsed_row t i n r Hi) as H1.
    pose proof (setCreditsUsed_row _ i n _ H1) as H2.
    eexists _, _. split; [exact H1|]. split; [exact H2|]. simpl.
    split; [done|]. split; [lia|]. by repeat split.
  - intros d r Hi [H0 Hle] Hd _ _ _.
    pose proof (adjustCredits_row t i d r Hi) as H1.
    pose proof (adjustCredits_row _ i (- d) _ H1) as H2.
    eexists. split; [exact H2|]. simpl. split; [lia|]. by repeat split.
  - intros d r Hi [H0 Hle] Hd.
    pose proof (adjustCredits_row t i d r Hi) as H1.
    eexists. split; [exact H1|]. simpl. split; [lia|]. by repeat split.
  - intros n now w <-.
    split; [apply columns_adjustCredits|].
    split; [apply columns_setCreditsTotal|].
    split; [apply columns_setCreditsUsed|].
    apply admin_writers_written.
Qed.

Lemma admin_credit_writers_witness :
  ∃ r2, adjustCredits 2 (- 3) (adjustCredits 2 3 paid_rows) !! 2 = Some r2
        ∧ credits_total r2 = 5
        ∧ same_but_total (mkDonation "b" "Bob" 5 1 false Waiting 20) r2.
Proof.
  apply (proj1 (proj2 (proj2 (proj2 (proj2 (admin_credit_writers paid_rows 2))))) 3
           (mkDonation "b" "Bob" 5 1 false Waiting 20)).
  - vm_compute. reflexivity.
  - unfold credits_ok. simpl. lia.
  - lia.
  - unfold safe_int. simpl. split; apply Z.leb_le; reflexivity.
  - unfold safe_int. split; apply Z.leb_le; reflexivity.
  - unfold safe_int. simpl. split; apply Z.leb_le; reflexivity.
Defined.

End TableProps.

(* ===================================================================== *)
(** * The session and its timers                                          *)
(* ===================================================================== *)

Module TimerProps.
Import Db Game Props System Shape Rows DbFacts GameFacts StepFacts EndFacts MoreFacts.

(** ** Handles *)

Lemma elem_of_clearTimeout t h st :
  t ∈ timers (clearTimeout h st) ↔ t ∈ timers st ∧ t_handle t ≠ h.
Proof.
  simpl. rewrite elem_of_List_filter, negb_true_iff, Nat.eqb_neq. done.
Qed.

Lemma elem_of_clear_if_set t h st :
  t ∈ timers (clear_if_set h st)
  ↔ t ∈ timers st ∧ h ≠ Some (t_handle t).
Proof.
  destruct h as [h|]; simpl clear_if_set.
  - rewrite elem_of_clearTimeout. split; intros [? ?]; split; congruence.
  - split; [by intros ?|by intros [? _]].
Qed.

Lemma NoDup_fmap_List_filter {A B} (f : A → B) (p : A → bool) (l : list A) :
  NoDup (f <$> l) → NoDup (f <$> List.filter p l).
Proof.
  induction l as [|x l IH]; simpl; [done|].
  intros Hnd. apply NoDup_cons in Hnd as [Hx Hnd].
  destruct (p x); simpl; [|auto]. apply NoDup_cons. split; [|auto].
  intros Hin. apply Hx. apply list_elem_of_fmap in Hin as (y & -> & Hy).
  apply elem_of_List_filter in Hy as [Hy _]. apply list_elem_of_fmap. eauto.
Qed.

Lemma handles_ok_clearTimeout h st : handles_ok st → handles_ok (clearTimeout h st).
Proof.
  intros [Hnd Hlt]. split.
  - simpl. by apply NoDup_fmap_List_filter.
  - intros t Ht. apply elem_of_clearTimeout in Ht as [Ht _]. by apply Hlt.
Qed.

Lemma handles_ok_clear_if_set h st : handles_ok st → handles_ok (clear_if_set h st).
Proof. destruct h; [apply handles_ok_clearTimeout|done]. Qed.

Lemma handles_ok_setTimeout cb d st :
  handles_ok st → handles_ok (setTimeout cb d st).2.
Proof.
  intros [Hnd Hlt]. split; simpl.
  - apply NoDup_cons. split; [|done]. intros Hin.
    apply list_elem_of_fmap in Hin as (t & Ht & Hin). specialize (Hlt t Hin). lia.
  - intros t Ht. apply elem_of_cons in Ht as [->|Ht]; simpl; [lia|].
    specialize (Hlt t Ht). lia.
Qed.

Lemma handles_ok_ext st st' :
  timers st' = timers st → next_handle st' = next_handle st →
  handles_ok st → handles_ok st'.
Proof. unfold handles_ok. by intros -> ->. Qed.

Lemma pulses_only_clear_if_set h st : pulses_only st → pulses_only (clear_if_set h st).
Proof. intros H t Ht. apply elem_of_clear_if_set in Ht as [Ht _]. by apply H. Qed.

Lemma schedule_pulses_ok n st :
  handles_ok st → pulses_only st →
  handles_ok (schedule_pulses n st) ∧ pulses_only (schedule_pulses n st).
Proof.
  unfold schedule_pulses. generalize (seqZ 0 n). intros l. revert st.
  induction l as [|i l IH]; intros st Hh Hp; cbn [foldl]; [done|].
  apply IH; [by apply handles_ok_setTimeout|].
  intros t Ht. simpl in Ht. apply elem_of_cons in Ht as [->|Ht]; [done|by apply Hp].
Qed.

(** ** The invariant along the functions of the scheduler *)

Lemma well_timed_ext st st' :
  active st' = active st → timers st' = timers st →
  next_handle st' = next_handle st → well_timed st → well_timed st'.
Proof.
  intros Ha Ht Hn (H1 & H2 & H3 & H4). unfold well_timed.
  rewrite Ha, Ht. split; [done|]. split; [by eapply handles_ok_ext|]. done.
Qed.

Lemma well_timed_idle st :
  active st = None → handles_ok st → pulses_only st → well_timed st.
Proof.
  intros Ha Hh Hp. split; [|split; [done|split]].
  - intros s Hs. congruence.
  - intros t Ht Hn. rewrite (Hp t Ht) in Hn. done.
  - intros s Hs. congruence.
Qed.

Lemma well_timed_pulses_only st :
  well_timed st → active st = None → pulses_only st.
Proof.
  intros (_ & _ & H3 & _) Ha t Ht.
  destruct (is_credit_pulse t) eqn:Hp; [done|].
  destruct (H3 t Ht Hp) as (s & Hs & _). congruence.
Qed.

Lemma well_timed_scheduleFirstMove st s :
  active st = Some s → session_ok s → timerStarted s = false →
  handles_ok st → pulses_only (clear_if_set (firstMoveTimer s) st) →
  well_timed (scheduleFirstMoveTimeout st).
Proof.
  intros Ha Hs Hts Hh Hp. rewrite (scheduleFirstMoveTimeout_eq st s Ha).
  set (newT := mkTimer (next_handle st) (clock st + FIRST_MOVE_MS) first_move_timeout).
  assert (Hown : owned (with_firstMove (clock st + FIRST_MOVE_MS)
                          (Some (next_handle st)) s) newT).
  { right. simpl. done. }
  split; [|split; [|split]]; simpl.
  - intros s' [= <-]. exact Hs.
  - pose proof (handles_ok_setTimeout first_move_timeout FIRST_MOVE_MS _
                  (handles_ok_clear_if_set (firstMoveTimer s) st Hh)) as Hh'.
    destruct (firstMoveTimer s); exact Hh'.
  - intros t Ht Hn. apply elem_of_cons in Ht as [->|Ht].
    + eexists. split; [done|exact Hown].
    + rewrite (Hp t Ht) in Hn. done.
  - intros s' [= <-]. exists newT. split; [left|exact Hown].
Qed.

Lemma well_timed_activate nid next st :
  active st = None → handles_ok st → pulses_only st → 0 < remaining next →
  well_timed (activate nid next st).
Proof.
  intros Ha Hh Hp Hr. unfold activate. cbv zeta.
  set (s0 := mkSession nid (remaining next) None false None
               (clock st + FIRST_MOVE_MS) None false false 0 false).
  set (st1 := set_db (setDonationStatus nid Active (db (set_active (Some s0) st)))
                (set_active (Some s0) st)).
  assert (Hh1 : handles_ok st1) by exact Hh.
  assert (Hp1 : pulses_only st1) by exact Hp.
  set (st2 := if negb (credits_pulsed next) && (0 <? remaining next)
              then set_db (markCreditsPulsed nid
                             (db (schedule_pulses (remaining next) st1)))
                          (schedule_pulses (remaining next) st1)
              else st1).
  assert (H2 : active st2 = Some s0 ∧ handles_ok st2 ∧ pulses_only st2).
  { subst st2. destruct (negb (credits_pulsed next) && (0 <? remaining next)).
    - destruct (schedule_pulses_ok (remaining next) st1 Hh1 Hp1) as [Hh2 Hp2].
      destruct (schedule_pulses_frame (remaining next) st1)
        as (new & h & Heq & _).
      split; [by rewrite Heq|]. split; [exact Hh2|exact Hp2].
    - done. }
  destruct H2 as (Ha2 & Hh2 & Hp2).
  apply (well_timed_ext (scheduleFirstMoveTimeout st2)); [reflexivity..|].
  apply (well_timed_scheduleFirstMove st2 s0 Ha2);
    [|reflexivity|exact Hh2|exact Hp2].
  unfold session_ok. simpl. repeat split; try done; lia.
Qed.

Lemma well_timed_maybeStartNext st : well_timed st → well_timed (maybeStartNext st).
Proof.
  intros Hw. rewrite maybeStartNext_unfold.
  destruct (active st) as [s|] eqn:Ha; [done|].
  pose proof (well_timed_pulses_only st Hw Ha) as Hp.
  destruct Hw as (_ & Hh & _).
  destruct (pick_next st) as [[nid next]|] eqn:Hpick.
  - apply pick_next_spec in Hpick as (_ & _ & Hr).
    by apply well_timed_activate.
  - by apply well_timed_idle.
Qed.

Lemma well_timed_endActivePlayer st :
  handles_ok st → pulses_only st → well_timed (endActivePlayer st).
Proof.
  intros Hh Hp. destruct (active st) as [s|] eqn:Ha.
  - rewrite (endActivePlayer_eq st s Ha). apply well_timed_maybeStartNext.
    apply well_timed_idle; [done| |].
    + eapply handles_ok_ext;
        [| |apply (handles_ok_clear_if_set (firstMoveTimer s)),
              (handles_ok_clear_if_set (timer s)), Hh]; [done|].
      by destruct (timer s), (firstMoveTimer s).
    + intros t Ht. simpl in Ht.
      apply elem_of_clear_if_set in Ht as [Ht _].
      apply elem_of_clear_if_set in Ht as [Ht _]. by apply Hp.
  - unfold endActivePlayer. rewrite Ha. by apply well_timed_idle.
Qed.

(** The charge at the end of a credit: [consumeOneCreditSafely] and the
    branch that follows it. *)
Lemma well_timed_charge st s :
  active st = Some s → session_ok s → timerStarted s = true →
  handles_ok st → pulses_only st →
  (consumeOneCreditSafely st).1 = true
  ∧ well_timed (next_credit_or_end (consumeOneCreditSafely st).2).
Proof.
  intros Ha (Hrem & Hseq & Hmv & Hgr & Hcc & Hce) Hts Hh Hp.
  unfold consumeOneCreditSafely. rewrite Ha, (Hcc Hts). split; [done|].
  cbn [snd].
  set (s1 := mkSession (donationId s) (creditsRemaining s - 1) (timer s)
               (timerStarted s) (creditEndsAt s) (firstMoveDeadline s)
               (firstMoveTimer s) (hasMoved s) (grabUsed s) (creditSeq s) true).
  set (st1 := set_active (Some s1) (set_db (useOneCredit (donationId s) (db st)) st)).
  assert (Hh1 : handles_ok st1) by exact Hh.
  assert (Hp1 : pulses_only st1) by exact Hp.
  assert (Ha1 : active st1 = Some s1) by reflexivity.
  clearbody st1. unfold next_credit_or_end. rewrite Ha1.
  destruct (Z.ltb_spec 0 (creditsRemaining s1)) as [Hpos|Hneg].
  - set (s2 := mkSession (donationId s1) (creditsRemaining s1) (timer s1) false None
                 (firstMoveDeadline s1) (firstMoveTimer s1) false false
                 (creditSeq s1) (creditConsumed s1)).
    apply (well_timed_ext (scheduleFirstMoveTimeout (set_active (Some s2) st1)));
      [reflexivity..|].
    apply (well_timed_scheduleFirstMove _ s2); [reflexivity| |reflexivity| |].
    + unfold session_ok. simpl in *. repeat split; try done.
    + exact Hh1.
    + apply pulses_only_clear_if_set. exact Hp1.
  - apply (well_timed_ext (endActivePlayer st1)); [reflexivity..|].
    apply well_timed_endActivePlayer; [exact Hh1|exact Hp1].
Qed.

Lemma startCredit_eq st s :
  active st = Some s → timerStarted s = false →
  startCreditTimerIfNeeded st
  = mkState (db st) (db_seq st)
      (Some (mkSession (donationId s) (creditsRemaining s) (Some (next_handle st))
               true (Some (clock st + CREDIT_MS)) (firstMoveDeadline s) None
               true (grabUsed s) (creditSeq s + 1) false))
      (mkTimer (next_handle st) (clock st + CREDIT_MS)
               (credit_expiry (creditSeq s + 1))
         :: timers (clear_if_set (firstMoveTimer s) st))
      (S (next_handle st)) (clock st)
      (trigger (credit_start (donationId s) (Some (clock st + CREDIT_MS))
                  (creditsRemaining s)) :: log st).
Proof.
  intros Ha Ht. unfold startCreditTimerIfNeeded. rewrite Ha, Ht.
  by destruct (firstMoveTimer s).
Qed.

Lemma well_timed_startCredit st :
  well_timed st → well_timed (startCreditTimerIfNeeded st).
Proof.
  intros Hw. destruct (active st) as [s|] eqn:Ha.
  2:{ unfold startCreditTimerIfNeeded. by rewrite Ha. }
  destruct (timerStarted s) eqn:Hts.
  { unfold startCreditTimerIfNeeded. by rewrite Ha, Hts. }
  rewrite (startCredit_eq st s Ha Hts).
  destruct Hw as (Hs & Hh & H3 & H4).
  destruct (Hs s Ha) as (Hrem & Hseq & Hmv & Hgr & Hcc & Hce).
  assert (Hg : grabUsed s = false).
  { destruct (grabUsed s); [|done]. specialize (Hgr eq_refl). congruence. }
  set (newT := mkTimer (next_handle st) (clock st + CREDIT_MS)
                 (credit_expiry (creditSeq s + 1))).
  assert (Hown : owned (mkSession (donationId s) (creditsRemaining s)
                          (Some (next_handle st)) true
                          (Some (clock st + CREDIT_MS)) (firstMoveDeadline s) None
                          true (grabUsed s) (creditSeq s + 1) false) newT).
  { left. simpl. rewrite Hg. done. }
  split; [|split; [|split]]; simpl.
  - intros s' [= <-]. unfold session_ok. simpl. repeat split; try done. lia.
  - pose proof (handles_ok_setTimeout (credit_expiry (creditSeq s + 1)) CREDIT_MS _
                  (handles_ok_clear_if_set (firstMoveTimer s) st Hh)) as Hh'.
    destruct (firstMoveTimer s); exact Hh'.
  - intros t Ht Hn. apply elem_of_cons in Ht as [->|Ht].
    + eexists. split; [done|exact Hown].
    + exfalso. apply elem_of_clear_if_set in Ht as [Ht Hne].
      destruct (H3 t Ht Hn) as (s' & Hs' & [(Ht' & _)|(_ & Hf & _)]);
        rewrite Ha in Hs'; injection Hs' as <-; congruence.
  - intros s' [= <-]. exists newT. split; [left|exact Hown].
Qed.

(** A grab as first action is a move followed by a grab. *)
Lemma grab_first_action st s :
  active st = Some s → timerStarted s = false → grabUsed s = false →
  handleGrabIfAllowed st = handleGrabIfAllowed (startCreditTimerIfNeeded st).
Proof.
  intros Ha Hts Hg. rewrite (startCredit_eq st s Ha Hts).
  unfold handleGrabIfAllowed at 1. rewrite Ha, Hg, Hts.
  rewrite (startCredit_eq st s Ha Hts).
  unfold handleGrabIfAllowed. cbn [active grabUsed timerStarted]. by rewrite Hg.
Qed.

Lemma grab_running_eq st s :
  active st = Some s → timerStarted s = true → grabUsed s = false →
  handleGrabIfAllowed st
  = (grab_ok,
     mkState (db st) (db_seq st)
       (Some (mkSession (donationId s) (creditsRemaining s) (Some (next_handle st))
                true (Some (clock st + GRAB_FINISH_MS)) (firstMoveDeadline s)
                (firstMoveTimer s) (hasMoved s) true (creditSeq s + 1) false))
       (mkTimer (next_handle st) (clock st + GRAB_FINISH_MS)
                (grab_finish (creditSeq s + 1))
          :: timers (clear_if_set (timer s) st))
       (S (next_handle st)) (clock st)
       (gpio_pulse "grab" 300
          :: trigger (credit_start (donationId s) (Some (clock st + GRAB_FINISH_MS))
                        (creditsRemaining s))
          :: log st)).
Proof.
  intros Ha Hts Hg. unfold handleGrabIfAllowed. rewrite Ha, Hg, Hts, Ha.
  rewrite Hts. by destruct (timer s).
Qed.

Lemma well_timed_grab_running st s :
  active st = Some s → timerStarted s = true → grabUsed s = false →
  well_timed st → well_timed (handleGrabIfAllowed st).2.
Proof.
  intros Ha Hts Hg (Hs & Hh & H3 & H4). rewrite (grab_running_eq st s Ha Hts Hg).
  cbn [snd].
  destruct (Hs s Ha) as (Hrem & Hseq & Hmv & Hgr & Hcc & Hce).
  set (newT := mkTimer (next_handle st) (clock st + GRAB_FINISH_MS)
                 (grab_finish (creditSeq s + 1))).
  assert (Hown : owned (mkSession (donationId s) (creditsRemaining s)
                          (Some (next_handle st)) true
                          (Some (clock st + GRAB_FINISH_MS)) (firstMoveDeadline s)
                          (firstMoveTimer s) (hasMoved s) true (creditSeq s + 1)
                          false) newT).
  { left. simpl. done. }
  split; [|split; [|split]]; simpl.
  - intros s' [= <-]. unfold session_ok. simpl.
    repeat split; try done; try lia; congruence.
  - pose proof (handles_ok_setTimeout (grab_finish (creditSeq s + 1)) GRAB_FINISH_MS _
                  (handles_ok_clear_if_set (timer s) st Hh)) as Hh'.
    destruct (timer s); exact Hh'.
  - intros t Ht Hn. apply elem_of_cons in Ht as [->|Ht].
    + eexists. split; [done|exact Hown].
    + exfalso. apply elem_of_clear_if_set in Ht as [Ht Hne].
      destruct (H3 t Ht Hn) as (s' & Hs' & [(_ & Hf & _)|(Ht' & _)]);
        rewrite Ha in Hs'; injection Hs' as <-; congruence.
  - intros s' [= <-]. exists newT. split; [left|exact Hown].
Qed.

Lemma well_timed_grab st : well_timed st → well_timed (handleGrabIfAllowed st).2.
Proof.
  intros Hw. destruct (active st) as [s|] eqn:Ha.
  2:{ unfold handleGrabIfAllowed. by rewrite Ha. }
  destruct (grabUsed s) eqn:Hg.
  { unfold handleGrabIfAllowed. by rewrite Ha, Hg. }
  destruct (timerStarted s) eqn:Hts.
  - by apply (well_timed_grab_running st s).
  - rewrite (grab_first_action st s Ha Hts Hg).
    pose proof (well_timed_startCredit st Hw) as Hw1.
    rewrite (startCredit_eq st s Ha Hts) in Hw1 |- *.
    eapply well_timed_grab_running; [reflexivity|reflexivity|exact Hg|exact Hw1].
Qed.

Lemma NoDup_fmap_eq {A B} (f : A → B) (l : list A) x y :
  NoDup (f <$> l) → x ∈ l → y ∈ l → f x = f y → x = y.
Proof.
  induction l as [|z l IH]; simpl; intros Hnd Hx Hy Heq.
  - by apply not_elem_of_nil in Hx.
  - apply NoDup_cons in Hnd as [Hz Hnd].
    apply elem_of_cons in Hx as [->|Hx]; apply elem_of_cons in Hy as [->|Hy].
    + done.
    + exfalso. apply Hz. rewrite Heq. apply list_elem_of_fmap. eauto.
    + exfalso. apply Hz. rewrite <- Heq. apply list_elem_of_fmap. eauto.
    + by apply IH.
Qed.

Lemma is_credit_pulse_callback t :
  is_credit_pulse t = true → t_callback t = pulse_credit.
Proof. unfold is_credit_pulse. by destruct (t_callback t). Qed.

Lemma owned_not_pulse s t : owned s t → is_credit_pulse t = false.
Proof.
  unfold is_credit_pulse.
  intros [(_ & _ & -> & _)|(_ & _ & -> & _)]; [by destruct (grabUsed s)|done].
Qed.

Lemma owned_same_handle s t t' : owned s t → owned s t' → t_handle t = t_handle t'.
Proof.
  intros [(H1 & H2 & _)|(H1 & H2 & _)] [(H1' & H2' & _)|(H1' & H2' & _)];
    congruence.
Qed.

(** The state in which the closure of a pending timer runs. *)
Lemma well_timed_fired st t :
  well_timed st → t ∈ timers st →
  let st0 := set_clock (Z.max (clock st) (t_due t)) (clearTimeout (t_handle t) st) in
  handles_ok st0
  ∧ (is_credit_pulse t = true → well_timed st0)
  ∧ (is_credit_pulse t = false →
       pulses_only st0 ∧ ∃ s, active st0 = Some s ∧ session_ok s ∧ owned s t).
Proof.
  intros (Hs & Hh & H3 & H4) Ht st0.
  assert (Hh0 : handles_ok st0) by (by apply handles_ok_clearTimeout).
  split; [exact Hh0|]. split.
  - intros Hp. split; [exact Hs|]. split; [exact Hh0|]. split.
    + intros t' Ht' Hn. apply elem_of_clearTimeout in Ht' as [Ht' _]. by apply H3.
    + intros s Ha. destruct (H4 s Ha) as (t' & Ht' & Hown). exists t'.
      split; [|done]. apply elem_of_clearTimeout. split; [done|].
      intros Heq. pose proof (owned_not_pulse s t' Hown) as Hn.
      assert (t' = t) as ->
        by (apply (NoDup_fmap_eq t_handle (timers st)); [apply Hh|done..]).
      congruence.
  - intros Hn. destruct (H3 t Ht Hn) as (s & Ha & Hown). split.
    + intros t' Ht'. apply elem_of_clearTimeout in Ht' as [Ht' Hne].
      destruct (is_credit_pulse t') eqn:Hp'; [done|]. exfalso.
      destruct (H3 t' Ht' Hp') as (s' & Ha' & Hown').
      rewrite Ha in Ha'. injection Ha' as <-.
      by apply Hne, (owned_same_handle s).
    + exists s. split; [exact Ha|]. split; [by apply Hs|exact Hown].
Qed.

Lemma well_timed_fire st t : well_timed st → t ∈ timers st → well_timed (fire t st).
Proof.
  intros Hw Ht. destruct (well_timed_fired st t Hw Ht) as (Hh0 & Hpulse & Hsess).
  unfold fire.
  set (st0 := set_clock (Z.max (clock st) (t_due t)) (clearTimeout (t_handle t) st)) in *.
  clearbody st0.
  destruct (is_credit_pulse t) eqn:Hp.
  - rewrite (is_credit_pulse_callback t Hp). simpl.
    eapply well_timed_ext; [..|exact (Hpulse eq_refl)]; reflexivity.
  - destruct (Hsess eq_refl) as (Hp0 & s & Ha & Hs & Hown).
    pose proof Hs as (Hrem & Hseq & Hmv & Hgr & Hcc & Hce).
    destruct Hown as [(Hts & _ & Hcb & _)|(Hts & _ & Hcb & _)]; rewrite Hcb.
    + destruct (well_timed_charge st0 s Ha Hs Hts Hh0 Hp0) as [Hc Hwt].
      destruct (grabUsed s); simpl.
      * unfold onGrabTimer. rewrite Ha, Z.eqb_refl.
        destruct (consumeOneCreditSafely st0) as [c st1]. simpl in Hc, Hwt.
        by rewrite Hc.
      * unfold onCreditTimer. rewrite Ha, Z.eqb_refl.
        unfold finishCreditNormally. rewrite Ha.
        destruct (consumeOneCreditSafely st0) as [c st1]. simpl in Hc, Hwt.
        by rewrite Hc.
    + simpl. unfold onFirstMoveTimeout. rewrite Ha.
      assert (Hm : hasMoved s = false) by congruence. rewrite Hm.
      destruct (existsb _ _).
      * apply (well_timed_ext (endActivePlayer st0)); [reflexivity..|].
        by apply well_timed_endActivePlayer.
      * apply (well_timed_ext (scheduleFirstMoveTimeout st0)); [reflexivity..|].
        apply (well_timed_scheduleFirstMove st0 s); try done.
        by apply pulses_only_clear_if_set.
Qed.

Lemma well_timed_after_table t st :
  well_timed st → well_timed (broadcastQueue (maybeStartNext (set_db t st))).
Proof.
  intros Hw. apply (well_timed_ext (maybeStartNext (set_db t st))); [reflexivity..|].
  apply well_timed_maybeStartNext.
  by apply (well_timed_ext st).
Qed.

Lemma well_timed_safeForceEndActive reason st :
  well_timed st →
  well_timed (Admin.safeForceEndActive Admin.game_exports reason st).
Proof.
  intros Hw. unfold Admin.safeForceEndActive. simpl.
  destruct (Admin.truthy_id _).
  - by apply well_timed_after_table.
  - apply (well_timed_ext (maybeStartNext st)); [reflexivity..|].
    by apply well_timed_maybeStartNext.
Qed.

Lemma well_timed_admin rq st :
  well_timed st → well_timed (Admin.handle Admin.game_exports rq st).
Proof.
  intros Hw.
  destruct rq as [i d|i n|i n|i|i s| | |i|]; simpl;
    try (destruct (i =? 0); [exact Hw|]);
    try (by apply well_timed_after_table).
  - destruct s; try (by apply well_timed_after_table);
      destruct (bool_decide _);
      try (by apply well_timed_after_table);
      by apply well_timed_after_table, well_timed_safeForceEndActive.
  - by apply well_timed_safeForceEndActive.
  - apply (well_timed_ext (maybeStartNext st)); [reflexivity..|].
    by apply well_timed_maybeStartNext.
  - destruct (bool_decide _); [|by apply well_timed_after_table].
    by apply well_timed_after_table, well_timed_safeForceEndActive.
  - eapply well_timed_ext; [..|apply (well_timed_safeForceEndActive
                                        "admin_delete_all" st Hw)]; reflexivity.
Qed.

Lemma well_timed_perform a st :
  well_timed st → enabled a st → well_timed (perform a st).
Proof.
  intros Hw Hen. destruct a as [iid nm|iid q| | |t|dt| |rq].
  - rewrite perform_intent_created. by apply (well_timed_ext st).
  - simpl. by apply well_timed_after_table.
  - by apply well_timed_startCredit.
  - by apply well_timed_grab.
  - by apply well_timed_fire.
  - by apply (well_timed_ext st).
  - simpl. unfold heartbeat. destruct (_ || _); [|done].
    by apply (well_timed_ext st).
  - by apply well_timed_admin.
Qed.

Lemma well_timed_reachable (t : table) sq now st :
  reachable t sq now st → well_timed st.
Proof.
  induction 1 as [|st a _ IH Hen]; [|by apply well_timed_perform].
  apply well_timed_idle; [done| |].
  - split; [constructor|]. intros x Hx. by apply not_elem_of_nil in Hx.
  - intros x Hx. by apply not_elem_of_nil in Hx.
Qed.

(** ** What holds between two turns *)

(** X8. In every state that a process reaches, a session has at least
    one credit left and an epoch that is not negative; [hasMoved] and
    [timerStarted] are equal; [grabUsed] is set only while the credit timer
    runs; while it runs the credit of the epoch has not been charged; and
    [creditEndsAt] is null before the first action of a credit. *)
Theorem session_fields_fit (t : table) (sq now : Z) (st : state) (s : session) :
  reachable t sq now st → active st = Some s →
  0 < creditsRemaining s
  ∧ 0 <= creditSeq s
  ∧ hasMoved s = timerStarted s
  ∧ (grabUsed s = true → timerStarted s = true)
  ∧ (timerStarted s = true → creditConsumed s = false)
  ∧ (timerStarted s = false → creditEndsAt s = None).
Proof.
  intros Hr Ha. apply well_timed_reachable in Hr as (Hs & _). by apply Hs.
Qed.

Lemma session_fields_fit_witness :
  0 < 2 ∧ 0 <= 0 ∧ false = false ∧ (false = true → false = true)
  ∧ (false = true → false = false) ∧ (false = false → @None Z = None).
Proof.
  apply (session_fields_fit ∅ 0 1000 ann_active_bob_waiting
           (mkSession 1 2 None false None 16000 (Some 2%nat) false false 0 false)
           ann_active_bob_waiting_reachable).
  vm_compute. reflexivity.
Defined.

(** X9. In every state that a process reaches the handles of the pending
    timers are pairwise different. Without a session only credit pulses
    are pending. With a session exactly one other timer is pending, its
    deadline: before the first action the first-move timer, due at
    [firstMoveDeadline]; afterwards the credit timer (or, after a grab, the
    grab timer) of the live epoch, due at [creditEndsAt]. So no pending
    credit timer is stale. *)
Theorem one_deadline_pending (t : table) (sq now : Z) (st : state) :
  reachable t sq now st →
  NoDup (t_handle <$> timers st)
  ∧ (active st = None → ∀ x, x ∈ timers st → t_callback x = pulse_credit)
  ∧ (∀ s, active st = Some s →
       ∃ d, d ∈ timers st ∧ owned s d
            ∧ ∀ x, x ∈ timers st → t_callback x ≠ pulse_credit → x = d)
  ∧ (∀ x m, x ∈ timers st →
       t_callback x = credit_expiry m ∨ t_callback x = grab_finish m →
       ¬ stale m st).
Proof.
  intros Hr. pose proof (well_timed_reachable _ _ _ _ Hr) as Hw.
  pose proof Hw as (Hs & [Hnd Hlt] & H3 & H4).
  split; [exact Hnd|]. split; [|split].
  - intros Ha x Hx. apply is_credit_pulse_callback.
    by apply (well_timed_pulses_only st Hw Ha).
  - intros s Ha. destruct (H4 s Ha) as (d & Hd & Hown). exists d.
    split; [done|]. split; [done|]. intros x Hx Hn.
    assert (Hnp : is_credit_pulse x = false).
    { unfold is_credit_pulse. by destruct (t_callback x). }
    destruct (H3 x Hx Hnp) as (s' & Ha' & Hown').
    rewrite Ha in Ha'. injection Ha' as <-.
    apply (NoDup_fmap_eq t_handle (timers st)); [done..|].
    by apply (owned_same_handle s).
  - intros x m Hx Hcb Hstale.
    assert (Hnp : is_credit_pulse x = false).
    { unfold is_credit_pulse. by destruct Hcb as [-> | ->]. }
    destruct (H3 x Hx Hnp) as (s & Ha & Hown).
    unfold stale in Hstale. rewrite Ha in Hstale. apply Hstale.
    destruct Hown as [(_ & _ & Hc & _)|(_ & _ & Hc & _)].
    + destruct (grabUsed s), Hcb as [Hcb|Hcb]; congruence.
    + destruct Hcb; congruence.
Qed.

Lemma one_deadline_pending_witness :
  NoDup (t_handle <$> timers ann_second_credit).
Proof.
  apply (one_deadline_pending ∅ 0 1000 ann_second_credit ann_second_credit_reachable).
Defined.

(** ** The end of a credit *)




End TimerProps.

(* ===================================================================== *)
(** * The entry points of the scheduler, one by one                       *)
(* ===================================================================== *)

Module TurnProps.
Import Db Game System Props Queries Shape Rows DbFacts GameFacts StepFacts EndFacts MoreFacts.
Import TimerProps.

(** ** [maybeStartNext] *)



(** ** The actions of the player *)

(** Once the deadline of the session is cleared, only credit pulses are
    pending. *)
Lemma pending_without_deadline st s h :
  well_timed st → active st = Some s →
  (∀ d, owned s d → h = Some (t_handle d)) →
  ∀ x, x ∈ timers (clear_if_set h st)
       ↔ x ∈ timers st ∧ t_callback x = pulse_credit.
Proof.
  intros (Hs & [Hnd _] & H3 & H4) Ha Hh x. rewrite elem_of_clear_if_set.
  split; intros [Hx Hc]; (split; [done|]).
  - destruct (is_credit_pulse x) eqn:Hp; [by apply is_credit_pulse_callback|].
    destruct (H3 x Hx Hp) as (s' & Ha' & Hown).
    rewrite Ha in Ha'. injection Ha' as <-.
    destruct Hc. by apply Hh.
  - intros Heq. destruct (H4 s Ha) as (d & Hd & Hown).
    rewrite (Hh d Hown) in Heq. injection Heq as Heq.
    assert (d = x) by (by apply (NoDup_fmap_eq t_handle (timers st))).
    subst d. apply owned_not_pulse in Hown.
    unfold is_credit_pulse in Hown. by rewrite Hc in Hown.
Qed.

(** X12. The first action of a credit, in a state that a process reaches:
    the first-move timer is cancelled and the credit timer is armed in its
    place, 35 s ahead, under the next epoch; beside it only credit pulses
    stay pending. The session keeps its holder and its credits, the table
    is not written, one 'credit-start' is published, and a further action
    starts nothing more. *)
Theorem first_action_arms_credit_timer (t : table) (sq now : Z) (st : state)
    (s : session) :
  reachable t sq now st → active st = Some s → timerStarted s = false →
  active (startCreditTimerIfNeeded st)
  = Some (mkSession (donationId s) (creditsRemaining s) (Some (next_handle st))
            true (Some (clock st + CREDIT_MS)) (firstMoveDeadline s) None
            true false (creditSeq s + 1) false)
  ∧ (∀ x, x ∈ timers (startCreditTimerIfNeeded st)
          ↔ x = mkTimer (next_handle st) (clock st + CREDIT_MS)
                        (credit_expiry (creditSeq s + 1))
            ∨ (x ∈ timers st ∧ t_callback x = pulse_credit))
  ∧ db (startCreditTimerIfNeeded st) = db st
  ∧ log (startCreditTimerIfNeeded st)
    = trigger (credit_start (donationId s) (Some (clock st + CREDIT_MS))
                 (creditsRemaining s)) :: log st
  ∧ startCreditTimerIfNeeded (startCreditTimerIfNeeded st)
    = startCreditTimerIfNeeded st.
Proof.
  intros Hr Ha Hts. pose proof (well_timed_reachable _ _ _ _ Hr) as Hw.
  pose proof Hw as (Hs & _).
  destruct (Hs s Ha) as (_ & _ & _ & Hg & _).
  assert (Hgf : grabUsed s = false).
  { destruct (grabUsed s); [|done]. specialize (Hg eq_refl). congruence. }
  rewrite (startCredit_eq st s Ha Hts), Hgf. cbn [active timers db log].
  split; [done|]. split; [|done].
  intros x. rewrite elem_of_cons.
  rewrite (pending_without_deadline st s (firstMoveTimer s) Hw Ha); [done|].
  intros d [(Hd & _)|(_ & Hd & _)]; congruence.
Qed.

Lemma first_action_arms_credit_timer_witness :
  db (startCreditTimerIfNeeded ann_active_bob_waiting) = db ann_active_bob_waiting.
Proof.
  apply (first_action_arms_credit_timer ∅ 0 1000 ann_active_bob_waiting
           (mkSession 1 2 None false None 16000 (Some 2%nat) false false 0 false)
           ann_active_bob_waiting_reachable);
    vm_compute; reflexivity.
Defined.

(** X13. A grab that is accepted, in a state that a process reaches: the
    pending deadline of the session is replaced by the grab timer, 7 s
    ahead; beside it only credit pulses stay pending. The epoch advances
    by one when the credit timer was running and by two when the grab is
    the first action of the credit. The grab button is pulsed once for
    300 ms and no other GPIO call is made; the table is not written; the
    holder and the credits of the session stay; a second grab is rejected
    and changes nothing. *)
Theorem grab_accepted (t : table) (sq now : Z) (st : state) (s : session) :
  reachable t sq now st → active st = Some s → grabUsed s = false →
  (handleGrabIfAllowed st).1 = grab_ok
  ∧ (∃ h,
       active (handleGrabIfAllowed st).2
       = Some (mkSession (donationId s) (creditsRemaining s) (Some h) true
                 (Some (clock st + GRAB_FINISH_MS)) (firstMoveDeadline s)
                 (if timerStarted s then firstMoveTimer s else None)
                 true true
                 (creditSeq s + (if timerStarted s then 1 else 2)) false)
       ∧ ∀ x, x ∈ timers (handleGrabIfAllowed st).2
              ↔ x = mkTimer h (clock st + GRAB_FINISH_MS)
                      (grab_finish (creditSeq s + (if timerStarted s then 1 else 2)))
                ∨ (x ∈ timers st ∧ t_callback x = pulse_credit))
  ∧ db (handleGrabIfAllowed st).2 = db st
  ∧ List.filter is_gpio (log (handleGrabIfAllowed st).2)
    = gpio_pulse "grab" 300 :: List.filter is_gpio (log st)
  ∧ handleGrabIfAllowed (handleGrabIfAllowed st).2
    = (grab_rejected "grab_already_used", (handleGrabIfAllowed st).2).
Proof.
  intros Hr Ha Hg. pose proof (well_timed_reachable _ _ _ _ Hr) as Hw.
  pose proof Hw as (Hs & [_ Hlt] & _).
  destruct (Hs s Ha) as (_ & _ & Hm & _).
  destruct (timerStarted s) eqn:Hts.
  - rewrite (grab_running_eq st s Ha Hts Hg). cbn [fst snd active timers db log].
    split; [done|]. split; [|done].
    exists (next_handle st). rewrite Hm. split; [done|].
    intros x. rewrite elem_of_cons.
    rewrite (pending_without_deadline st s (timer s) Hw Ha); [done|].
    intros d [(_ & Hd & _)|(Hd & _)]; congruence.
  - rewrite (grab_first_action st s Ha Hts Hg), (move_then_grab st s Ha Hts Hg).
    cbn [fst snd active timers db log].
    split; [done|]. split; [|done].
    exists (S (next_handle st)).
    replace (creditSeq s + 1 + 1) with (creditSeq s + 2) by lia.
    split; [done|].
    intros x. rewrite elem_of_cons, elem_of_List_filter.
    rewrite (pending_without_deadline st s (firstMoveTimer s) Hw Ha).
    + split; (intros [?|H]; [by left|right]).
      * by destruct H.
      * split; [done|]. destruct H as [Hx _]. apply Hlt in Hx.
        apply negb_true_iff, Nat.eqb_neq. lia.
    + intros d [(Hd & _)|(_ & Hd & _)]; congruence.
Qed.

Lemma grab_accepted_witness :
  (handleGrabIfAllowed ann_active_bob_waiting).1 = grab_ok.
Proof.
  apply (grab_accepted ∅ 0 1000 ann_active_bob_waiting
           (mkSession 1 2 None false None 16000 (Some 2%nat) false false 0 false)
           ann_active_bob_waiting_reachable);
    vm_compute; reflexivity.
Defined.

(** ** Turns from outside *)

(** X14. While a session exists, no turn from outside touches it: a new
    intent, a confirmed payment, the passing of time, the heartbeat and
    every admin request (the two that are meant to end the session
    included) leave the session object and the pending timers as they are
    and make no GPIO call. Only an action of the player or a timer changes
    a session. *)
Theorem session_untouched_from_outside (a : turn) (st : state) (s : session) :
  active st = Some s → from_outside a = true →
  active (perform a st) = Some s
  ∧ timers (perform a st) = timers st
  ∧ next_handle (perform a st) = next_handle st
  ∧ List.filter is_gpio (log (perform a st)) = List.filter is_gpio (log st).
Proof.
  intros Ha Hout.
  assert (Hbc : ∀ t, active (broadcastQueue (set_db t st)) = Some s
                     ∧ timers (broadcastQueue (set_db t st)) = timers st
                     ∧ next_handle (broadcastQueue (set_db t st)) = next_handle st
                     ∧ List.filter is_gpio (log (broadcastQueue (set_db t st)))
                       = List.filter is_gpio (log st)) by done.
  assert (Hbc2 : ∀ t t', active (broadcastQueue (set_db t' (broadcastQueue (set_db t st))))
                         = Some s
                     ∧ timers (broadcastQueue (set_db t' (broadcastQueue (set_db t st))))
                       = timers st
                     ∧ next_handle (broadcastQueue (set_db t' (broadcastQueue (set_db t st))))
                       = next_handle st
                     ∧ List.filter is_gpio
                         (log (broadcastQueue (set_db t' (broadcastQueue (set_db t st)))))
                       = List.filter is_gpio (log st)) by done.
  destruct a as [iid nm|iid q| | |x|dt| |rq]; try discriminate; cbn [perform].
  - destruct (createIntent iid nm (clock st) (db_seq st) (db st)). done.
  - unfold handlePaidDonation. cbn [snd].
    rewrite (after_table_busy _ st s Ha). apply Hbc.
  - done.
  - unfold heartbeat. by destruct (_ || _).
  - destruct rq as [i d|i n|i n|i|i ds| | |i|]; cbn [Admin.handle];
      try (destruct (i =? 0); [done|]);
      try (rewrite (after_table_busy _ st s Ha); apply Hbc).
    + destruct ds; cbn [Admin.forceActivateDonation Admin.game_exports];
        try (rewrite (after_table_busy _ st s Ha); apply Hbc);
        (destruct (bool_decide _);
         [destruct (safeForceEndActive_busy "admin_status_change" st s Ha) as [t' ->];
          rewrite (after_table_busy _ (broadcastQueue (set_db t' st)) s Ha);
          apply Hbc2
         |rewrite (after_table_busy _ st s Ha); apply Hbc]).
    + destruct (safeForceEndActive_busy "admin_end" st s Ha) as [t' ->]. apply Hbc.
    + rewrite (maybeStartNext_busy st s Ha). done.
    + destruct (bool_decide _).
      * destruct (safeForceEndActive_busy "admin_delete_active" st s Ha) as [t' ->].
        rewrite (after_table_busy _ (broadcastQueue (set_db t' st)) s Ha).
        apply Hbc2.
      * rewrite (after_table_busy _ st s Ha). apply Hbc.
    + destruct (safeForceEndActive_busy "admin_delete_all" st s Ha) as [t' ->].
      apply Hbc2.
Qed.

Lemma session_untouched_from_outside_witness :
  timers (perform (admin_request Admin.delete_all) ann_active_bob_waiting)
  = timers ann_active_bob_waiting.
Proof.
  apply (session_untouched_from_outside (admin_request Admin.delete_all)
           ann_active_bob_waiting
           (mkSession 1 2 None false None 16000 (Some 2%nat) false false 0 false));
    vm_compute; reflexivity.
Defined.

(** X15. Without a session, in a state that a process reaches, only a
    confirmed payment or an admin request can start one: a new intent, an
    action of a player, a pending timer that fires (only credit pulses are
    pending), the heartbeat and the passing of time leave the process
    without session, whatever waits in the table. So the players found
    waiting when the process starts stay waiting until the next payment or
    admin request. *)
Theorem idle_until_payment_or_admin (t : table) (sq now : Z) (st : state) (a : turn) :
  reachable t sq now st → enabled a st → active st = None → may_start a = false →
  active (perform a st) = None.
Proof.
  intros Hr Hen Ha Hm. pose proof (well_timed_reachable _ _ _ _ Hr) as Hw.
  destruct a as [iid nm|iid q| | |x|dt| |rq]; try discriminate; cbn [perform].
  - by destruct (createIntent iid nm (clock st) (db_seq st) (db st)).
  - unfold startCreditTimerIfNeeded. by rewrite Ha.
  - unfold handleGrabIfAllowed. by rewrite Ha.
  - simpl in Hen. pose proof (well_timed_pulses_only st Hw Ha x Hen) as Hp.
    apply is_credit_pulse_callback in Hp. unfold fire. by rewrite Hp.
  - done.
  - unfold heartbeat. by destruct (_ || _).
Qed.

Lemma idle_until_payment_or_admin_witness :
  active (perform heartbeat_fires (boot crashed 2 1000)) = None.
Proof.
  apply (idle_until_payment_or_admin crashed 2 1000 (boot crashed 2 1000)
           heartbeat_fires (reach_boot crashed 2 1000) I);
    reflexivity.
Defined.

(** ** [handlePaidDonation] *)

Lemma Qfloor_lt_Z (q : Q) (n : Z) : (q < inject_Z n)%Q → Qfloor q < n.
Proof.
  intros Hq. rewrite Zlt_Qlt.
  eapply Qle_lt_trans; [apply Qfloor_le|exact Hq].
Qed.

Lemma Qfloor_ge_Z (q : Q) (n : Z) : (inject_Z n <= q)%Q → n <= Qfloor q.
Proof.
  intros Hq. rewrite <- (Qfloor_Z n). by apply Qfloor_resp_le.
Qed.

(** X16. The credits of a payment, [Math.min(5, Math.floor(amountEur))]:
    never more than 5 and never more than the euros paid; exactly 5 from
    5 euros on; below 5 euros the whole euros paid; none below 1 euro; a
    negative amount gives a negative number. The credits grow with the
    amount. *)
Theorem credits_for_bounds (q : Q) :
  credits_for q <= 5
  ∧ (inject_Z (credits_for q) <= q)%Q
  ∧ ((5 <= q)%Q → credits_for q = 5)
  ∧ ((q < 5)%Q → (q < inject_Z (credits_for q + 1))%Q)
  ∧ ((q < 1)%Q → credits_for q <= 0)
  ∧ ((q < 0)%Q → credits_for q < 0)
  ∧ (∀ q', (q <= q')%Q → credits_for q <= credits_for q').
Proof.
  unfold credits_for. split; [lia|]. split; [|split; [|split; [|split; [|split]]]].
  - eapply Qle_trans; [|apply Qfloor_le]. rewrite <- Zle_Qle. lia.
  - intros H. apply (Qfloor_ge_Z q 5) in H. lia.
  - intros H. apply (Qfloor_lt_Z q 5) in H.
    rewrite Z.min_r by lia. apply Qlt_floor.
  - intros H. apply (Qfloor_lt_Z q 1) in H. lia.
  - intros H. apply (Qfloor_lt_Z q 0) in H. lia.
  - intros q' H. apply Qfloor_resp_le in H. lia.
Qed.

(** X17. A payment that buys no credit never plays. When no session
    exists and the payment leaves the row with no credit (its amount is
    below 1 euro and no credit was used), [handlePaidDonation] leaves the
    row 'done' and the session, if one starts, goes to somebody else. *)
Theorem creditless_payment_never_plays (iid : string) (q : Q) (st : state)
    (i : Z) (r : donation) :
  db st !! i = Some r → intent_id r = iid → 0 <= credits_used r →
  active st = None → (q < 1)%Q →
  (handlePaidDonation iid q st).1 <= 0
  ∧ status <$> db (handlePaidDonation iid q st).2 !! i = Some Done
  ∧ holder (handlePaidDonation iid q st).2 ≠ Some i.
Proof.
  intros Hi Hr Hu Ha Hq.
  assert (Hc : credits_for q <= 0).
  { apply (Qfloor_lt_Z q 1) in Hq. unfold credits_for. lia. }
  unfold handlePaidDonation. cbn [fst snd]. split; [exact Hc|].
  set (st1 := set_db (markIntentPaid iid (credits_for q) (clock st) (db st)) st).
  assert (Ha1 : active st1 = None) by done.
  assert (Hi1 : db st1 !! i
                = Some (mkDonation (intent_id r) (name r) (credits_for q)
                          (credits_used r) (credits_pulsed r) Waiting (clock st))).
  { unfold st1. cbn [db set_db].
    rewrite lookup_markIntentPaid, Hi. simpl.
    by rewrite (proj2 (has_intent_true iid r) Hr). }
  assert (Hh : holder (maybeStartNext st1) ≠ Some i).
  { rewrite (maybeStartNext_idle_holder st1 Ha1).
    destruct (List.find eligible (listQueue (db st1))) as [[j rj]|] eqn:Hf; [|done].
    simpl. intros [= ->].
    apply find_listQueue in Hf as (Hl & _ & He).
    rewrite Hi1 in Hl. injection Hl as <-.
    unfold eligible, remaining in He. simpl in He.
    apply Z.ltb_lt in He. lia. }
  split; [|exact Hh].
  change (db (broadcastQueue (maybeStartNext st1))) with (db (maybeStartNext st1)).
  rewrite (maybeStartNext_idle_lookup st1 i Ha1), Hi1. simpl.
  rewrite bool_decide_false by exact Hh. unfold swept, is_waiting, remaining. simpl.
  destruct (Z.leb_spec (credits_for q - credits_used r) 0); [done|lia].
Qed.

Lemma creditless_payment_never_plays_witness :
  (handlePaidDonation "a" (1 # 2) ann_paid).1 <= 0
  ∧ status <$> db (handlePaidDonation "a" (1 # 2) ann_paid).2 !! 1 = Some Done
  ∧ holder (handlePaidDonation "a" (1 # 2) ann_paid).2 ≠ Some 1.
Proof.
  apply (creditless_payment_never_plays "a" (1 # 2) ann_paid 1
           (mkDonation "a" "Ann" 2 0 false Waiting 10));
    vm_compute; congruence.
Defined.

End TurnProps.

(* ===================================================================== *)
(** * What the clients are told                                           *)
(* ===================================================================== *)

Module ViewProps.
Import Db Game System Props Shape Client DbFacts GameFacts.

(** ** The queue payload *)

Lemma queue_items_lookup (l : list (Z * donation)) (pos : Z) (k : nat) :
  queue_items pos l !! k = item_of (pos + Z.of_nat k + 1) <$> l !! k.
Proof.
  revert pos k. induction l as [|[i r] l IH]; intros pos k; [done|].
  destruct k as [|k]; simpl.
  - unfold item_of. simpl. do 2 f_equal. lia.
  - rewrite IH. destruct (l !! k); [|done]. simpl. do 2 f_equal. lia.
Qed.

Lemma queue_items_length (l : list (Z * donation)) (pos : Z) :
  length (queue_items pos l) = length l.
Proof.
  revert pos. induction l as [|[i r] l IH]; intros pos; simpl; [done|].
  by rewrite IH.
Qed.

Lemma queue_items_ids (l : list (Z * donation)) (pos : Z) :
  q_id <$> queue_items pos l = l.*1.
Proof.
  revert pos. induction l as [|[i r] l IH]; intros pos; simpl; [done|].
  by rewrite IH.
Qed.

(** X18. The queue of a 'queue-update' message, made from the table [t]:
    it has one line for every row that is 'waiting' or 'active' and no
    other line, no id twice; the line at index [k] carries the id, the
    name, the credits left and the status of the row at index [k] of the
    listing, and the position [k + 1]. *)
Theorem queue_payload_lists_queue (t : table) :
  length (queue_items 0 (listQueue t)) = length (listQueue t)
  ∧ (∀ k : nat, queue_items 0 (listQueue t) !! k
                = item_of (Z.of_nat k + 1) <$> listQueue t !! k)
  ∧ NoDup (q_id <$> queue_items 0 (listQueue t))
  ∧ (∀ i, i ∈ (q_id <$> queue_items 0 (listQueue t))
          ↔ ∃ r, t !! i = Some r ∧ in_queue r = true)
  ∧ (∀ it, it ∈ queue_items 0 (listQueue t) →
       ∃ r, t !! q_id it = Some r
            ∧ q_name it = name r
            ∧ q_creditsRemaining it = remaining r
            ∧ q_status it = status r
            ∧ 1 <= q_position it <= Z.of_nat (length (listQueue t))).
Proof.
  split; [apply queue_items_length|]. split; [|split; [|split]].
  - intros k. by rewrite queue_items_lookup.
  - rewrite queue_items_ids. unfold listQueue.
    rewrite order_by_created_at_perm.
    apply NoDup_fst_List_filter, NoDup_fst_map_to_list.
  - intros i. rewrite queue_items_ids, list_elem_of_fmap. split.
    + intros ([j r] & -> & Hin). exists r. by apply elem_of_listQueue.
    + intros (r & Hr). exists (i, r). split; [done|]. by apply elem_of_listQueue.
  - intros it Hin. apply list_elem_of_lookup in Hin as [k Hk].
    rewrite queue_items_lookup in Hk.
    destruct (listQueue t !! k) as [[i r]|] eqn:Hl; [|done].
    injection Hk as <-. pose proof (lookup_lt_Some _ _ _ Hl) as Hlt.
    apply list_elem_of_lookup_2, elem_of_listQueue in Hl as [Hi _].
    exists r. simpl. repeat split; try done; lia.
Qed.

(** ** The heartbeat *)

Lemma broadcastQueue_ne st : broadcastQueue st ≠ st.
Proof.
  intros H. apply (f_equal (λ s, length (log s))) in H. simpl in H. lia.
Qed.

(** X19. The heartbeat writes nothing and calls no GPIO: it republishes
    the snapshot when there is a session or a row that is 'waiting' or
    'active', and does nothing at all exactly when there is neither. *)
Theorem heartbeat_only_republishes (st : state) :
  (heartbeat st = st
   ↔ active st = None ∧ ∀ i r, db st !! i = Some r → in_queue r = false)
  ∧ (heartbeat st ≠ st → heartbeat st = broadcastQueue st)
  ∧ db (heartbeat st) = db st
  ∧ active (heartbeat st) = active st
  ∧ timers (heartbeat st) = timers st
  ∧ List.filter is_gpio (log (heartbeat st)) = List.filter is_gpio (log st).
Proof.
  unfold heartbeat.
  destruct (bool_decide (active st ≠ None)) eqn:Hact; simpl.
  - apply bool_decide_eq_true in Hact. split; [|done]. split.
    + intros H. by apply broadcastQueue_ne in H.
    + by intros [? _].
  - apply bool_decide_eq_false in Hact.
    assert (Ha : active st = None) by (by destruct (active st); [destruct Hact|]).
    destruct (bool_decide (listQueue (db st) = [])) eqn:Hq; simpl.
    + apply bool_decide_eq_true in Hq. split; [|done]. split; [|done].
      intros _. split; [done|]. intros i r Hi.
      destruct (in_queue r) eqn:Hr; [|done].
      assert (Hin : (i, r) ∈ listQueue (db st)) by (by apply elem_of_listQueue).
      rewrite Hq in Hin. by apply not_elem_of_nil in Hin.
    + apply bool_decide_eq_false in Hq. split; [|done]. split.
      * intros H. by apply broadcastQueue_ne in H.
      * intros [_ Hno]. destruct Hq.
        destruct (listQueue (db st)) as [|[i r] l] eqn:Hl; [done|].
        assert (Hin : (i, r) ∈ listQueue (db st)) by (rewrite Hl; left).
        apply elem_of_listQueue in Hin as [Hi Hr].
        rewrite (Hno i r Hi) in Hr. discriminate.
Qed.

(** ** The arcade page *)

Lemma findIndex_ge {A} (f : A → bool) (l : list A) : -1 <= findIndex f l.
Proof.
  induction l as [|x l IH]; simpl; [lia|].
  destruct (f x); [lia|]. destruct (Z.ltb_spec (findIndex f l) 0); lia.
Qed.

Lemma findIndex_none {A} (f : A → bool) (l : list A) :
  (∀ x, x ∈ l → f x = false) → findIndex f l = -1.
Proof.
  induction l as [|x l IH]; intros H; simpl; [done|].
  rewrite (H x) by left. rewrite IH; [done|].
  intros y Hy. apply H. by right.
Qed.

Lemma findIndex_first {A} (f : A → bool) (l : list A) (k : nat) (x : A) :
  l !! k = Some x → f x = true →
  (∀ j y, (j < k)%nat → l !! j = Some y → f y = false) →
  findIndex f l = Z.of_nat k.
Proof.
  revert k. induction l as [|y l IH]; intros k Hk Hx Hlt; [done|].
  destruct k as [|k]; simpl in *.
  - injection Hk as ->. by rewrite Hx.
  - rewrite (Hlt O y) by (done || lia).
    rewrite (IH k Hk Hx).
    + destruct (Z.ltb_spec (Z.of_nat k) 0); lia.
    + intros j z Hj Hz. apply (Hlt (S j) z); [lia|done].
Qed.

(** X20. The queue position that the arcade page shows agrees with the
    server: for the donation at index [k] of the queue listing it is
    [k + 1], the position field of the line the server sent for it; for a
    donation that is not 'waiting' or 'active', and while [me] is not
    loaded, it is null. *)
Theorem client_position_agrees (t : table) (i : Z) :
  myQueuePosition None (queue_items 0 (listQueue t)) = None
  ∧ (∀ (k : nat) r, listQueue t !! k = Some (i, r) →
       myQueuePosition (Some i) (queue_items 0 (listQueue t)) = Some (Z.of_nat k + 1)
       ∧ q_position <$> queue_items 0 (listQueue t) !! k = Some (Z.of_nat k + 1))
  ∧ ((∀ r, t !! i = Some r → in_queue r = false) →
       myQueuePosition (Some i) (queue_items 0 (listQueue t)) = None).
Proof.
  split; [done|]. split.
  - intros k r Hk. split; [|by rewrite queue_items_lookup, Hk].
    unfold myQueuePosition.
    rewrite (findIndex_first _ _ k (item_of (Z.of_nat k + 1) (i, r))).
    + destruct (Z.leb_spec 0 (Z.of_nat k)); [done|lia].
    + by rewrite queue_items_lookup, Hk.
    + simpl. apply Z.eqb_refl.
    + intros j y Hj Hy. rewrite queue_items_lookup in Hy.
      destruct (listQueue t !! j) as [[i' r']|] eqn:Hl; [|done].
      injection Hy as <-. simpl. apply Z.eqb_neq. intros ->.
      assert (Hnd : NoDup (listQueue t).*1).
      { unfold listQueue. rewrite order_by_created_at_perm.
        apply NoDup_fst_List_filter, NoDup_fst_map_to_list. }
      assert (j = k); [|lia].
      apply (NoDup_lookup _ j k i Hnd); rewrite list_lookup_fmap.
      * by rewrite Hl.
      * by rewrite Hk.
  - intros Hno. unfold myQueuePosition. rewrite findIndex_none; [done|].
    intros it Hin. apply list_elem_of_lookup in Hin as [k Hk].
    rewrite queue_items_lookup in Hk.
    destruct (listQueue t !! k) as [[i' r']|] eqn:Hl; [|done].
    injection Hk as <-. simpl. apply Z.eqb_neq. intros ->.
    apply list_elem_of_lookup_2, elem_of_listQueue in Hl as [Hi Hr].
    rewrite (Hno r' Hi) in Hr. discriminate.
Qed.

(** X21. The countdown of the arcade page,
    [Math.max(0, Math.ceil((endsAt - Date.now()) / 1000))]: never negative;
    0 exactly from the deadline on; before the deadline the number of
    started seconds that are left; never growing as time passes. At the
    moment the server opens a window the page shows 35 for a credit, 15
    for the first move and 7 after a grab. *)
Theorem secondsLeft_counts_down (endsAt now : Z) :
  0 <= secondsLeft endsAt now
  ∧ (secondsLeft endsAt now = 0 ↔ endsAt <= now)
  ∧ (now < endsAt →
       1000 * (secondsLeft endsAt now - 1) < endsAt - now
       ∧ endsAt - now <= 1000 * secondsLeft endsAt now)
  ∧ (∀ later, now <= later → secondsLeft endsAt later <= secondsLeft endsAt now)
  ∧ secondsLeft (now + CREDIT_MS) now = 35
  ∧ secondsLeft (now + FIRST_MOVE_MS) now = 15
  ∧ secondsLeft (now + GRAB_FINISH_MS) now = 7.
Proof.
  unfold secondsLeft.
  pose proof (Z.div_mod (now - endsAt) 1000 ltac:(lia)) as Hdm.
  pose proof (Z.mod_pos_bound (now - endsAt) 1000 ltac:(lia)) as Hmb.
  split; [lia|]. split; [split; lia|]. split; [lia|]. split.
  - intros later Hl.
    pose proof (Z.div_le_mono (now - endsAt) (later - endsAt) 1000 ltac:(lia) ltac:(lia)).
    lia.
  - unfold CREDIT_MS, FIRST_MOVE_MS, GRAB_FINISH_MS.
    replace (now - (now + 35 * 1000)) with (-35 * 1000) by lia.
    replace (now - (now + 15 * 1000)) with (-15 * 1000) by lia.
    replace (now - (now + 7 * 1000)) with (-7 * 1000) by lia.
    rewrite !Z.div_mul by lia. lia.
Qed.

End ViewProps.

(* ===================================================================== *)
(** * The loops: boot recovery and the credit pulses                      *)
(* ===================================================================== *)

Module LoopProps.
Import Db Game System Props Shape Rows Columns DbFacts GameFacts ColumnFacts.

(** ** [recoverAfterRestart] *)

Lemma recovered_settled r :
  status r ≠ Active → (status r = Waiting → 0 < remaining r) → recovered r = r.
Proof.
  intros Ha Hw. unfold recovered, finished, demoted.
  rewrite (bool_decide_false _ Ha).
  destruct (bool_decide (status r = Waiting)) eqn:Hs; [|done].
  apply bool_decide_eq_true in Hs. specialize (Hw Hs). simpl.
  destruct (Z.leb_spec (remaining r) 0); [lia|done].
Qed.

Lemma recovered_spec r :
  status (recovered r) ≠ Active
  ∧ (status (recovered r) = Waiting → 0 < remaining (recovered r)).
Proof.
  split; [apply recovered_not_active|].
  unfold recovered, finished, demoted.
  destruct (bool_decide (status r = Active)) eqn:H1; simpl.
  - unfold remaining. simpl. fold (remaining r).
    destruct (Z.leb_spec (remaining r) 0); simpl; [discriminate|done].
  - destruct (bool_decide (status r = Waiting)) eqn:H2; simpl.
    + destruct (Z.leb_spec (remaining r) 0); simpl; [discriminate|done].
    + apply bool_decide_eq_false in H2. done.
Qed.

(** X22. Boot recovery settles the table: afterwards no row is 'active'
    and every 'waiting' row has credits left; a table of that kind is left
    as it is, so a second restart changes nothing more; and recovery
    leaves the [intent_id], [name], credits, pulsed flag and [created_at]
    of every row as they were, adds no row and removes none. Its writes
    are calls of [setDonationStatus], which on the whole row writes
    [status] and [updated_at] and nothing else. *)
Theorem recovery_settles (t : table) :
  recoverAfterRestart (recoverAfterRestart t) = recoverAfterRestart t
  ∧ (∀ i r, recoverAfterRestart t !! i = Some r →
       status r ≠ Active ∧ (status r = Waiting → 0 < remaining r))
  ∧ (recoverAfterRestart t = t
     ↔ ∀ i r, t !! i = Some r →
         status r ≠ Active ∧ (status r = Waiting → 0 < remaining r))
  ∧ (∀ i r, t !! i = Some r →
       ∃ r', recoverAfterRestart t !! i = Some r' ∧ same_but_status r r')
  ∧ (∀ i, t !! i = None → recoverAfterRestart t !! i = None)
  ∧ (∀ i s now (w : whole), columns w = t →
       columns (setDonationStatus_whole i s now w) = setDonationStatus i s t
       ∧ written_at i now w (setDonationStatus_whole i s now w)).
Proof.
  assert (Hpost : ∀ i r, recoverAfterRestart t !! i = Some r →
            status r ≠ Active ∧ (status r = Waiting → 0 < remaining r)).
  { intros i r. rewrite lookup_recoverAfterRestart. intros H.
    apply fmap_Some in H as (r0 & _ & ->). apply recovered_spec. }
  assert (Hfix : ∀ t' : table,
            (∀ i r, t' !! i = Some r →
               status r ≠ Active ∧ (status r = Waiting → 0 < remaining r)) →
            recoverAfterRestart t' = t').
  { intros t' H. apply map_eq. intros i. rewrite lookup_recoverAfterRestart.
    destruct (t' !! i) as [r|] eqn:Hi; [|done]. simpl. f_equal.
    destruct (H i r Hi). by apply recovered_settled. }
  split; [by apply Hfix|]. split; [exact Hpost|]. split; [split|split; [|split]].
  - intros Heq. by rewrite <- Heq.
  - apply Hfix.
  - intros i r Hi. rewrite lookup_recoverAfterRestart, Hi. simpl.
    eexists. split; [reflexivity|].
    unfold recovered, finished, demoted.
    destruct (bool_decide (status r = Active)); simpl;
      destruct (_ && _) || destruct (_ <=? _); by repeat split.
  - intros i Hi. by rewrite lookup_recoverAfterRestart, Hi.
  - intros i s now w <-.
    split; [apply columns_setDonationStatus|apply update_id_written].
Qed.

(** ** The credit pulses *)



End LoopProps.
